(** * Smart Recipe Finder: the search core of [src/App.jsx]

    A shallow embedding of the fuzzy helpers ([levenshtein], [scoreMatch]),
    the data functions ([fetchListCached], [intersectById]) and the search
    orchestration of the [App] component ([buildSourceList],
    [getSuggestions], [handleSearch]), followed by the properties the
    specification states about them. Further functions of the component
    (favorites, sorting and pages, the handlers on the search state, the
    trending loaders, the detail view) and further properties of the code
    come after these.

    Modelling conventions.
    - A JavaScript string is a Rocq [string] whose characters are the code
      units U+0000..U+00FF (Latin-1); [toLowerCase] and [trim] are the
      ECMAScript functions restricted to that range.
    - Lengths, indices and edit distances are [nat].
    - A score is a JavaScript number: [Infinity], or an exact rational [Q].
      The quotients that occur are [d / n] with [d] an edit distance and
      [n] the length of a candidate. Two such quotients that differ, differ
      by at least
      [1 / (n1 * n2)], and one that differs from [2 / 5] by at least
      [1 / (5 * n)]; for candidates shorter than 2^26 code units this is
      more than the rounding of a double, so the sign of a difference and
      the comparison against [0.4] are those of the exact rationals.
    - A [Map] is an insertion-ordered association list with unique keys; a
      [Set] used only through [has] is a [gset].
    - Asynchronous code is written in a state-and-exception monad over the
      module-level cache and the log of issued requests; the network is an
      oracle from the request and its sequence number to a response. *)

From Stdlib Require Import Ascii QArith Qround Lia Lqa.
From Stdlib Require String.
From stdpp Require Import base option list sorting gmap strings pretty.

Local Open Scope nat_scope.
#[local] Set Warnings "-clear-no-such-hyp".

(** ** JavaScript strings *)

Definition chars (s : string) : list ascii := String.list_ascii_of_string s.
Definition ofChars (l : list ascii) : string := String.string_of_list_ascii l.

(** [s.length] *)
Definition strlen (s : string) : nat := length (chars s).

(** [!s] for a string: true exactly for the empty string. *)
Definition isEmptyStr (s : string) : bool :=
  match s with EmptyString => true | String _ _ => false end.

(** Lower-casing of one Latin-1 code unit: A-Z, and U+00C0..U+00DE except
    the multiplication sign U+00D7, move up by 32. *)
Definition lowerChar (c : ascii) : ascii :=
  let n := nat_of_ascii c in
  if ((65 <=? n) && (n <=? 90)) || ((192 <=? n) && (n <=? 222) && negb (n =? 215))
  then ascii_of_nat (n + 32) else c.

(** [s.toLowerCase()] *)
Definition toLowerCase (s : string) : string := ofChars (lowerChar <$> chars s).

(** White space and line terminators of ECMAScript within Latin-1:
    TAB, LF, VT, FF, CR, SPACE and NBSP. *)
Definition isSpace (c : ascii) : bool :=
  let n := nat_of_ascii c in
  ((9 <=? n) && (n <=? 13)) || (n =? 32) || (n =? 160).

Fixpoint dropSpaces (l : list ascii) : list ascii :=
  match l with
  | [] => []
  | c :: l' => if isSpace c then dropSpaces l' else l
  end.

Definition trimChars (l : list ascii) : list ascii :=
  rev (dropSpaces (rev (dropSpaces l))).

(** [s.trim()] *)
Definition trim (s : string) : string := ofChars (trimChars (chars s)).

Fixpoint isPrefixOf (p l : list ascii) : bool :=
  match p, l with
  | [], _ => true
  | _ :: _, [] => false
  | a :: p', b :: l' => bool_decide (a = b) && isPrefixOf p' l'
  end.

Fixpoint isInfixOf (p l : list ascii) : bool :=
  isPrefixOf p l ||
  match l with
  | [] => false
  | _ :: l' => isInfixOf p l'
  end.

(** [t.includes(q)] *)
Definition includes (t q : string) : bool := isInfixOf (chars q) (chars t).

(** [s.split(",")] on the character level: the pieces between commas; the
    empty string splits into one empty piece. *)
Fixpoint splitChars (sep : ascii) (l : list ascii) : list (list ascii) :=
  match l with
  | [] => [[]]
  | c :: l' =>
      if bool_decide (c = sep) then [] :: splitChars sep l'
      else match splitChars sep l' with
           | [] => [[c]]
           | p :: ps => (c :: p) :: ps
           end
  end.

Definition comma : ascii := ","%char.

Definition splitComma (s : string) : list string :=
  ofChars <$> splitChars comma (chars s).

(** ** JavaScript numbers, as far as scores need them *)

Inductive jsnum : Type :=
  | NaN
  | PosInf
  | NegInf
  | Num (q : Q).

Definition Infinity : jsnum := PosInf.

(** [x - y] *)
Definition jsSub (x y : jsnum) : jsnum :=
  match x, y with
  | NaN, _ | _, NaN => NaN
  | PosInf, PosInf => NaN
  | NegInf, NegInf => NaN
  | PosInf, _ => PosInf
  | NegInf, _ => NegInf
  | Num _, PosInf => NegInf
  | Num _, NegInf => PosInf
  | Num a, Num b => Num (a - b)
  end.

(** [x < y] *)
Definition jsLt (x y : jsnum) : bool :=
  match x, y with
  | NaN, _ | _, NaN => false
  | PosInf, _ => false
  | _, NegInf => false
  | NegInf, _ => true
  | Num _, PosInf => true
  | Num a, Num b => match (a ?= b)%Q with Lt => true | _ => false end
  end.

(** [x <= y] *)
Definition jsLe (x y : jsnum) : bool :=
  match x, y with
  | NaN, _ | _, NaN => false
  | NegInf, _ => true
  | _, PosInf => true
  | PosInf, _ => false
  | Num _, NegInf => false
  | Num a, Num b => match (a ?= b)%Q with Gt => false | _ => true end
  end.

(** [x === y] *)
Definition jsEq (x y : jsnum) : bool :=
  match x, y with
  | PosInf, PosInf => true
  | NegInf, NegInf => true
  | Num a, Num b => match (a ?= b)%Q with Eq => true | _ => false end
  | _, _ => false
  end.

(** [isFinite(x)] *)
Definition isFinite (x : jsnum) : bool :=
  match x with Num _ => true | _ => false end.

(** [d / n] for two non-negative integers with [n] at least 1. *)
Definition jsDivNat (d n : nat) : jsnum :=
  Num (inject_Z (Z.of_nat d) / inject_Z (Z.of_nat n)).

(** ** Arrays *)

(** A stable sort driven by a comparator, as [Array.prototype.sort] is
    specified: [y] stays before [x] when [cmp y x] is negative, a [NaN]
    or zero result keeps the original order. *)
Section Sort.
Context {A : Type} (cmp : A → A → jsnum).

Definition before (y x : A) : bool := jsLt (cmp y x) (Num 0).

Fixpoint sortInsert (x : A) (l : list A) : list A :=
  match l with
  | [] => [x]
  | y :: l' => if before y x then y :: sortInsert x l' else x :: l
  end.

Fixpoint sortBy (l : list A) : list A :=
  match l with
  | [] => []
  | x :: l' => sortInsert x (sortBy l')
  end.
End Sort.

(** [m[i][j]] and [m[i][j] = v] on an array of rows. *)
Definition get2 (m : list (list nat)) (i j : nat) : nat :=
  default 0 (m !! i ≫= λ row, row !! j).

Definition set2 (m : list (list nat)) (i j v : nat) : list (list nat) :=
  match m !! i with
  | Some row => <[i := <[j := v]> row]> m
  | None => m
  end.

Definition min3 (x y z : nat) : nat := x `min` (y `min` z).

(** ** Fuzzy helpers *)

(** The three loops of [levenshtein] over the matrix. *)
Definition levFirstColumn (la : nat) (m : list (list nat)) : list (list nat) :=
  foldl (λ m i, set2 m i 0 i) m (seq 0 (la + 1)).

Definition levFirstRow (lb : nat) (m : list (list nat)) : list (list nat) :=
  foldl (λ m j, set2 m 0 j j) m (seq 0 (lb + 1)).

Definition levCell (a b : list ascii) (m : list (list nat)) (i j : nat)
  : list (list nat) :=
  let cost := if bool_decide (a !! (i - 1) = b !! (j - 1)) then 0 else 1 in
  set2 m i j (min3 (get2 m (i - 1) j + 1)
                   (get2 m i (j - 1) + 1)
                   (get2 m (i - 1) (j - 1) + cost)).

Definition levRow (a b : list ascii) (m : list (list nat)) (i : nat)
  : list (list nat) :=
  foldl (λ m j, levCell a b m i j) m (seq 1 (length b)).

Definition levFill (a b : list ascii) (m : list (list nat)) : list (list nat) :=
  foldl (levRow a b) m (seq 1 (length a)).

Definition levenshtein (a b : string) : nat :=
  if isEmptyStr a then strlen b
  else if isEmptyStr b then strlen a
  else
    let a := chars (toLowerCase a) in
    let b := chars (toLowerCase b) in
    let matrix := replicate (length a + 1) (replicate (length b + 1) 0) in
    let matrix := levFirstColumn (length a) matrix in
    let matrix := levFirstRow (length b) matrix in
    let matrix := levFill a b matrix in
    get2 matrix (length a) (length b).

Definition scoreMatch (query target : string) : jsnum :=
  let q := toLowerCase (trim query) in
  let t := toLowerCase (trim target) in
  if isEmptyStr q || isEmptyStr t then Infinity
  else if includes t q then Num 0
  else
    let dist := levenshtein q t in
    jsDivNat dist (strlen t `max` 1).

(** ** Meals, maps and the module-level cache *)

Record meal : Type := Meal {
  idMeal : string;
  strMeal : string;
  strMealThumb : string;
}.

Global Instance meal_eq_dec : EqDecision meal.
Proof. solve_decision. Defined.

(** A JavaScript [Map] with string keys: insertion-ordered, keys unique;
    [set] on a present key replaces the value where it stands. *)
Section JsMap.
Context {V : Type}.

Fixpoint mapGet (k : string) (m : list (string * V)) : option V :=
  match m with
  | [] => None
  | (k', v) :: m' => if bool_decide (k = k') then Some v else mapGet k m'
  end.

Definition mapHas (k : string) (m : list (string * V)) : bool :=
  bool_decide (k ∈ m.*1).

Fixpoint mapSet (k : string) (v : V) (m : list (string * V))
  : list (string * V) :=
  match m with
  | [] => [(k, v)]
  | (k', v') :: m' =>
      if bool_decide (k = k') then (k, v) :: m' else (k', v') :: mapSet k v m'
  end.

Definition mapKeys (m : list (string * V)) : list string := m.*1.
Definition mapValues (m : list (string * V)) : list V := m.*2.
End JsMap.

Inductive kind : Type := KIngredient | KCategory | KArea.

Global Instance kind_eq_dec : EqDecision kind.
Proof. solve_decision. Defined.

Record cacheT : Type := Cache {
  ingredient : list (string * list meal);
  category : list (string * list meal);
  area : list (string * list meal);
}.

(** [cache[kind]] and the effect of [cache[kind].set(key, meals)]. *)
Definition storeOf (k : kind) (c : cacheT) : list (string * list meal) :=
  match k with
  | KIngredient => ingredient c
  | KCategory => category c
  | KArea => area c
  end.

Definition storeSet (k : kind) (key : string) (meals : list meal) (c : cacheT)
  : cacheT :=
  match k with
  | KIngredient => Cache (mapSet key meals (ingredient c)) (category c) (area c)
  | KCategory => Cache (ingredient c) (mapSet key meals (category c)) (area c)
  | KArea => Cache (ingredient c) (category c) (mapSet key meals (area c))
  end.

(** ** The network *)

(** The three URL templates of [API] that the search uses; the argument is
    the value that the template percent-encodes. *)
Inductive url : Type :=
  | filterByIngredient (i : string)
  | filterByCategory (c : string)
  | filterByArea (a : string).

Global Instance url_eq_dec : EqDecision url.
Proof. solve_decision. Defined.

(** What [fetchJSON] meets: a transport or parse failure, or a JSON
    envelope whose [meals] member is an array, or null or absent. *)
Inductive response : Type :=
  | NetworkError
  | Json (meals : option (list meal)).

(** The network answers the [n]-th request of the session. *)
Definition network : Type := nat → url → response.

Record world : Type := World {
  cache : cacheT;
  requests : list url;
}.

Inductive result (A : Type) : Type :=
  | Ok (a : A)
  | Throw.
Arguments Ok {A} a.
Arguments Throw {A}.

Definition M (A : Type) : Type := world → result A * world.

Definition ret {A} (a : A) : M A := λ w, (Ok a, w).

Definition bind {A B} (f : A → M B) (m : M A) : M B :=
  λ w, match m w with
       | (Ok a, w') => f a w'
       | (Throw, w') => (Throw, w')
       end.

Global Instance M_ret : MRet M := @ret.
Global Instance M_bind : MBind M := @bind.

(** ** Data functions *)

(** [fetch(url)]: the request leaves at once and gets the next sequence
    number. *)
Definition send (u : url) (w : world) : nat * world :=
  (length (requests w), World (cache w) (requests w ++ [u])).

(** The rest of [fetchJSON] once the response is in. *)
Definition receive (net : network) (n : nat) (u : url)
  : result (option (list meal)) :=
  match net n u with
  | NetworkError => Throw
  | Json data => Ok data
  end.

(** An [async] call of [fetchListCached] runs up to its first [await]: it
    has either returned the cached value or is waiting for a response. *)
Inductive stage : Type :=
  | Done (meals : list meal)
  | Waiting (k : kind) (key : string) (n : nat) (u : url).

Definition fetchListCached_call (k : kind) (key : string) (u : url) (w : world)
  : stage * world :=
  let store := storeOf k (cache w) in
  if mapHas key store then (Done (default [] (mapGet key store)), w)
  else let '(n, w') := send u w in (Waiting k key n u, w').

Definition fetchListCached_resume (net : network) (st : stage) : M (list meal) :=
  match st with
  | Done meals => ret meals
  | Waiting k key n u =>
      λ w, match receive net n u with
           | Throw => (Throw, w)
           | Ok data =>
               let meals := default [] data in
               (Ok meals, World (storeSet k key meals (cache w)) (requests w))
           end
  end.

(** [await fetchListCached(kind, key, url)] *)
Definition fetchListCached (net : network) (k : kind) (key : string) (u : url)
  : M (list meal) :=
  λ w, let '(st, w') := fetchListCached_call k key u w in
       fetchListCached_resume net st w'.

(** [await Promise.all(calls)]: every call runs its synchronous part in
    order, then the responses settle in the order of the requests; the
    joint result throws when any of them does, and the calls that do
    succeed still store their lists. *)
Fixpoint startAll (calls : list (world → stage * world)) (w : world)
  : list stage * world :=
  match calls with
  | [] => ([], w)
  | c :: calls' =>
      let '(st, w1) := c w in
      let '(sts, w2) := startAll calls' w1 in
      (st :: sts, w2)
  end.

Fixpoint settleAll (net : network) (sts : list stage) (w : world)
  : list (result (list meal)) * world :=
  match sts with
  | [] => ([], w)
  | st :: sts' =>
      let '(r, w1) := fetchListCached_resume net st w in
      let '(rs, w2) := settleAll net sts' w1 in
      (r :: rs, w2)
  end.

Fixpoint allOk {A} (rs : list (result A)) : result (list A) :=
  match rs with
  | [] => Ok []
  | Throw :: _ => Throw
  | Ok a :: rs' =>
      match allOk rs' with
      | Ok l => Ok (a :: l)
      | Throw => Throw
      end
  end.

Definition promiseAll (net : network) (calls : list (world → stage * world))
  : M (list (list meal)) :=
  λ w, let '(sts, w1) := startAll calls w in
       let '(rs, w2) := settleAll net sts w1 in
       (allOk rs, w2).

(** [arrays.reduce(f)] without an initial value starts from the first
    array; the [Set] of each further array is asked only for membership. *)
Definition intersectStep (acc curr : list meal) : list meal :=
  let set : gset string := list_to_set (idMeal <$> curr) in
  filter (λ m, idMeal m ∈ set) acc.

Definition intersectById (arrays : list (list meal)) : list meal :=
  match arrays with
  | [] => []
  | first :: rest => foldl intersectStep first rest
  end.

(** The three lines [const map = new Map(); merged.forEach((m) =>
    map.set(m.idMeal, m)); Array.from(map.values())] that [handleSearch]
    and both trending loaders share. *)
Definition dedupeStep (map : list (string * meal)) (m : meal)
  : list (string * meal) :=
  mapSet (idMeal m) m map.

Definition dedupeById (merged : list meal) : list meal :=
  mapValues (foldl dedupeStep [] merged).

(** The trending loaders: [packs.flatMap((p) => p.meals || [])], merged
    by id. *)
Definition mergeTrending (packs : list (option (list meal))) : list meal :=
  dedupeById (packs ≫= default []).

(** ** The [App] component *)

Record AppState : Type := App {
  ingredientInput : string;
  selectedCategory : string;
  selectedArea : string;
  categories : list string;
  areas : list string;
  trending : list meal;
  results : list meal;
  loading : bool;
  error : string;
  page : nat;
  showSuggestions : bool;
  hasSearched : bool;
  (** the [setError] calls that [setTimeout] holds back *)
  timers : list string;
}.

Definition setPage (n : nat) (s : AppState) : AppState :=
  App (ingredientInput s) (selectedCategory s) (selectedArea s) (categories s)
      (areas s) (trending s) (results s) (loading s) (error s) n
      (showSuggestions s) (hasSearched s) (timers s).

Definition setError (msg : string) (s : AppState) : AppState :=
  App (ingredientInput s) (selectedCategory s) (selectedArea s) (categories s)
      (areas s) (trending s) (results s) (loading s) msg (page s)
      (showSuggestions s) (hasSearched s) (timers s).

Definition setLoading (b : bool) (s : AppState) : AppState :=
  App (ingredientInput s) (selectedCategory s) (selectedArea s) (categories s)
      (areas s) (trending s) (results s) b (error s) (page s)
      (showSuggestions s) (hasSearched s) (timers s).

Definition setHasSearched (b : bool) (s : AppState) : AppState :=
  App (ingredientInput s) (selectedCategory s) (selectedArea s) (categories s)
      (areas s) (trending s) (results s) (loading s) (error s) (page s)
      (showSuggestions s) b (timers s).

Definition setShowSuggestions (b : bool) (s : AppState) : AppState :=
  App (ingredientInput s) (selectedCategory s) (selectedArea s) (categories s)
      (areas s) (trending s) (results s) (loading s) (error s) (page s)
      b (hasSearched s) (timers s).

Definition setResults (r : list meal) (s : AppState) : AppState :=
  App (ingredientInput s) (selectedCategory s) (selectedArea s) (categories s)
      (areas s) (trending s) r (loading s) (error s) (page s)
      (showSuggestions s) (hasSearched s) (timers s).

(** [setTimeout(() => setError(msg), 100)] *)
Definition setTimeoutError (msg : string) (s : AppState) : AppState :=
  App (ingredientInput s) (selectedCategory s) (selectedArea s) (categories s)
      (areas s) (trending s) (results s) (loading s) (error s) (page s)
      (showSuggestions s) (hasSearched s) (timers s ++ [msg]).

(** The pending timers fire, oldest first. *)
Definition runTimers (s : AppState) : AppState :=
  App (ingredientInput s) (selectedCategory s) (selectedArea s) (categories s)
      (areas s) (trending s) (results s) (loading s)
      (foldl (λ _ msg, msg) (error s) (timers s)) (page s)
      (showSuggestions s) (hasSearched s) [].

(** [names.add(x)] on a [Set] kept in insertion order. *)
Definition setAdd (names : list string) (x : string) : list string :=
  if bool_decide (x ∈ names) then names else names ++ [x].

Definition fallbacks : list string :=
  ["biryani"; "pasta"; "pizza"; "curry"; "salad"; "fried rice"].

Definition buildSourceList (s : AppState) (w : world) : list string :=
  let names := [] in
  let names := foldl setAdd names (strMeal <$> trending s) in
  let names := foldl setAdd names (categories s) in
  let names := foldl setAdd names (areas s) in
  let names := foldl setAdd names (mapKeys (ingredient (cache w))) in
  let names := foldl setAdd names fallbacks in
  names.

(** The comparator [(a, b) => a.score - b.score] on scored candidates. *)
Definition byScore (a b : string * jsnum) : jsnum := jsSub a.2 b.2.

(** The pipeline of [getSuggestions] after the source list is built. *)
Definition suggest (query : string) (src : list string) : list string :=
  let scored := (λ s, (s, scoreMatch query s)) <$> src in
  let scored := filter (λ x, isFinite x.2 = true) scored in
  let scored := sortBy byScore scored in
  let scored := take 6 scored in
  fst <$> scored.

Definition getSuggestions (s : AppState) (w : world) (query : string)
  : list string :=
  if isEmptyStr query || (strlen (trim query) <? 1) then []
  else suggest query (buildSourceList s w).

(** The first element of the scored and sorted source list:
    [scored[0]] in [handleSearch]. *)
Definition bestCorrection (query : string) (src : list string)
  : option (string * jsnum) :=
  head (sortBy byScore ((λ s, (s, scoreMatch query s)) <$> src)).

Definition dquote : string := String "034"%char EmptyString.

Definition didYouMeanMessage (queryTerm best : string) : string :=
  "No results for " +:+ dquote +:+ queryTerm +:+ dquote +:+ ". Did you mean "
    +:+ dquote +:+ best +:+ dquote +:+ "? Click the suggestion to search.".

Definition noRecipesMessage : string := "No recipes found. Try different filters.".
Definition wentWrongMessage : string := "Something went wrong. Please try again.".

(** [queryTerm.split(",").map((s) => s.trim()).filter(Boolean)] *)
Definition ingredientsOf (queryTerm : string) : list string :=
  filter (λ s, isEmptyStr s = false) (trim <$> splitComma queryTerm).

(** The part of the [try] block that awaits the network: one combined
    list for the ingredients, one for the category, one for the area. *)
Definition gatherLists (net : network) (s : AppState) (queryTerm : string)
  : M (list (list meal)) :=
  let ingredients := ingredientsOf queryTerm in
  lists ← (if bool_decide (ingredients = []) then mret []
           else
             ingredientLists ← promiseAll net
               ((λ ing, let key := toLowerCase ing in
                        fetchListCached_call KIngredient key (filterByIngredient key))
                  <$> ingredients);
             mret [intersectById ingredientLists]);
  lists ← (if isEmptyStr (selectedCategory s) then mret lists
           else
             let key := selectedCategory s in
             l ← fetchListCached net KCategory key (filterByCategory key);
             mret (lists ++ [l]));
  lists ← (if isEmptyStr (selectedArea s) then mret lists
           else
             let key := selectedArea s in
             l ← fetchListCached net KArea key (filterByArea key);
             mret (lists ++ [l]));
  mret lists.

(** [merged] from the gathered lists. *)
Definition mergeLists (s : AppState) (lists : list (list meal)) : list meal :=
  match lists with
  | [] => trending s
  | [l] => l
  | _ => intersectById lists
  end.

(** The branch of [handleSearch] taken when nothing was found. *)
Definition reportEmpty (queryTerm : string) (s : AppState) (w : world)
  : AppState :=
  let src := buildSourceList s w in
  match bestCorrection queryTerm src with
  | Some best =>
      if jsLt best.2 (Num 0.4)
         && negb (bool_decide (toLowerCase best.1 = toLowerCase queryTerm))
      then setTimeoutError (didYouMeanMessage queryTerm best.1) (setError "" s)
      else setError noRecipesMessage s
  | None => setError noRecipesMessage s
  end.

Definition handleSearch (net : network) (term : option string)
    (s : AppState) (w : world) : AppState * world :=
  let queryTerm := default (ingredientInput s) term in
  let s := setPage 1 s in
  let s := setError "" s in
  let s := setLoading true s in
  let s := setHasSearched true s in
  let s := setShowSuggestions false s in
  match gatherLists net s queryTerm w with
  | (Ok lists, w') =>
      let merged := mergeLists s lists in
      let deduped := dedupeById merged in
      let s := setResults deduped s in
      let s := if bool_decide (deduped = []) then reportEmpty queryTerm s w'
               else s in
      (setLoading false s, w')
  | (Throw, w') =>
      let s := setError wentWrongMessage s in
      (setLoading false s, w')
  end.

(** ** Reference notions used in the statements *)

(** The Levenshtein distance by its recurrence: unit cost for an insertion,
    a deletion and a substitution. *)
Fixpoint editDistance (xs ys : list ascii) : nat :=
  match xs with
  | [] => length ys
  | x :: xs' =>
      (fix inner (ys : list ascii) : nat :=
         match ys with
         | [] => length xs
         | y :: ys' =>
             min3 (editDistance xs' ys + 1)
                  (inner ys' + 1)
                  (editDistance xs' ys' + (if bool_decide (x = y) then 0 else 1))
         end) ys
  end.

(** The distance between the first [i] characters of [a] and the first
    [j] characters of [b], by the recurrence on their last characters. *)
Definition prefixDistance (a b : list ascii) (i j : nat) : nat :=
  editDistance (rev (take i a)) (rev (take j b)).

(** A matrix of [la + 1] rows of [lb + 1] cells each. *)
Definition dims (la lb : nat) (m : list (list nat)) : Prop :=
  length m = la + 1 ∧ ∀ i row, m !! i = Some row → length row = lb + 1.

(** The loop invariant of [levenshtein]: the cells that hold their final
    value are the rows above [i], column 0, and row [i] left of column [j]. *)
Definition filled (a b : list ascii) (i j : nat) (m : list (list nat)) : Prop :=
  dims (length a) (length b) m ∧
  ∀ i' j', i' ≤ length a → j' ≤ length b →
    i' < i ∨ j' = 0 ∨ (i' = i ∧ j' < j) →
    get2 m i' j' = prefixDistance a b i' j'.

(** A string that is empty or consists of white space only. *)
Definition isBlank (s : string) : Prop :=
  Forall (λ c, isSpace c = true) (chars s).

(** The values a score takes: [Infinity] or a rational. *)
Definition isScore (x : jsnum) : Prop :=
  match x with PosInf | Num _ => True | _ => False end.

(** The comparator [(a, b) => key(a) - key(b)]. *)
Definition byKey {A} (key : A → jsnum) (a b : A) : jsnum := jsSub (key a) (key b).

(** Some request among [new], the first of which has sequence number
    [start], meets a network failure. *)
Definition failsIn (net : network) (start : nat) (new : list url) : Prop :=
  ∃ i u, new !! i = Some u ∧ net (start + i) u = NetworkError.

(** What a computation may do to the world: it appends requests, all of
    them in [R]; it throws exactly when one of these fails; and the keys
    it adds to the cache are in [K]. *)
Definition tracked (net : network) (K : kind → string → Prop) (R : url → Prop)
    {A} (m : M A) : Prop :=
  ∀ w, ∃ new,
    requests (m w).2 = requests w ++ new
    ∧ Forall R new
    ∧ ((m w).1 = Throw ↔ failsIn net (length (requests w)) new)
    ∧ ∀ k key, key ∈ mapKeys (storeOf k (cache (m w).2)) →
        key ∈ mapKeys (storeOf k (cache w)) ∨ K k key.

(** The requests that a list of started calls is waiting for. *)
Fixpoint pendingOf (sts : list stage) : list (nat * url) :=
  match sts with
  | [] => []
  | Done _ :: sts' => pendingOf sts'
  | Waiting _ _ n u :: sts' => (n, u) :: pendingOf sts'
  end.

(** The calls that [handleSearch] hands to [Promise.all]. *)
Definition ingredientCalls (keys : list string) : list (world → stage * world) :=
  (λ key, fetchListCached_call KIngredient key (filterByIngredient key)) <$> keys.

(** The cache keys of a search: the lower-cased ingredient terms, the
    selected category and the selected area, each in its own store. *)
Definition ingredientKeys (queryTerm : string) : list string :=
  toLowerCase <$> ingredientsOf queryTerm.

Definition searchKeys (s : AppState) (queryTerm : string) (k : kind)
    (key : string) : Prop :=
  (k = KIngredient ∧ key ∈ ingredientKeys queryTerm)
  ∨ (k = KCategory ∧ key = selectedCategory s)
  ∨ (k = KArea ∧ key = selectedArea s).

Definition searchRequests (s : AppState) (queryTerm : string) (u : url) : Prop :=
  (∃ key, key ∈ ingredientKeys queryTerm ∧ u = filterByIngredient key)
  ∨ u = filterByCategory (selectedCategory s)
  ∨ u = filterByArea (selectedArea s).

(** The number of lists that the filters of a search produce. *)
Definition activeFilters (s : AppState) (queryTerm : string) : nat :=
  (if bool_decide (ingredientsOf queryTerm = []) then 0 else 1)
  + (if isEmptyStr (selectedCategory s) then 0 else 1)
  + (if isEmptyStr (selectedArea s) then 0 else 1).

(** The requests issued between two worlds. *)
Definition newRequests (w w' : world) : list url :=
  drop (length (requests w)) (requests w').

(** The state in which [handleSearch] enters its [try] block. *)
Definition searching (s : AppState) : AppState :=
  setShowSuggestions false
    (setHasSearched true (setLoading true (setError "" (setPage 1 s)))).

(** The keys that a search looks up: as [searchKeys], a category or area
    only when one is selected. *)
Definition activeKeys (s : AppState) (queryTerm : string) (k : kind)
    (key : string) : Prop :=
  (k = KIngredient ∧ key ∈ ingredientKeys queryTerm)
  ∨ (k = KCategory ∧ key = selectedCategory s ∧ key ≠ "")
  ∨ (k = KArea ∧ key = selectedArea s ∧ key ≠ "").

(** The keys in [G] are in the cache. *)
Definition cached (G : kind → string → Prop) (c : cacheT) : Prop :=
  ∀ k key, G k key → mapHas key (storeOf k c) = true.

(** A computation that memoizes the keys in [G]: it never drops a key;
    when it returns normally the keys in [G] are cached; and when they
    are cached beforehand it returns normally and leaves the world,
    request log included, as it is. *)
Definition memoizes (G : kind → string → Prop) {A} (m : M A) : Prop :=
  ∀ w,
    (∀ k key, mapHas key (storeOf k (cache w)) = true →
              mapHas key (storeOf k (cache (m w).2)) = true)
    ∧ ((m w).1 ≠ Throw → cached G (cache (m w).2))
    ∧ (cached G (cache w) → ∃ a, m w = (Ok a, w)).

(** The states in which the specification says a search settles. *)
Definition Succeeded (s : AppState) : Prop :=
  results s ≠ [] ∧ error s = "" ∧ loading s = false.
Definition Failed (s : AppState) : Prop :=
  error s = wentWrongMessage ∧ loading s = false.
Definition EmptyNoSuggestion (s : AppState) : Prop :=
  results s = [] ∧ error s = noRecipesMessage ∧ loading s = false.

Definition emptyCache : cacheT := Cache [] [] [].
Definition initialWorld : world := World emptyCache [].
Definition initialApp : AppState :=
  App "" "" "" [] [] [] [] false "" 1 false false [].

(** ** Further functions of [App.jsx] *)

(** *** Utilities *)

(** [l.join(sep)] *)
Fixpoint joinWith (sep : string) (l : list string) : string :=
  match l with
  | [] => ""
  | [x] => x
  | x :: l' => x +:+ sep +:+ joinWith sep l'
  end.

(** [classNames(...xs)]: [xs.filter(Boolean).join(" ")]. An argument is a
    string, or [None] for a falsy value that is not a string ([false],
    [null], [undefined]). *)
Definition classNames (xs : list (option string)) : string :=
  joinWith " " (filter (λ x, isEmptyStr x = false) (omap id xs)).

(** *** Favorites *)

Definition isFav (favorites : list string) (id : string) : bool :=
  bool_decide (id ∈ favorites).

Definition toggleFav (id : string) (prev : list string) : list string :=
  if bool_decide (id ∈ prev) then filter (λ x, x ≠ id) prev else prev ++ [id].

(** *** Sorting and pages *)

Definition PAGE_SIZE : nat := 12.

(** [Math.ceil(n / d)] for two lengths. *)
Definition ceilDiv (n d : nat) : nat :=
  Z.to_nat (Qceiling (inject_Z (Z.of_nat n) / inject_Z (Z.of_nat d))).

Definition totalPages (results : list meal) : nat :=
  1 `max` ceilDiv (length results) PAGE_SIZE.

(** [copy.sort(...)] under the two [if]s of [sortedResults]; the collation
    [localeCompare] of the host is a parameter. *)
Definition sortedResults (localeCompare : string → string → jsnum)
    (sort : string) (results : list meal) : list meal :=
  let copy := results in
  let copy := if bool_decide (sort = "name-asc")
              then sortBy (λ a b, localeCompare (strMeal a) (strMeal b)) copy
              else copy in
  let copy := if bool_decide (sort = "name-desc")
              then sortBy (λ a b, localeCompare (strMeal b) (strMeal a)) copy
              else copy in
  copy.

(** [l.slice(start, stop)] for indices that are not negative. *)
Definition slice {A} (start stop : nat) (l : list A) : list A :=
  take (stop - start) (drop start l).

Definition pageItems (page : nat) (sorted : list meal) : list meal :=
  let start := (page - 1) * PAGE_SIZE in
  slice start (start + PAGE_SIZE) sorted.

(** The updates of the Previous and Next buttons. *)
Definition previousPage (p : nat) : nat := 1 `max` (p - 1).
Definition nextPage (total p : nat) : nat := total `min` (p + 1).

(** *** Handlers on the search state *)

Definition randomFailedMessage : string :=
  "Could not load a random recipe. Try again.".

(** The handler of the button "Surprise me", given the response to its
    request for a random meal. *)
Definition surpriseMe (r : response) (s : AppState) : AppState :=
  let s := setLoading true s in
  let s := setError "" s in
  let s := setHasSearched true s in
  let s := match r with
           | Json d => setResults (default [] d) s
           | NetworkError => setError randomFailedMessage s
           end in
  setLoading false s.

Definition resetToTrending (s : AppState) : AppState :=
  App "" "" "" (categories s) (areas s) (trending s) (trending s) (loading s)
      "" 1 (showSuggestions s) false (timers s).

Definition setIngredientInput (x : string) (s : AppState) : AppState :=
  App x (selectedCategory s) (selectedArea s) (categories s) (areas s)
      (trending s) (results s) (loading s) (error s) (page s)
      (showSuggestions s) (hasSearched s) (timers s).

(** [handleSuggestionClick(x)] *)
Definition handleSuggestionClick (net : network) (x : string) (s : AppState)
    (w : world) : AppState * world :=
  let s := setIngredientInput x s in
  let s := setShowSuggestions false s in
  handleSearch net (Some x) s w.

(** The conditions under which the parts of the page are rendered. *)
Definition showsQuickPicks (s : AppState) : bool := negb (hasSearched s).
Definition showsSkeleton (s : AppState) : bool := loading s.
Definition showsError (s : AppState) : bool := negb (isEmptyStr (error s)).
Definition showsResults (s : AppState) : bool :=
  negb (loading s) && isEmptyStr (error s) && (0 <? length (results s)).
Definition showsLanding (s : AppState) : bool :=
  negb (loading s) && isEmptyStr (error s) && negb (hasSearched s).
Definition showsEmptyNotice (s : AppState) : bool :=
  negb (loading s) && isEmptyStr (error s) && (length (results s) =? 0)
  && hasSearched s.

(** *** Trending *)

(** [Array.from({ length: n }, () => fetchJSON(API.random))], awaited
    jointly; [net] answers the [i]-th of these requests. *)
Definition randomPacks (net : nat → response) (n : nat)
  : result (list (option (list meal))) :=
  allOk ((λ i, match net i with
               | NetworkError => Throw
               | Json d => Ok d
               end) <$> seq 0 n).

(** The loader that runs on mount: the trending list and the flag
    [trendingLoading] once it has settled. *)
Definition loadTrending (net : nat → response) : list meal * bool :=
  match randomPacks net 8 with
  | Ok packs => (mergeTrending packs, false)
  | Throw => ([], false)
  end.

(** The handler of the button "Refresh", which has no [catch]. *)
Definition refreshTrending (net : nat → response) (trending : list meal)
  : list meal * bool :=
  match randomPacks net 6 with
  | Ok packs => (mergeTrending packs, false)
  | Throw => (trending, false)
  end.

(** *** Details *)

(** A full meal record of the remote source: its members are strings or
    null. *)
Abbreviation rawMeal := (gmap string (option string)).

(** [meal[key]] as far as its truth value and string go: [None] for an
    absent or null member. *)
Definition member (meal : rawMeal) (key : string) : option string :=
  meal !! key ≫= id.

(** The key [`strIngredient${i}`] or [`strMeasure${i}`]. *)
Definition slotKey (field : string) (i : nat) : string := field +:+ pretty i.

(** The en dash U+2013 of the template, which is outside Latin-1, stands
    as the three bytes of its UTF-8 form. *)
Definition enDash : string :=
  String "226"%char (String "128"%char (String "147"%char EmptyString)).

(** The body of the loop of [enrichMeal]. *)
Definition enrichStep (meal : rawMeal) (ing : list string) (i : nat)
  : list string :=
  let name := member meal (slotKey "strIngredient" i) in
  let measure := member meal (slotKey "strMeasure" i) in
  match name with
  | Some name =>
      if negb (isEmptyStr name) && negb (isEmptyStr (trim name))
      then ing ++ [name +:+ match measure with
                            | Some measure =>
                                if isEmptyStr measure then ""
                                else " " +:+ enDash +:+ " " +:+ measure
                            | None => ""
                            end]
      else ing
  | None => ing
  end.

(** [{ ...meal, _ingredients: ing }]: the members of the record, and the
    array under the key [_ingredients]. *)
Record enriched : Type := Enriched {
  members : rawMeal;
  _ingredients : list string;
}.

Definition enrichMeal (meal : rawMeal) : enriched :=
  let ing := foldl (enrichStep meal) [] (seq 1 20) in
  Enriched (delete "_ingredients" meal) ing.

(** The value of the state [detail]: an enriched meal or [{ _error: true }]. *)
Inductive detailView : Type :=
  | DetailMeal (d : enriched)
  | DetailError.

Record DetailState : Type := Details {
  detailOpen : bool;
  detailLoading : bool;
  detail : option detailView;
}.

(** The response to a lookup by id: a failure, or an envelope whose
    [meals] member is an array, or null or absent. *)
Inductive lookupResponse : Type :=
  | LookupError
  | LookupJson (meals : option (list rawMeal)).

(** [cache.lookup] and the log of the ids looked up remotely. *)
Record lookupWorld : Type := LookupWorld {
  lookupCache : list (string * rawMeal);
  lookups : list string;
}.

Definition openDetails (net : nat → string → lookupResponse) (id : string)
    (d : DetailState) (w : lookupWorld) : DetailState * lookupWorld :=
  if mapHas id (lookupCache w) then
    let meal := default ∅ (mapGet id (lookupCache w)) in
    (Details true false (Some (DetailMeal (enrichMeal meal))), w)
  else
    let w' := LookupWorld (lookupCache w) (lookups w ++ [id]) in
    match net (length (lookups w)) id with
    | LookupError => (Details true false (Some DetailError), w')
    | LookupJson data =>
        match data ≫= head with
        | None => (Details true false (Some DetailError), w')
        | Some meal =>
            (Details true false (Some (DetailMeal (enrichMeal meal))),
             LookupWorld (mapSet id meal (lookupCache w)) (lookups w ++ [id]))
        end
    end.

(** *** Reference notions for the further properties *)

(** A computation that leaves every entry of the cache as it finds it. *)
Definition keeps {A} (m : M A) : Prop :=
  ∀ w k key v,
    mapGet key (storeOf k (cache w)) = Some v →
    mapGet key (storeOf k (cache (m w).2)) = Some v.

(** Slot [i] of a meal has a name: a string that is not blank. *)
Definition hasName (meal : rawMeal) (i : nat) : Prop :=
  ∃ name, member meal (slotKey "strIngredient" i) = Some name ∧ ¬ isBlank name.

Global Instance hasName_dec (meal : rawMeal) (i : nat) : Decision (hasName meal i).
Proof.
  unfold hasName.
  destruct (member meal (slotKey "strIngredient" i)) as [name|];
    [|right; by intros (? & ? & _)].
  destruct (decide (Forall (λ c, isSpace c = true) (chars name))) as [Hb|Hb].
  - right. intros (? & [= <-] & Hn). by apply Hn.
  - left. by exists name.
Defined.

(** The line of slot [i]: its name, followed by a dash and the measure
    when there is one. *)
Definition lineOf (meal : rawMeal) (i : nat) : string :=
  default "" (member meal (slotKey "strIngredient" i))
  +:+ match member meal (slotKey "strMeasure" i) with
      | Some measure =>
          if isEmptyStr measure then "" else " " +:+ enDash +:+ " " +:+ measure
      | None => ""
      end.

(** The lists gathered for the keys in [G]: each key has its list in the
    cache, and one of the gathered lists has ids among those of that
    list. *)
Definition gathered (G : kind → string → Prop) (lists : list (list meal))
    (c : cacheT) : Prop :=
  ∀ k key, G k key →
    ∃ l l', mapGet key (storeOf k c) = Some l ∧ l' ∈ lists
            ∧ ∀ i, i ∈ idMeal <$> l' → i ∈ idMeal <$> l.

(** A started call that waits for the list of [key] in the store [k]. *)
Definition isWaiting (k : kind) (key : string) (st : stage) : Prop :=
  match st with
  | Waiting k' key' _ _ => k' = k ∧ key' = key
  | Done _ => False
  end.

Global Instance isWaiting_dec (k : kind) (key : string) (st : stage) :
  Decision (isWaiting k key st).
Proof. destruct st; simpl; apply _. Defined.

(** * Properties *)

(** ** Strings *)

Lemma chars_ofChars (l : list ascii) : chars (ofChars l) = l.
Proof. apply String.list_ascii_of_string_of_list_ascii. Qed.

Lemma ofChars_chars (s : string) : ofChars (chars s) = s.
Proof. apply String.string_of_list_ascii_of_string. Qed.

Lemma chars_inj (s t : string) : chars s = chars t → s = t.
Proof. intros H. rewrite <- (ofChars_chars s), <- (ofChars_chars t). by rewrite H. Qed.

Lemma isEmptyStr_chars (s : string) : isEmptyStr s = true ↔ chars s = [].
Proof. destruct s; simpl; split; intros H; done. Qed.

Lemma isEmptyStr_true (s : string) : isEmptyStr s = true ↔ s = "".
Proof. destruct s; simpl; split; intros H; done. Qed.

Lemma isEmptyStr_false (s : string) : isEmptyStr s = false ↔ s ≠ "".
Proof. destruct s; simpl; split; intros H; done. Qed.

Lemma chars_toLowerCase (s : string) :
  chars (toLowerCase s) = lowerChar <$> chars s.
Proof. apply chars_ofChars. Qed.

Lemma strlen_toLowerCase (s : string) : strlen (toLowerCase s) = strlen s.
Proof. unfold strlen. by rewrite chars_toLowerCase, length_fmap. Qed.

Lemma isEmptyStr_toLowerCase (s : string) :
  isEmptyStr (toLowerCase s) = isEmptyStr s.
Proof. by destruct s. Qed.

Lemma lowerChar_idemp (c : ascii) : lowerChar (lowerChar c) = lowerChar c.
Proof. destruct c as [[] [] [] [] [] [] [] []]; reflexivity. Qed.

Lemma toLowerCase_idemp (s : string) : toLowerCase (toLowerCase s) = toLowerCase s.
Proof.
  apply chars_inj. rewrite !chars_toLowerCase, <- list_fmap_compose.
  apply list_fmap_ext. intros _ c _. apply lowerChar_idemp.
Qed.

Lemma isSpace_lowerChar (c : ascii) : isSpace (lowerChar c) = isSpace c.
Proof. destruct c as [[] [] [] [] [] [] [] []]; reflexivity. Qed.

Lemma lowerChar_comma (c : ascii) : lowerChar c = comma ↔ c = comma.
Proof. destruct c as [[] [] [] [] [] [] [] []]; split; intros H; done. Qed.

(** [includes] is containment as a contiguous substring. *)
Lemma isPrefixOf_spec (p l : list ascii) :
  isPrefixOf p l = true ↔ ∃ post, l = p ++ post.
Proof.
  revert l. induction p as [|a p IH]; intros l; simpl.
  - split; [intros _; by exists l | done].
  - destruct l as [|b l]; simpl.
    + split; [done | intros [post H]; done].
    + rewrite andb_true_iff, bool_decide_eq_true, IH. split.
      * intros [-> [post ->]]. by exists post.
      * intros [post H]. injection H as -> ->. eauto.
Qed.

Lemma isInfixOf_spec (p l : list ascii) :
  isInfixOf p l = true ↔ ∃ pre post, l = pre ++ p ++ post.
Proof.
  induction l as [|b l IH].
  - cbn [isInfixOf]. rewrite orb_false_r, isPrefixOf_spec. split.
    + intros [post H]. by exists [], post.
    + intros [pre [post H]]. symmetry in H.
      apply app_eq_nil in H as [-> H]. apply app_eq_nil in H as [-> ->].
      by exists [].
  - cbn [isInfixOf]. rewrite orb_true_iff, IH, isPrefixOf_spec. split.
    + intros [[post H] | [pre [post H]]].
      * by exists [], post.
      * exists (b :: pre), post. by rewrite H.
    + intros [[|c pre] [post H]].
      * left. by exists post.
      * right. injection H as -> ->. eauto.
Qed.

Lemma chars_append (s t : string) : chars (s +:+ t) = chars s ++ chars t.
Proof. induction s as [|c s IH]; simpl; [done | by rewrite <- IH]. Qed.

Lemma includes_spec (t q : string) :
  includes t q = true ↔ ∃ pre post, t = pre +:+ q +:+ post.
Proof.
  unfold includes. rewrite isInfixOf_spec. split.
  - intros [pre [post H]]. exists (ofChars pre), (ofChars post).
    apply chars_inj. by rewrite !chars_append, !chars_ofChars.
  - intros [pre [post ->]]. exists (chars pre), (chars post).
    by rewrite !chars_append.
Qed.

(** ** The edit-distance recurrence *)

Lemma editDistance_nil_r (xs : list ascii) : editDistance xs [] = length xs.
Proof. by destruct xs. Qed.

Lemma editDistance_cons (x y : ascii) (xs ys : list ascii) :
  editDistance (x :: xs) (y :: ys) =
    min3 (editDistance xs (y :: ys) + 1)
         (editDistance (x :: xs) ys + 1)
         (editDistance xs ys + (if bool_decide (x = y) then 0 else 1)).
Proof. reflexivity. Qed.

Lemma editDistance_sym (xs ys : list ascii) :
  editDistance xs ys = editDistance ys xs.
Proof.
  revert ys. induction xs as [|x xs IHx]; intros ys.
  - by rewrite editDistance_nil_r.
  - induction ys as [|y ys IHy]; [done|].
    rewrite !editDistance_cons, IHy, (IHx (y :: ys)), (IHx ys).
    unfold min3. repeat case_bool_decide; subst; try done; lia.
Qed.

Lemma editDistance_diag (xs : list ascii) : editDistance xs xs = 0.
Proof.
  induction xs as [|x xs IH]; [done|].
  rewrite editDistance_cons, IH, bool_decide_eq_true_2 by done.
  unfold min3. lia.
Qed.

(** ** The matrix of [levenshtein] *)

Lemma foldl_seq_ind {St : Type} (P : nat → St → Prop) (f : St → nat → St)
    (start n : nat) (x : St) :
  P start x →
  (∀ k y, start ≤ k < start + n → P k y → P (k + 1) (f y k)) →
  P (start + n) (foldl f x (seq start n)).
Proof.
  revert start x. induction n as [|n IH]; intros start x H0 Hstep; simpl.
  - by rewrite Nat.add_0_r.
  - replace (start + S n) with (S start + n) by lia.
    apply IH.
    + replace (S start) with (start + 1) by lia. apply Hstep; [lia | done].
    + intros k y Hk. apply Hstep. lia.
Qed.

Section Matrix.
Variables la lb : nat.
Local Abbreviation dims := (dims la lb).

Lemma dims_replicate : dims (replicate (la + 1) (replicate (lb + 1) 0)).
Proof.
  split; [by rewrite length_replicate|].
  intros i row [-> _]%lookup_replicate. by rewrite length_replicate.
Qed.

Lemma dims_set2 m i j v : dims m → dims (set2 m i j v).
Proof.
  intros [Hlen Hrows]. unfold set2.
  destruct (m !! i) as [row|] eqn:Hi; [|done].
  split; [by rewrite length_insert|].
  intros i' row' H.
  destruct (decide (i = i')) as [<-|Hne].
  - rewrite list_lookup_insert_eq in H by (by eapply lookup_lt_Some).
    injection H as <-. rewrite length_insert. by eapply Hrows.
  - rewrite list_lookup_insert_ne in H by done. by eapply Hrows.
Qed.

Lemma get2_set2_eq m i j v :
  dims m → i ≤ la → j ≤ lb → get2 (set2 m i j v) i j = v.
Proof.
  intros [Hlen Hrows] Hi Hj. unfold get2, set2.
  destruct (m !! i) as [row|] eqn:Hrow.
  - rewrite list_lookup_insert_eq by lia. simpl.
    rewrite list_lookup_insert_eq; [done|].
    rewrite (Hrows i row Hrow). lia.
  - apply lookup_ge_None in Hrow. lia.
Qed.

Lemma get2_set2_ne m i j v i' j' :
  (i, j) ≠ (i', j') → get2 (set2 m i j v) i' j' = get2 m i' j'.
Proof.
  intros Hne. unfold get2, set2.
  destruct (m !! i) as [row|] eqn:Hrow; [|done].
  destruct (decide (i = i')) as [<-|Hi].
  - rewrite Hrow. simpl.
    destruct (decide (i < length m)) as [Hlt|Hge].
    + rewrite list_lookup_insert_eq by done. simpl.
      rewrite list_lookup_insert_ne; [done|]. intros ->. done.
    + apply lookup_lt_Some in Hrow. lia.
  - by rewrite list_lookup_insert_ne.
Qed.
End Matrix.

Section Levenshtein.
Variables a b : list ascii.

Local Abbreviation la := (length a).
Local Abbreviation lb := (length b).
Local Abbreviation prefixDistance := (prefixDistance a b).
Local Abbreviation filled := (filled a b).

Lemma prefixDistance_0_l j : j ≤ lb → prefixDistance 0 j = j.
Proof.
  intros Hj. unfold prefixDistance. rewrite take_0. simpl.
  rewrite length_rev, length_take. lia.
Qed.

Lemma prefixDistance_0_r i : i ≤ la → prefixDistance i 0 = i.
Proof.
  intros Hi. unfold prefixDistance. rewrite take_0. simpl.
  rewrite editDistance_nil_r, length_rev, length_take. lia.
Qed.

Lemma rev_take_S {A} (l : list A) i x :
  l !! i = Some x → rev (take (S i) l) = x :: rev (take i l).
Proof.
  intros H. rewrite (take_S_r l i x H), rev_app_distr. done.
Qed.

Lemma prefixDistance_S i j :
  i < la → j < lb →
  prefixDistance (S i) (S j) =
    min3 (prefixDistance i (S j) + 1)
         (prefixDistance (S i) j + 1)
         (prefixDistance i j
            + (if bool_decide (a !! i = b !! j) then 0 else 1)).
Proof.
  intros Hi Hj.
  destruct (lookup_lt_is_Some_2 a i Hi) as [x Hx].
  destruct (lookup_lt_is_Some_2 b j Hj) as [y Hy].
  unfold prefixDistance.
  rewrite (rev_take_S a i x Hx), (rev_take_S b j y Hy), editDistance_cons.
  rewrite Hx, Hy.
  destruct (decide (x = y)) as [->|Hne].
  - by rewrite !bool_decide_eq_true_2.
  - rewrite !bool_decide_eq_false_2; [done | congruence | done].
Qed.

Lemma prefixDistance_full : prefixDistance la lb = editDistance (rev a) (rev b).
Proof. unfold prefixDistance. by rewrite !firstn_all. Qed.

Lemma levFirstColumn_spec m :
  dims la lb m →
  dims la lb (levFirstColumn la m) ∧
  ∀ i, i ≤ la → get2 (levFirstColumn la m) i 0 = i.
Proof.
  intros Hd. unfold levFirstColumn.
  pose proof (foldl_seq_ind
    (λ k m, dims la lb m ∧ ∀ i, i < k → i ≤ la → get2 m i 0 = i)
    (λ m i, set2 m i 0 i) 0 (la + 1) m) as H.
  simpl in H. destruct H as [Hd' H'].
  - split; [done | lia].
  - intros k y Hk [Hdy Hy]. split; [by apply dims_set2|].
    intros i Hi Hle. destruct (decide (i = k)) as [->|Hne].
    + apply (get2_set2_eq la lb); [done | lia | lia].
    + rewrite get2_set2_ne by congruence. apply Hy; lia.
  - split; [done|]. intros i Hi. apply H'; lia.
Qed.

Lemma levFirstRow_spec m :
  dims la lb m → (∀ i, i ≤ la → get2 m i 0 = i) →
  filled 1 0 (levFirstRow lb m).
Proof.
  intros Hd Hcol. unfold levFirstRow.
  pose proof (foldl_seq_ind
    (λ k m, dims la lb m ∧ (∀ i, i ≤ la → get2 m i 0 = i) ∧
            ∀ j, j < k → j ≤ lb → get2 m 0 j = j)
    (λ m j, set2 m 0 j j) 0 (lb + 1) m) as H.
  simpl in H. destruct H as (Hd' & Hc' & Hr').
  - repeat split; [apply Hd.. | done | lia].
  - intros k y Hk (Hdy & Hcy & Hry). split; [by apply dims_set2|]. split.
    + intros i Hi. destruct (decide ((0, k) = (i, 0))) as [[= <- ->]|Hne].
      * apply (get2_set2_eq la lb); [done | lia | lia].
      * rewrite get2_set2_ne by done. by apply Hcy.
    + intros j Hj Hle. destruct (decide (j = k)) as [->|Hne].
      * apply (get2_set2_eq la lb); [done | lia | lia].
      * rewrite get2_set2_ne by congruence. apply Hry; lia.
  - split; [done|]. intros i' j' Hi' Hj' [Hlt | [-> | [_ Hlt]]].
    + assert (i' = 0) as -> by lia. rewrite prefixDistance_0_l by done.
      apply Hr'; lia.
    + rewrite prefixDistance_0_r by done. by apply Hc'.
    + lia.
Qed.

Lemma levCell_spec m i j :
  1 ≤ i ≤ la → 1 ≤ j ≤ lb →
  filled i j m → filled i (j + 1) (levCell a b m i j).
Proof.
  intros Hi Hj [Hd Hm]. unfold levCell. split; [by apply dims_set2|].
  intros i' j' Hi' Hj' Hcell.
  destruct (decide ((i, j) = (i', j'))) as [[= <- <-]|Hne].
  - rewrite (get2_set2_eq la lb) by (done || lia).
    rewrite !Hm by lia.
    destruct i as [|i]; [lia|]. destruct j as [|j]; [lia|].
    replace (S i - 1) with i by lia. replace (S j - 1) with j by lia.
    rewrite prefixDistance_S by lia. done.
  - rewrite get2_set2_ne by done. apply Hm; [done..|].
    destruct Hcell as [?|[?|[-> ?]]]; [by left | by right; left |].
    right; right. split; [done|].
    destruct (decide (j' = j)) as [->|?]; [done | lia].
Qed.

Lemma levRow_spec m i :
  1 ≤ i ≤ la → filled i 0 m → filled (i + 1) 0 (levRow a b m i).
Proof.
  intros Hi Hm. unfold levRow.
  pose proof (foldl_seq_ind (λ k m, filled i k m)
    (λ m j, levCell a b m i j) 1 lb m) as H.
  simpl in H. destruct H as [Hd H'].
  - destruct Hm as [Hd Hm]. split; [done|].
    intros i' j' ? ? Hcell. apply Hm; [done..|].
    destruct Hcell as [?|[?|[-> ?]]]; [by left | by right; left |].
    right; left; lia.
  - intros k y Hk Hy. apply levCell_spec; [done | lia | done].
  - split; [done|]. intros i' j' Hi' Hj' Hcell. apply H'; [done..|].
    destruct Hcell as [?|[?|[_ ?]]]; [|by right; left | lia].
    destruct (decide (i' = i)) as [->|?]; [|left; lia].
    right; right. split; [done | lia].
Qed.

Lemma levFill_spec m : filled 1 0 m → filled (la + 1) 0 (levFill a b m).
Proof.
  intros Hm. unfold levFill.
  replace (la + 1) with (1 + la) by lia.
  apply (foldl_seq_ind (λ k m, filled k 0 m)); [done|].
  intros k y Hk Hy. apply levRow_spec; [lia | done].
Qed.

Lemma levMatrix_spec :
  get2 (levFill a b (levFirstRow lb (levFirstColumn la
          (replicate (la + 1) (replicate (lb + 1) 0))))) la lb
  = editDistance (rev a) (rev b).
Proof.
  destruct (levFirstColumn_spec _ (dims_replicate la lb)) as [Hd Hcol].
  pose proof (levFill_spec _ (levFirstRow_spec _ Hd Hcol)) as [_ H].
  rewrite H by lia. apply prefixDistance_full.
Qed.
End Levenshtein.

(** [levenshtein] computes the edit distance of the lower-cased strings;
    the recurrence runs over their last characters first. *)
Lemma levenshtein_editDistance (a b : string) :
  levenshtein a b =
    editDistance (rev (chars (toLowerCase a))) (rev (chars (toLowerCase b))).
Proof.
  unfold levenshtein.
  destruct (isEmptyStr a) eqn:Ha.
  - apply isEmptyStr_true in Ha as ->. simpl.
    by rewrite length_rev, <- (strlen_toLowerCase b).
  - destruct (isEmptyStr b) eqn:Hb.
    + apply isEmptyStr_true in Hb as ->. simpl.
      by rewrite editDistance_nil_r, length_rev, <- (strlen_toLowerCase a).
    + cbv zeta. apply levMatrix_spec.
Qed.

(** The recurrence can equally be run over the last characters: the
    distance does not change when both strings are reversed. *)
Lemma editDistance_snoc_nil (x y : ascii) (ys : list ascii) :
  editDistance [x] (ys ++ [y]) =
    min3 (editDistance [] (ys ++ [y]) + 1)
         (editDistance [x] ys + 1)
         (editDistance [] ys + (if bool_decide (x = y) then 0 else 1)).
Proof.
  induction ys as [|y' ys IH].
  - reflexivity.
  - change ((y' :: ys) ++ [y]) with (y' :: (ys ++ [y])).
    rewrite (editDistance_cons x y' [] (ys ++ [y])), IH.
    rewrite (editDistance_cons x y' [] ys).
    cbn [editDistance]. rewrite length_app. cbn [length].
    generalize (editDistance [x] ys).
    generalize (if bool_decide (x = y) then 0 else 1).
    generalize (if bool_decide (x = y') then 0 else 1).
    unfold min3. lia.
Qed.

Lemma editDistance_snoc (n : nat) :
  ∀ (xs ys : list ascii) (x y : ascii),
    length xs + length ys ≤ n →
    editDistance (xs ++ [x]) (ys ++ [y]) =
      min3 (editDistance xs (ys ++ [y]) + 1)
           (editDistance (xs ++ [x]) ys + 1)
           (editDistance xs ys + (if bool_decide (x = y) then 0 else 1)).
Proof.
  induction n as [|n IH]; intros xs ys x y Hn.
  - destruct xs, ys; simpl in Hn; try lia. reflexivity.
  - destruct xs as [|x' xs].
    + apply editDistance_snoc_nil.
    + destruct ys as [|y' ys].
      * cbn [app].
        rewrite (editDistance_sym (x' :: xs ++ [x]) [y]).
        change (x' :: xs ++ [x]) with ((x' :: xs) ++ [x]).
        rewrite editDistance_snoc_nil.
        rewrite (editDistance_sym [y] (x' :: xs)).
        rewrite (editDistance_nil_r ((x' :: xs) ++ [x])).
        rewrite (editDistance_nil_r (x' :: xs)).
        cbn [editDistance]. rewrite length_app. cbn [length].
        unfold min3. repeat case_bool_decide; subst; try done; lia.
      * simpl in Hn.
        change ((x' :: xs) ++ [x]) with (x' :: (xs ++ [x])).
        change ((y' :: ys) ++ [y]) with (y' :: (ys ++ [y])).
        rewrite (editDistance_cons x' y' (xs ++ [x]) (ys ++ [y])).
        rewrite (editDistance_cons x' y' xs (ys ++ [y])).
        rewrite (editDistance_cons x' y' (xs ++ [x]) ys).
        rewrite (editDistance_cons x' y' xs ys).
        change (y' :: (ys ++ [y])) with ((y' :: ys) ++ [y]).
        change (x' :: (xs ++ [x])) with ((x' :: xs) ++ [x]).
        rewrite (IH xs (y' :: ys) x y) by (simpl; lia).
        rewrite (IH (x' :: xs) ys x y) by (simpl; lia).
        rewrite (IH xs ys x y) by lia.
        generalize (editDistance xs ((y' :: ys) ++ [y])).
        generalize (editDistance (xs ++ [x]) (y' :: ys)).
        generalize (editDistance xs (y' :: ys)).
        generalize (editDistance (x' :: xs) (ys ++ [y])).
        generalize (editDistance ((x' :: xs) ++ [x]) ys).
        generalize (editDistance (x' :: xs) ys).
        generalize (editDistance xs (ys ++ [y])).
        generalize (editDistance (xs ++ [x]) ys).
        generalize (editDistance xs ys).
        generalize (if bool_decide (x = y) then 0 else 1).
        generalize (if bool_decide (x' = y') then 0 else 1).
        intros. unfold min3. rewrite <- !Nat.add_min_distr_r.
        apply Nat.le_antisymm; repeat apply Nat.min_glb; lia.
Qed.

Lemma editDistance_rev (xs ys : list ascii) :
  editDistance (rev xs) (rev ys) = editDistance xs ys.
Proof.
  revert ys. induction xs as [|x xs IHx]; intros ys.
  - simpl. apply length_rev.
  - induction ys as [|y ys IHy].
    + rewrite !editDistance_nil_r. apply length_rev.
    + rewrite editDistance_cons, <- IHy, <- (IHx (y :: ys)), <- (IHx ys).
      cbn [rev].
      apply (editDistance_snoc (length (rev xs) + length (rev ys))). done.
Qed.

Lemma levenshtein_correct (a b : string) :
  levenshtein a b = editDistance (chars (toLowerCase a)) (chars (toLowerCase b)).
Proof. rewrite levenshtein_editDistance. apply editDistance_rev. Qed.

(** ** Trimming *)

Lemma dropSpaces_nil (l : list ascii) :
  dropSpaces l = [] ↔ Forall (λ c, isSpace c = true) l.
Proof.
  induction l as [|c l IH]; simpl.
  - split; [by constructor | done].
  - destruct (isSpace c) eqn:Hc.
    + rewrite IH. split; [by constructor | by inversion 1].
    + split; [done | inversion 1; congruence].
Qed.

Lemma trimChars_nil (l : list ascii) :
  trimChars l = [] ↔ Forall (λ c, isSpace c = true) l.
Proof.
  unfold trimChars. rewrite <- dropSpaces_nil. split.
  - intros H. apply (f_equal (@rev ascii)) in H. rewrite rev_involutive in H.
    simpl in H. apply dropSpaces_nil in H.
    destruct (dropSpaces l) as [|c l'] eqn:Hl; [done|].
    assert (isSpace c = false) as Hc.
    { clear H. induction l as [|d l IH]; simpl in Hl; [done|].
      destruct (isSpace d) eqn:Hd; [by apply IH|]. by injection Hl as -> _. }
    simpl in H. apply Forall_app in H as [_ H]. inversion H. congruence.
  - by intros ->.
Qed.

Lemma trim_blank (s : string) : trim s = "" ↔ isBlank s.
Proof.
  unfold isBlank, trim. rewrite <- trimChars_nil. split.
  - intros H. apply (f_equal chars) in H. by rewrite chars_ofChars in H.
  - by intros ->.
Qed.

Lemma toLowerCase_empty (s : string) : toLowerCase s = "" ↔ s = "".
Proof. by rewrite <- !isEmptyStr_true, isEmptyStr_toLowerCase. Qed.

Lemma scoreMatch_blank_l (query target : string) :
  isBlank query → scoreMatch query target = Infinity.
Proof.
  intros H%trim_blank. unfold scoreMatch. by rewrite H.
Qed.

Lemma scoreMatch_blank_r (query target : string) :
  isBlank target → scoreMatch query target = Infinity.
Proof.
  intros H%trim_blank. unfold scoreMatch. rewrite H. simpl.
  by rewrite orb_true_r.
Qed.

(** ** Claims about the fuzzy helpers *)

(** C8: [levenshtein] is symmetric, is 0 on equal arguments, and returns
    the other string's length when either argument is the empty string. *)
Theorem levenshtein_symmetric (a b : string) :
  levenshtein a b = levenshtein b a
  ∧ levenshtein a a = 0
  ∧ levenshtein "" b = strlen b
  ∧ levenshtein a "" = strlen a.
Proof.
  repeat split.
  - rewrite !levenshtein_correct. apply editDistance_sym.
  - rewrite levenshtein_correct. apply editDistance_diag.
  - by destruct a.
Qed.

(** C2, as amended: with [q] and [t] the trimmed and lower-cased query and
    candidate, [scoreMatch] is [Infinity] when [q] or [t] is empty; it is 0
    when both are non-empty and [t] contains [q] as a substring; and
    otherwise it is the Levenshtein distance between [q] and [t] divided by
    the length of [t], which is at least 1. *)
Theorem scoreMatch_trimmed (query target : string) :
  let q := toLowerCase (trim query) in
  let t := toLowerCase (trim target) in
  (q = "" ∨ t = "" → scoreMatch query target = Infinity)
  ∧ (q ≠ "" → t ≠ "" → (∃ pre post, t = pre +:+ q +:+ post) →
       scoreMatch query target = Num 0)
  ∧ (q ≠ "" → t ≠ "" → ¬ (∃ pre post, t = pre +:+ q +:+ post) →
       scoreMatch query target =
         jsDivNat (editDistance (chars q) (chars t)) (strlen t `max` 1)
       ∧ strlen t `max` 1 = strlen t).
Proof.
  intros q t. unfold scoreMatch. fold q t. split; [|split].
  - intros [-> | ->]; [done | by rewrite orb_true_r].
  - intros Hq%isEmptyStr_false Ht%isEmptyStr_false Hin%includes_spec.
    by rewrite Hq, Ht, Hin.
  - intros Hq Ht Hnot. split.
    + apply isEmptyStr_false in Hq, Ht. rewrite Hq, Ht. simpl.
      destruct (includes t q) eqn:Hin; [by apply includes_spec in Hin|].
      rewrite levenshtein_correct. unfold q, t.
      by rewrite !toLowerCase_idemp.
    + destruct t; [done|]. unfold strlen. simpl. lia.
Qed.

Lemma scoreMatch_trimmed_witness :
  scoreMatch " Chiken" "chicken " = jsDivNat 1 7.
Proof.
  destruct (scoreMatch_trimmed " Chiken" "chicken ") as (_ & _ & H).
  destruct H as [H _]; [done | done | | exact H].
  intros Hin%includes_spec. by vm_compute in Hin.
Defined.

(** C2 fails as stated, where the strings are taken as given: a candidate
    that contains a white-space query scores [Infinity], not 0, and a
    candidate that does not contain the untrimmed query scores 0. *)
Lemma scoreMatch_untrimmed_counterexample :
  ¬ (∀ q t : string,
       (q = "" ∨ t = "" → scoreMatch q t = Infinity)
       ∧ (q ≠ "" → t ≠ "" →
            (∃ pre post, toLowerCase t = pre +:+ toLowerCase q +:+ post) →
            scoreMatch q t = Num 0)
       ∧ (q ≠ "" → t ≠ "" →
            ¬ (∃ pre post, toLowerCase t = pre +:+ toLowerCase q +:+ post) →
            scoreMatch q t =
              jsDivNat (editDistance (chars (toLowerCase q)) (chars (toLowerCase t)))
                       (strlen t `max` 1))).
Proof.
  intros H. destruct (H " " "a b") as (_ & H2 & _).
  assert (scoreMatch " " "a b" = Num 0) as Hs; [|discriminate Hs].
  apply H2; [done | done |]. by exists "a", "b".
Qed.

(** ** Sorting by score *)


Lemma jsLe_trans (x y z : jsnum) :
  jsLe x y = true → jsLe y z = true → jsLe x z = true.
Proof.
  destruct x as [| | |a], y as [| | |b], z as [| | |c]; simpl; try done.
  destruct (Qcompare_spec a b), (Qcompare_spec b c), (Qcompare_spec a c);
    try done; lra.
Qed.

Lemma jsLe_total (x y : jsnum) :
  isScore x → isScore y → jsLe x y = true ∨ jsLe y x = true.
Proof.
  destruct x as [| | |a], y as [| | |b]; simpl; try done; auto.
  intros _ _.
  destruct (Qcompare_spec a b), (Qcompare_spec b a); auto; lra.
Qed.

Lemma jsEq_le (x y : jsnum) :
  jsEq x y = true → jsLe x y = true ∧ jsLe y x = true.
Proof.
  destruct x as [| | |a], y as [| | |b]; simpl; try done.
  destruct (Qcompare_spec a b), (Qcompare_spec b a); try done; lra.
Qed.

Lemma jsLe_antisym (x y : jsnum) :
  isScore x → jsLe x y = true → jsLe y x = true → jsEq x y = true.
Proof.
  destruct x as [| | |a], y as [| | |b]; simpl; try done.
  intros _. destruct (Qcompare_spec a b), (Qcompare_spec b a); try done; lra.
Qed.

Lemma jsLt_sub (x y : jsnum) :
  isScore x → isScore y →
  jsLt (jsSub y x) (Num 0) = negb (jsLe x y).
Proof.
  destruct x as [| | |a], y as [| | |b]; simpl; try done.
  intros _ _.
  destruct (Qcompare_spec (b - a) 0), (Qcompare_spec a b); try done; lra.
Qed.

Section SortBy.
Context {A : Type} (cmp : A → A → jsnum).

Lemma sortInsert_perm (x : A) (l : list A) : sortInsert cmp x l ≡ₚ x :: l.
Proof.
  induction l as [|y l IH]; simpl; [done|].
  destruct (before cmp y x); [|done].
  rewrite IH. apply Permutation_swap.
Qed.

Lemma sortBy_perm (l : list A) : sortBy cmp l ≡ₚ l.
Proof.
  induction l as [|x l IH]; simpl; [done|].
  by rewrite sortInsert_perm, IH.
Qed.

(** Elements that the comparator never puts before one another keep
    their order. *)
Lemma sortInsert_filter (P : A → Prop) `{∀ x, Decision (P x)} x l :
  (∀ y, y ∈ l → P x → P y → before cmp y x = false) →
  filter P (sortInsert cmp x l) = filter P (x :: l).
Proof.
  induction l as [|y l IH]; intros Hxy; simpl; [done|].
  destruct (before cmp y x) eqn:Hb; [|done].
  rewrite (filter_cons P y), IH by (intros; apply Hxy; [by right|done..]).
  rewrite !(filter_cons P x), (filter_cons P y).
  destruct (decide (P x)) as [Hx|]; [|done].
  destruct (decide (P y)) as [Hy|]; [|done].
  rewrite Hxy in Hb; [done | by left | done..].
Qed.

Lemma sortBy_filter (P : A → Prop) `{∀ x, Decision (P x)} l :
  (∀ x y, P x → P y → before cmp y x = false) →
  filter P (sortBy cmp l) = filter P l.
Proof.
  intros HP. induction l as [|x l IH]; simpl; [done|].
  rewrite sortInsert_filter by (intros; by apply HP).
  by rewrite !filter_cons, IH.
Qed.
End SortBy.

Lemma sortBy_fmap {A B} (g : A → B) (cmp : A → A → jsnum) (cmp' : B → B → jsnum)
    (l : list A) :
  (∀ a b, cmp' (g a) (g b) = cmp a b) →
  sortBy cmp' (g <$> l) = g <$> sortBy cmp l.
Proof.
  intros Hg. induction l as [|x l IH]; [done|].
  rewrite fmap_cons. cbn [sortBy]. rewrite IH.
  generalize (sortBy cmp l). intros k.
  induction k as [|y k IHk]; [done|].
  rewrite fmap_cons. cbn [sortInsert]. unfold before. rewrite Hg.
  destruct (jsLt (cmp y x) (Num 0)); [|done].
  by rewrite fmap_cons, <- IHk.
Qed.

Section SortByKey.
Context {A : Type} (key : A → jsnum).
Hypothesis key_score : ∀ a, isScore (key a).

Local Abbreviation le := (λ a b, jsLe (key a) (key b) = true).

Lemma before_byKey (y x : A) :
  before (byKey key) y x = negb (jsLe (key x) (key y)).
Proof. unfold before, byKey. by apply jsLt_sub. Qed.

Lemma sortInsert_sorted (x : A) (l : list A) :
  StronglySorted le l → StronglySorted le (sortInsert (byKey key) x l).
Proof.
  induction 1 as [|y l Hs IH Hy]; simpl.
  - repeat constructor.
  - rewrite before_byKey.
    destruct (jsLe (key x) (key y)) eqn:Hxy; simpl.
    + constructor; [by constructor|]. constructor; [done|].
      eapply Forall_impl; [done|]. intros z Hz. by eapply jsLe_trans.
    + constructor; [done|].
      rewrite (sortInsert_perm (byKey key) x l). constructor; [|done].
      destruct (jsLe_total (key x) (key y)); [done..| congruence | done].
Qed.

Lemma sortBy_sorted (l : list A) : StronglySorted le (sortBy (byKey key) l).
Proof.
  induction l as [|x l IH]; simpl; [constructor|].
  by apply sortInsert_sorted.
Qed.

(** Stability: the elements of one score keep the order they had. *)
Lemma sortBy_stable (v : jsnum) (l : list A) :
  filter (λ a, jsEq (key a) v = true) (sortBy (byKey key) l)
  = filter (λ a, jsEq (key a) v = true) l.
Proof.
  apply (sortBy_filter (byKey key) (λ a, jsEq (key a) v = true)).
  intros x y [Hx _]%jsEq_le [_ Hy]%jsEq_le. rewrite before_byKey.
  apply negb_false_iff. by eapply jsLe_trans.
Qed.
End SortByKey.

(** ** Claims about suggestions *)

Lemma filter_none {A} (P : A → Prop) `{∀ x, Decision (P x)} (l : list A) :
  (∀ x, x ∈ l → ¬ P x) → filter P l = [].
Proof.
  induction l as [|x l IH]; intros Hl; [done|].
  rewrite filter_cons_False by (apply Hl; by left).
  apply IH. intros y Hy. apply Hl. by right.
Qed.

Lemma scoreMatch_isScore (query target : string) :
  isScore (scoreMatch query target).
Proof.
  unfold scoreMatch.
  destruct (isEmptyStr _ || isEmptyStr _); [done|].
  by destruct (includes _ _).
Qed.

Lemma filter_scored (f : string → jsnum) (src : list string) :
  filter (λ x : string * jsnum, isFinite x.2 = true) ((λ s, (s, f s)) <$> src)
  = (λ s, (s, f s)) <$> filter (λ s, isFinite (f s) = true) src.
Proof.
  induction src as [|s src IH]; [done|].
  rewrite fmap_cons, !filter_cons, IH. simpl.
  by destruct (decide (isFinite (f s) = true)).
Qed.

(** The pipeline of [getSuggestions], read on the candidate strings. *)
Lemma suggest_unfold (query : string) (src : list string) :
  suggest query src =
    take 6 (sortBy (byKey (scoreMatch query))
              (filter (λ s, isFinite (scoreMatch query s) = true) src)).
Proof.
  unfold suggest. rewrite filter_scored.
  rewrite (sortBy_fmap _ (byKey (scoreMatch query)) byScore) by done.
  rewrite <- fmap_take, <- list_fmap_compose.
  rewrite <- (list_fmap_id (take 6 _)) at 2. by apply list_fmap_ext.
Qed.

(** C9: [suggest] returns at most 6 strings, all from the pool and all of
    finite score, in non-decreasing order of score, strings of one score
    in the order of the pool; they are the lowest-scoring candidates. *)
Theorem suggest_top6 (query : string) (pool : list string) :
  let score := scoreMatch query in
  let r := suggest query pool in
  length r ≤ 6
  ∧ (∀ s, s ∈ r → s ∈ pool ∧ isFinite (score s) = true)
  ∧ StronglySorted (λ x y, jsLe (score x) (score y) = true) r
  ∧ (∀ v, filter (λ s, jsEq (score s) v = true) r
          `prefix_of` filter (λ s, jsEq (score s) v = true) pool)
  ∧ ∃ rest,
      r ++ rest ≡ₚ filter (λ s, isFinite (score s) = true) pool
      ∧ (∀ x y, x ∈ r → y ∈ rest → jsLe (score x) (score y) = true)
      ∧ (length r < 6 → rest = []).
Proof.
  intros score r. unfold r. rewrite suggest_unfold. fold score.
  set (cands := filter (λ s, isFinite (score s) = true) pool).
  set (sorted := sortBy (byKey score) cands).
  assert (sorted ≡ₚ cands) as Hperm by apply sortBy_perm.
  assert (StronglySorted (λ x y, jsLe (score x) (score y) = true) sorted)
    as Hsorted by apply (sortBy_sorted score), scoreMatch_isScore.
  rewrite <- (take_drop 6 sorted) in Hsorted, Hperm.
  assert (∀ s, s ∈ take 6 sorted → s ∈ pool ∧ isFinite (score s) = true)
    as Hin.
  { intros s Hs. assert (s ∈ cands) as Hc.
    { rewrite <- Hperm. apply elem_of_app. by left. }
    apply list_elem_of_filter in Hc. by destruct Hc. }
  split; [rewrite length_take; lia|]. split; [|split; [|split]].
  - done.
  - by eapply StronglySorted_app_1_l.
  - intros v. destruct (isFinite v) eqn:Hv.
    + assert (filter (λ s, jsEq (score s) v = true) pool
              = filter (λ s, jsEq (score s) v = true) sorted) as ->.
      { unfold sorted.
        rewrite (sortBy_stable score (scoreMatch_isScore query)).
        unfold cands. rewrite list_filter_filter. apply list_filter_iff.
        intros s. split; [|naive_solver]. intros Hs. split; [done|].
        by destruct (score s), v. }
      rewrite <- (take_drop 6 sorted) at 2. rewrite filter_app. by eexists.
    + rewrite filter_none; [apply prefix_nil|].
      intros s [_ Hs]%Hin Hsv. by destruct (score s), v.
  - exists (drop 6 sorted). split; [done|]. split.
    + intros x y Hx Hy.
      exact (StronglySorted_app_1_elem_of
               (λ x y, jsLe (score x) (score y) = true) _ _ x y Hsorted Hx Hy).
    + rewrite length_take. intros Hlen. apply drop_ge. lia.
Qed.

Lemma suggest_top6_witness :
  let pool := ["Pizza Express"; "pasta"; "pizza"; ""; "Pie"; "spinach pie";
               "apple pie"; "pilaf"] in
  length (suggest "pi" pool) ≤ 6
  ∧ ∀ s, s ∈ suggest "pi" pool → s ∈ pool.
Proof.
  intros pool.
  destruct (suggest_top6 "pi" pool) as (Hlen & Hin & _).
  split; [exact Hlen|]. intros s Hs. by apply Hin.
Defined.

(** [getSuggestions] is [suggest] on the source list, unless the query is
    blank. *)
Lemma getSuggestions_suggest (s : AppState) (w : world) (query : string) :
  ¬ isBlank query →
  getSuggestions s w query = suggest query (buildSourceList s w).
Proof.
  intros Hq. unfold getSuggestions.
  destruct (isEmptyStr query) eqn:He.
  - apply isEmptyStr_true in He as ->. destruct Hq. constructor.
  - simpl. destruct (strlen (trim query)) eqn:Hlen; [|done].
    destruct Hq. apply trim_blank. apply chars_inj.
    by apply length_zero_iff_nil.
Qed.

Lemma suggest_blank (query : string) (pool : list string) :
  isBlank query → suggest query pool = [].
Proof.
  intros Hq. rewrite suggest_unfold.
  assert (filter (λ s, isFinite (scoreMatch query s) = true) pool = []) as ->;
    [|done].
  induction pool as [|s pool IH]; [done|].
  rewrite filter_cons, IH. by rewrite scoreMatch_blank_l.
Qed.

(** C10: a query that is empty or all white space gets no suggestions:
    it trims to the empty string, [getSuggestions] returns the empty list,
    and [scoreMatch] is [Infinity] for such a query or candidate. *)
Theorem getSuggestions_blank (s : AppState) (w : world) (query : string) :
  isBlank query →
  trim query = ""
  ∧ getSuggestions s w query = []
  ∧ (∀ pool, suggest query pool = [])
  ∧ (∀ other, scoreMatch query other = Infinity)
  ∧ (∀ other, scoreMatch other query = Infinity).
Proof.
  intros Hq. pose proof (proj2 (trim_blank query) Hq) as Ht.
  split; [done|]. split; [|split; [|split]].
  - unfold getSuggestions. rewrite Ht. by rewrite orb_true_r.
  - intros pool. by apply suggest_blank.
  - intros other. by apply scoreMatch_blank_l.
  - intros other. by apply scoreMatch_blank_r.
Qed.

Lemma getSuggestions_blank_witness :
  getSuggestions initialApp initialWorld "  " = [].
Proof.
  apply (getSuggestions_blank initialApp initialWorld "  ").
  unfold isBlank. simpl. repeat constructor.
Defined.

(** ** Maps *)

Section JsMapFacts.
Context {V : Type}.
Implicit Types (m : list (string * V)) (k : string) (v : V).

Lemma mapGet_None m k : mapGet k m = None ↔ k ∉ m.*1.
Proof.
  induction m as [|[k' v'] m IH]; simpl.
  - split; [intros _; apply not_elem_of_nil | done].
  - rewrite not_elem_of_cons. case_bool_decide; naive_solver.
Qed.

Lemma mapHas_get m k : mapHas k m = true ↔ is_Some (mapGet k m).
Proof.
  unfold mapHas. rewrite bool_decide_eq_true, <- not_eq_None_Some, mapGet_None.
  split; [by intros ? ? | apply dec_stable].
Qed.

Lemma mapHas_false m k : mapHas k m = false ↔ mapGet k m = None.
Proof. unfold mapHas. by rewrite bool_decide_eq_false, mapGet_None. Qed.

Lemma mapGet_set m k k' v :
  mapGet k' (mapSet k v m) = if bool_decide (k' = k) then Some v else mapGet k' m.
Proof.
  induction m as [|[k0 v0] m IH]; simpl.
  - by case_bool_decide.
  - repeat (case_bool_decide; simpl; subst); try done; congruence.
Qed.

Lemma mapSet_fresh m k v : k ∉ m.*1 → mapSet k v m = m ++ [(k, v)].
Proof.
  induction m as [|[k0 v0] m IH]; simpl; [done|].
  rewrite not_elem_of_cons. intros [Hne Hk].
  rewrite bool_decide_eq_false_2 by done. by rewrite IH.
Qed.

Lemma mapSet_keys m k v :
  (mapSet k v m).*1 = if bool_decide (k ∈ m.*1) then m.*1 else m.*1 ++ [k].
Proof.
  induction m as [|[k0 v0] m IH]; [done|].
  cbn [mapSet]. destruct (decide (k = k0)) as [->|Hne].
  - rewrite bool_decide_eq_true_2 by done. rewrite !fmap_cons.
    rewrite bool_decide_eq_true_2; [done | by left].
  - rewrite bool_decide_eq_false_2 by done. rewrite !fmap_cons, IH.
    cbn [fst]. destruct (decide (k ∈ m.*1)) as [Hk|Hk].
    + rewrite !bool_decide_eq_true_2; [done | by right | done].
    + rewrite !bool_decide_eq_false_2; [done | | done].
      by apply not_elem_of_cons.
Qed.

Lemma mapSet_elem_of m k v k' v' :
  (k', v') ∈ mapSet k v m → (k', v') = (k, v) ∨ (k', v') ∈ m.
Proof.
  induction m as [|[k0 v0] m IH]; simpl.
  - rewrite list_elem_of_singleton. auto.
  - case_bool_decide; subst; rewrite !elem_of_cons; naive_solver.
Qed.

Lemma mapSet_NoDup m k v : NoDup m.*1 → NoDup (mapSet k v m).*1.
Proof.
  intros Hm. rewrite mapSet_keys. case_bool_decide as Hk; [done|].
  apply NoDup_app. split; [done|]. split; [|apply NoDup_singleton].
  intros x Hx ->%list_elem_of_singleton. done.
Qed.
End JsMapFacts.

(** ** Intersection and deduplication *)

Lemma intersectStep_filter (acc curr : list meal) :
  intersectStep acc curr = filter (λ m, idMeal m ∈ idMeal <$> curr) acc.
Proof.
  unfold intersectStep. apply list_filter_iff. intros m.
  apply elem_of_list_to_set.
Qed.

(** The intersection keeps the meals of the first list whose id occurs in
    every further list. *)
Lemma intersectById_cons (first : list meal) (rest : list (list meal)) :
  intersectById (first :: rest) =
    filter (λ m, Forall (λ l, idMeal m ∈ idMeal <$> l) rest) first.
Proof.
  simpl. revert first. induction rest as [|curr rest IH]; intros first; simpl.
  - induction first as [|m first IHf]; [done|].
    rewrite filter_cons_True by constructor. by rewrite <- IHf.
  - rewrite IH, intersectStep_filter, list_filter_filter.
    apply list_filter_iff. intros m. rewrite Forall_cons. naive_solver.
Qed.

Lemma dedupeStep_inv (merged : list meal) (acc : list (string * meal)) :
  NoDup acc.*1 → Forall (λ kv, idMeal kv.2 = kv.1) acc →
  let map := foldl dedupeStep acc merged in
  NoDup map.*1
  ∧ Forall (λ kv, idMeal kv.2 = kv.1) map
  ∧ (∀ k, k ∈ map.*1 ↔ k ∈ acc.*1 ∨ k ∈ idMeal <$> merged)
  ∧ (∀ v, v ∈ map.*2 → v ∈ acc.*2 ∨ v ∈ merged).
Proof.
  revert acc. induction merged as [|m merged IH]; intros acc Hnd Hid; simpl.
  - repeat split; try done; [set_solver | set_solver | auto].
  - destruct (IH (dedupeStep acc m)) as (H1 & H2 & H3 & H4).
    + by apply mapSet_NoDup.
    + apply Forall_forall. intros [k v] [[= -> ->] | Hin]%mapSet_elem_of; [done|].
      by apply (proj1 (Forall_forall _ _) Hid (k, v)).
    + split; [done|]. split; [done|]. split.
      * intros k. rewrite H3. unfold dedupeStep. rewrite mapSet_keys.
        case_bool_decide; set_solver.
      * intros v [Hv | Hv]%H4; [|set_solver].
        apply list_elem_of_fmap in Hv as [[k v'] [-> Hkv]].
        apply mapSet_elem_of in Hkv as [[= -> ->] | Hkv]; [set_solver|].
        left. apply list_elem_of_fmap. by exists (k, v').
Qed.

Lemma fmap_id_of_values (map : list (string * meal)) :
  Forall (λ kv, idMeal kv.2 = kv.1) map → idMeal <$> map.*2 = map.*1.
Proof.
  induction 1 as [|[k v] map Hkv _ IH]; [done|].
  rewrite !fmap_cons, IH. simpl in *. by rewrite Hkv.
Qed.

(** What deduplication by id achieves: every id once, the same ids as
    before, and only meals that were there. *)
Lemma dedupeById_spec (merged : list meal) :
  NoDup (idMeal <$> dedupeById merged)
  ∧ (∀ i, i ∈ idMeal <$> dedupeById merged ↔ i ∈ idMeal <$> merged)
  ∧ (∀ m, m ∈ dedupeById merged → m ∈ merged).
Proof.
  destruct (dedupeStep_inv merged []) as (H1 & H2 & H3 & H4);
    [constructor | constructor |].
  unfold dedupeById, mapValues.
  rewrite (fmap_id_of_values _ H2).
  split; [done|]. split.
  - intros i. rewrite H3. set_solver.
  - intros m [Hm | Hm]%H4; [set_solver | done].
Qed.

Lemma dedupeById_nil (merged : list meal) : dedupeById merged = [] ↔ merged = [].
Proof.
  split; [|by intros ->].
  intros H. destruct merged as [|m merged]; [done|].
  destruct (dedupeById_spec (m :: merged)) as (_ & Hids & _).
  specialize (Hids (idMeal m)). rewrite H in Hids.
  exfalso. eapply not_elem_of_nil. apply Hids. set_solver.
Qed.

(** A list whose ids are distinct is left as it is. *)
Lemma dedupeById_NoDup (merged : list meal) :
  NoDup (idMeal <$> merged) → dedupeById merged = merged.
Proof.
  intros Hnd. unfold dedupeById, mapValues.
  assert (∀ acc : list (string * meal),
    NoDup (acc.*1 ++ (idMeal <$> merged)) →
    foldl dedupeStep acc merged = acc ++ ((λ m, (idMeal m, m)) <$> merged)) as H.
  { clear Hnd. induction merged as [|m merged IH]; intros acc Hacc; simpl.
    - by rewrite app_nil_r.
    - simpl in Hacc. apply NoDup_app in Hacc as (Ha & Hdisj & Hm).
      unfold dedupeStep at 2. rewrite mapSet_fresh by set_solver.
      rewrite IH; [by rewrite <- app_assoc|].
      rewrite fmap_app. simpl. rewrite <- app_assoc. simpl.
      apply NoDup_app. split; [done|]. split; [done | done]. }
  rewrite H by done. simpl.
  rewrite <- list_fmap_compose. rewrite <- (list_fmap_id merged) at 2.
  by apply list_fmap_ext.
Qed.

Lemma mergeTrending_NoDup (packs : list (option (list meal))) :
  NoDup (idMeal <$> mergeTrending packs).
Proof. apply dedupeById_spec. Qed.

(** C1, as amended: [intersectById] returns the empty list for no lists
    and the list itself for one list; for two lists it returns the meals
    of the first whose id also occurs in the second, with their records
    and in their order. Every id of the first list that the second also
    has is kept as often as the first list has it: once when the ids of
    the first list are distinct. *)
Theorem intersectById_two (L L1 L2 : list meal) :
  intersectById [] = []
  ∧ intersectById [L] = L
  ∧ let r := intersectById [L1; L2] in
    r = filter (λ m, idMeal m ∈ idMeal <$> L2) L1
    ∧ (∀ i, i ∈ idMeal <$> r ↔ i ∈ idMeal <$> L1 ∧ i ∈ idMeal <$> L2)
    ∧ r `sublist_of` L1
    ∧ (∀ i, i ∈ idMeal <$> L2 →
         filter (λ m, idMeal m = i) r = filter (λ m, idMeal m = i) L1)
    ∧ (NoDup (idMeal <$> L1) → NoDup (idMeal <$> r)).
Proof.
  split; [done|]. split; [done|]. intros r.
  assert (r = filter (λ m, idMeal m ∈ idMeal <$> L2) L1) as Hr.
  { unfold r. simpl. apply intersectStep_filter. }
  split; [done|]. rewrite Hr. split; [|split; [|split]].
  - intros i. rewrite !list_elem_of_fmap. split.
    + intros (m & -> & [Hm2 Hm1]%list_elem_of_filter). split; [eauto|].
      by apply list_elem_of_fmap in Hm2.
    + intros [(m & -> & Hm) Hi]. exists m. split; [done|].
      apply list_elem_of_filter. split; [|done].
      by apply list_elem_of_fmap.
  - apply sublist_filter.
  - intros i Hi. rewrite list_filter_filter. apply list_filter_iff.
    intros m. split; [naive_solver|]. intros <-. done.
  - intros Hnd. eapply sublist_NoDup; [exact Hnd|].
    apply fmap_sublist, sublist_filter.
Qed.

Lemma intersectById_two_witness :
  let L1 := [Meal "1" "Curry" ""; Meal "2" "Pie" ""; Meal "3" "Stew" ""] in
  let L2 := [Meal "4" "Soup" ""; Meal "3" "Stew" ""; Meal "2" "Pie" ""] in
  NoDup (idMeal <$> intersectById [L1; L2]).
Proof.
  intros L1 L2.
  apply (intersectById_two [] L1 L2).
  unfold L1. simpl. repeat constructor; set_solver.
Defined.

(** C1 fails as stated: an id that the first list has twice is in the
    result twice. *)
Lemma intersectById_duplicates_counterexample :
  ¬ (∀ L1 L2 : list meal,
       let r := intersectById [L1; L2] in
       (∀ i, i ∈ idMeal <$> r ↔ i ∈ idMeal <$> L1 ∧ i ∈ idMeal <$> L2)
       ∧ NoDup (idMeal <$> r)).
Proof.
  intros H.
  destruct (H [Meal "1" "Curry" ""; Meal "1" "Curry" ""] [Meal "1" "Curry" ""])
    as [_ Hnd].
  rewrite intersectById_cons in Hnd. vm_compute in Hnd.
  apply NoDup_cons in Hnd as [Hnd _]. apply Hnd. by left.
Qed.

(** ** The cached fetch *)

Lemma storeOf_storeSet (k k' : kind) (key : string) (meals : list meal) (c : cacheT) :
  storeOf k' (storeSet k key meals c) =
    if bool_decide (k' = k) then mapSet key meals (storeOf k c) else storeOf k' c.
Proof. by destruct k, k'. Qed.

Lemma storeSet_keys (k k' : kind) (key key' : string) (meals : list meal) (c : cacheT) :
  key' ∈ mapKeys (storeOf k' (storeSet k key meals c)) →
  key' ∈ mapKeys (storeOf k' c) ∨ (k' = k ∧ key' = key).
Proof.
  rewrite storeOf_storeSet. case_bool_decide as Hk; [|auto]. subst k'.
  unfold mapKeys. rewrite mapSet_keys. case_bool_decide; [auto|].
  rewrite elem_of_app, list_elem_of_singleton. naive_solver.
Qed.

Lemma fetchListCached_hit (net : network) (k : kind) (key : string) (u : url)
    (w : world) (meals : list meal) :
  mapGet key (storeOf k (cache w)) = Some meals →
  fetchListCached net k key u w = (Ok meals, w).
Proof.
  intros Hget. unfold fetchListCached, fetchListCached_call.
  rewrite (proj2 (mapHas_get _ _)) by (by rewrite Hget). by rewrite Hget.
Qed.

Lemma fetchListCached_miss (net : network) (k : kind) (key : string) (u : url)
    (w : world) :
  mapGet key (storeOf k (cache w)) = None →
  fetchListCached net k key u w =
    match net (length (requests w)) u with
    | NetworkError => (Throw, World (cache w) (requests w ++ [u]))
    | Json data =>
        (Ok (default [] data),
         World (storeSet k key (default [] data) (cache w)) (requests w ++ [u]))
    end.
Proof.
  intros Hget. unfold fetchListCached, fetchListCached_call.
  rewrite (proj2 (mapHas_false _ _)) by done. simpl. unfold receive.
  by destruct (net _ _).
Qed.

(** C6: on a hit [fetchListCached] returns the stored list and leaves the
    world, and so the request log, as it is. On a miss it issues one
    request; a response is stored under the key and returned, so that the
    next call is a hit and the two calls together have made one request;
    a failure throws and leaves the cache as it was, so that the next call
    issues the request again. *)
Theorem fetchListCached_caches (net : network) (k : kind) (key : string)
    (u : url) (w : world) :
  let store := storeOf k (cache w) in
  let n := length (requests w) in
  (∀ meals, mapGet key store = Some meals →
     fetchListCached net k key u w = (Ok meals, w))
  ∧ (∀ data, mapGet key store = None → net n u = Json data →
       let meals := default [] data in
       let w1 := World (storeSet k key meals (cache w)) (requests w ++ [u]) in
       fetchListCached net k key u w = (Ok meals, w1)
       ∧ mapGet key (storeOf k (cache w1)) = Some meals
       ∧ fetchListCached net k key u w1 = (Ok meals, w1))
  ∧ (mapGet key store = None → net n u = NetworkError →
       let w1 := World (cache w) (requests w ++ [u]) in
       fetchListCached net k key u w = (Throw, w1)
       ∧ mapGet key (storeOf k (cache w1)) = None
       ∧ requests (fetchListCached net k key u w1).2 = requests w ++ [u; u]).
Proof.
  intros store n. split; [|split].
  - intros meals. apply fetchListCached_hit.
  - intros data Hmiss Hnet meals w1.
    assert (mapGet key (storeOf k (cache w1)) = Some meals) as Hget.
    { unfold w1. simpl. rewrite storeOf_storeSet, bool_decide_eq_true_2 by done.
      by rewrite mapGet_set, bool_decide_eq_true_2. }
    split; [|split; [done | by apply fetchListCached_hit]].
    rewrite fetchListCached_miss by done. fold n. by rewrite Hnet.
  - intros Hmiss Hnet w1. split; [|split; [done|]].
    + rewrite fetchListCached_miss by done. fold n. by rewrite Hnet.
    + rewrite fetchListCached_miss by done. simpl.
      destruct (net (length (requests w ++ [u])) u); simpl;
        by rewrite <- (assoc_L (++)).
Qed.

Lemma fetchListCached_caches_witness :
  let net : network := λ n _, if n =? 0 then NetworkError else Json (Some [Meal "1" "Curry" ""]) in
  fetchListCached net KIngredient "chicken" (filterByIngredient "chicken") initialWorld
    = (Throw, World emptyCache [filterByIngredient "chicken"])
  ∧ fetchListCached net KIngredient "chicken" (filterByIngredient "chicken")
      (World emptyCache [filterByIngredient "chicken"])
    = (Ok [Meal "1" "Curry" ""],
       World (Cache [("chicken", [Meal "1" "Curry" ""])] [] [])
             [filterByIngredient "chicken"; filterByIngredient "chicken"]).
Proof.
  intros net. split.
  - destruct (fetchListCached_caches net KIngredient "chicken"
                (filterByIngredient "chicken") initialWorld) as (_ & _ & H).
    apply H; reflexivity.
  - destruct (fetchListCached_caches net KIngredient "chicken"
                (filterByIngredient "chicken")
                (World emptyCache [filterByIngredient "chicken"]))
      as (_ & H & _).
    apply (H (Some [Meal "1" "Curry" ""])); reflexivity.
Defined.

(** ** Tracking requests, failures and cache keys *)

Lemma failsIn_nil (net : network) (start : nat) : ¬ failsIn net start [].
Proof. intros (i & u & H & _). by rewrite lookup_nil in H. Qed.

Lemma failsIn_app (net : network) (start : nat) (new1 new2 : list url) :
  failsIn net start (new1 ++ new2) ↔
    failsIn net start new1 ∨ failsIn net (start + length new1) new2.
Proof.
  split.
  - intros (i & u & Hi & Hnet).
    destruct (decide (i < length new1)) as [Hlt|Hge].
    + left. exists i, u. by rewrite lookup_app_l in Hi.
    + right. exists (i - length new1), u.
      rewrite lookup_app_r in Hi by lia. split; [done|].
      by replace (start + length new1 + (i - length new1)) with (start + i) by lia.
  - intros [(i & u & Hi & Hnet) | (i & u & Hi & Hnet)].
    + exists i, u. split; [|done]. by apply lookup_app_l_Some.
    + exists (length new1 + i), u. split.
      * rewrite lookup_app_r by lia.
        by replace (length new1 + i - length new1) with i by lia.
      * by rewrite Nat.add_assoc.
Qed.

Lemma failsIn_singleton (net : network) (start : nat) (u : url) :
  failsIn net start [u] ↔ net start u = NetworkError.
Proof.
  split.
  - intros ([|i] & u' & Hi & Hnet); [|done].
    injection Hi as ->. by rewrite Nat.add_0_r in Hnet.
  - intros Hnet. exists 0, u. by rewrite Nat.add_0_r.
Qed.

Section Tracked.
Context (net : network).

Lemma tracked_weaken {A} (K K' : kind → string → Prop) (R R' : url → Prop)
    (m : M A) :
  (∀ k key, K k key → K' k key) → (∀ u, R u → R' u) →
  tracked net K R m → tracked net K' R' m.
Proof.
  intros HK HR Hm w. destruct (Hm w) as (new & H1 & H2 & H3 & H4).
  exists new. split; [done|]. split; [by eapply Forall_impl|].
  split; [done|]. intros k key Hkey. destruct (H4 k key Hkey); auto.
Qed.

Lemma tracked_ret {A} (K : kind → string → Prop) (R : url → Prop) (a : A) :
  tracked net K R (mret a).
Proof.
  intros w. exists []. simpl. rewrite app_nil_r.
  split; [done|]. split; [done|]. split; [|auto].
  split; [done | by intros ?%failsIn_nil].
Qed.

Lemma tracked_bind {A B} (K : kind → string → Prop) (R : url → Prop)
    (m : M A) (f : A → M B) :
  tracked net K R m → (∀ a, tracked net K R (f a)) →
  tracked net K R (m ≫= f).
Proof.
  intros Hm Hf w. unfold mbind, M_bind, bind.
  destruct (Hm w) as (new1 & H1 & H2 & H3 & H4).
  destruct (m w) as [[a|] w1]; simpl in *.
  - destruct (Hf a w1) as (new2 & G1 & G2 & G3 & G4).
    exists (new1 ++ new2). rewrite G1, H1, (assoc_L (++)).
    split; [done|]. split; [by apply Forall_app|]. split.
    + rewrite G3, failsIn_app, H1, length_app. split; [auto|].
      intros [Hfail | Hfail]; [|done]. by apply H3 in Hfail.
    + intros k key Hkey. destruct (G4 k key Hkey) as [Hk|]; auto.
  - exists new1. split; [done|]. split; [done|]. split; [|exact H4].
    split; [intros _; by apply H3 | done].
Qed.

Lemma tracked_fetchListCached (k : kind) (key : string) (u : url) :
  tracked net (λ k' key', k' = k ∧ key' = key) (λ u', u' = u)
    (fetchListCached net k key u).
Proof.
  intros w.
  destruct (mapGet key (storeOf k (cache w))) as [meals|] eqn:Hget.
  - rewrite (fetchListCached_hit net k key u w meals Hget).
    exists []. simpl. rewrite app_nil_r.
    split; [done|]. split; [done|]. split; [|auto].
    split; [done | by intros ?%failsIn_nil].
  - rewrite (fetchListCached_miss net k key u w Hget).
    exists [u]. rewrite failsIn_singleton.
    destruct (net (length (requests w)) u) as [|data]; simpl.
    + split; [done|]. split; [by repeat constructor|]. split; [done | auto].
    + split; [done|]. split; [by repeat constructor|]. split; [done|].
      intros k' key' Hkey. by apply storeSet_keys in Hkey.
Qed.
End Tracked.

(** ** The joint wait *)

Lemma pending_failsIn (net : network) (ps : list (nat * url)) (start : nat) :
  ps.*1 = seq start (length ps) →
  Exists (λ p, net p.1 p.2 = NetworkError) ps ↔ failsIn net start ps.*2.
Proof.
  revert start. induction ps as [|[n u] ps IH]; intros start Hseq.
  - split; [by inversion 1 | by intros ?%failsIn_nil].
  - rewrite fmap_cons in Hseq. simpl in Hseq. injection Hseq as -> Hseq.
    rewrite Exists_cons, fmap_cons. simpl.
    change (u :: ps.*2) with ([u] ++ ps.*2).
    rewrite failsIn_app, failsIn_singleton, (IH (S start) Hseq). simpl.
    by replace (start + 1) with (S start) by lia.
Qed.

Lemma startAll_cons (key : string) (keys : list string) (w : world) :
  startAll (ingredientCalls (key :: keys)) w =
    if mapHas key (ingredient (cache w))
    then
      let r := startAll (ingredientCalls keys) w in
      (Done (default [] (mapGet key (ingredient (cache w)))) :: r.1, r.2)
    else
      let r := startAll (ingredientCalls keys)
                 (World (cache w) (requests w ++ [filterByIngredient key])) in
      (Waiting KIngredient key (length (requests w)) (filterByIngredient key)
         :: r.1, r.2).
Proof.
  simpl. unfold fetchListCached_call. simpl.
  destruct (mapHas key (ingredient (cache w))); simpl;
    by destruct (startAll (ingredientCalls keys) _).
Qed.

Lemma startAll_ingredientCalls (keys : list string) (w : world) :
  let sts := (startAll (ingredientCalls keys) w).1 in
  let w1 := (startAll (ingredientCalls keys) w).2 in
  cache w1 = cache w
  ∧ requests w1 = requests w ++ (pendingOf sts).*2
  ∧ (pendingOf sts).*1 = seq (length (requests w)) (length (pendingOf sts))
  ∧ Forall (λ st, match st with
                  | Done _ => True
                  | Waiting k key n u =>
                      k = KIngredient ∧ key ∈ keys ∧ u = filterByIngredient key
                  end) sts.
Proof.
  revert w. induction keys as [|key keys IH]; intros w.
  - simpl. by rewrite app_nil_r.
  - rewrite startAll_cons.
    destruct (mapHas key (ingredient (cache w))).
    + destruct (IH w) as (H1 & H2 & H3 & H4). cbn zeta in *.
      destruct (startAll (ingredientCalls keys) w) as [sts w1]. simpl in *.
      split; [done|]. split; [done|]. split; [done|].
      constructor; [done|]. eapply Forall_impl; [exact H4|].
      intros [|k key' n u]; [done|]. set_solver.
    + destruct (IH (World (cache w) (requests w ++ [filterByIngredient key])))
        as (H1 & H2 & H3 & H4). cbn zeta in *.
      destruct (startAll (ingredientCalls keys) _) as [sts w1].
      cbn [fst snd pendingOf cache requests] in *. rewrite !fmap_cons.
      cbn [fst snd length seq].
      split; [done|]. split; [by rewrite H2, <- (assoc_L (++))|]. split.
      * rewrite H3, length_app. simpl. f_equal. f_equal. lia.
      * constructor; [set_solver|]. eapply Forall_impl; [exact H4|].
        intros [|k key' n u]; [done|]. set_solver.
Qed.

Lemma settleAll_spec (net : network) (sts : list stage) (w1 : world) :
  let rs := (settleAll net sts w1).1 in
  let w2 := (settleAll net sts w1).2 in
  requests w2 = requests w1
  ∧ (allOk rs = Throw ↔ Exists (λ p, net p.1 p.2 = NetworkError) (pendingOf sts))
  ∧ (∀ k key, key ∈ mapKeys (storeOf k (cache w2)) →
       key ∈ mapKeys (storeOf k (cache w1)) ∨ ∃ n u, Waiting k key n u ∈ sts).
Proof.
  revert w1. induction sts as [|st sts IH]; intros w1; simpl.
  - split; [done|]. split; [|auto]. split; [done | by inversion 1].
  - destruct st as [meals | k key n u]; simpl.
    + specialize (IH w1). simpl in IH.
      destruct (settleAll net sts w1) as [rs w2]. simpl in *.
      destruct IH as (H1 & H2 & H3). split; [done|]. split.
      * rewrite <- H2. by destruct (allOk rs).
      * intros k key Hkey. destruct (H3 k key Hkey) as [|(n & u & Hin)]; [auto|].
        right. exists n, u. by right.
    + unfold receive. destruct (net n u) as [|data] eqn:Hnet.
      * specialize (IH w1). simpl in IH.
        destruct (settleAll net sts w1) as [rs w2]. simpl in *.
        destruct IH as (H1 & H2 & H3). split; [done|]. split.
        -- split; [intros _; by left | done].
        -- intros k' key' Hkey.
           destruct (H3 k' key' Hkey) as [|(n' & u' & Hin)]; [auto|].
           right. exists n', u'. by right.
      * specialize (IH (World (storeSet k key (default [] data) (cache w1))
                              (requests w1))). simpl in IH.
        destruct (settleAll net sts _) as [rs w2]. simpl in *.
        destruct IH as (H1 & H2 & H3). split; [done|]. split.
        -- rewrite Exists_cons. simpl. rewrite Hnet, <- H2.
           destruct (allOk rs); naive_solver.
        -- intros k' key' Hkey.
           destruct (H3 k' key' Hkey) as [Hk|(n' & u' & Hin)].
           ++ apply storeSet_keys in Hk as [|[-> ->]]; [auto|].
              right. exists n, u. by left.
           ++ right. exists n', u'. by right.
Qed.

Lemma tracked_promiseAll (net : network) (keys : list string) :
  tracked net (λ k key, k = KIngredient ∧ key ∈ keys)
    (λ u, ∃ key, key ∈ keys ∧ u = filterByIngredient key)
    (promiseAll net (ingredientCalls keys)).
Proof.
  intros w. unfold promiseAll.
  pose proof (startAll_ingredientCalls keys w) as Hstart. simpl in Hstart.
  destruct (startAll (ingredientCalls keys) w) as [sts w1]. simpl in Hstart.
  destruct Hstart as (S1 & S2 & S3 & S4).
  pose proof (settleAll_spec net sts w1) as Hsettle. simpl in Hsettle.
  destruct (settleAll net sts w1) as [rs w2]. simpl in *.
  destruct Hsettle as (T1 & T2 & T3).
  exists (pendingOf sts).*2. split; [by rewrite T1|]. split; [|split].
  - clear -S4. induction sts as [|[meals|k key n u] sts IH]; simpl.
    + constructor.
    + apply IH. by inversion S4.
    + apply Forall_cons in S4 as [(_ & Hkey & ->) Hrest].
      constructor; [by exists key | by apply IH].
  - by rewrite T2, (pending_failsIn net _ _ S3).
  - intros k key Hkey. rewrite <- S1.
    destruct (T3 k key Hkey) as [|(n & u & Hin)]; [auto|]. right.
    rewrite Forall_forall in S4. specialize (S4 _ Hin). naive_solver.
Qed.

(** ** Gathering the lists *)

Lemma gatherLists_calls (net : network) (s : AppState) (queryTerm : string) :
  gatherLists net s queryTerm =
    (lists ← (if bool_decide (ingredientsOf queryTerm = []) then mret []
              else ingredientLists ← promiseAll net
                                       (ingredientCalls (ingredientKeys queryTerm));
                   mret [intersectById ingredientLists]);
     lists ← (if isEmptyStr (selectedCategory s) then mret lists
              else l ← fetchListCached net KCategory (selectedCategory s)
                         (filterByCategory (selectedCategory s));
                   mret (lists ++ [l]));
     lists ← (if isEmptyStr (selectedArea s) then mret lists
              else l ← fetchListCached net KArea (selectedArea s)
                         (filterByArea (selectedArea s));
                   mret (lists ++ [l]));
     mret lists).
Proof.
  unfold gatherLists, ingredientCalls, ingredientKeys.
  by rewrite <- list_fmap_compose.
Qed.

Lemma tracked_gatherLists (net : network) (s : AppState) (queryTerm : string) :
  tracked net (searchKeys s queryTerm) (searchRequests s queryTerm)
    (gatherLists net s queryTerm).
Proof.
  rewrite gatherLists_calls. apply tracked_bind; [|intros lists1].
  { case_bool_decide; [apply tracked_ret|].
    apply tracked_bind; [|intros; apply tracked_ret].
    eapply tracked_weaken; [| |apply tracked_promiseAll].
    - intros k key ?. by left.
    - intros u ?. by left. }
  apply tracked_bind; [|intros lists2].
  { destruct (isEmptyStr (selectedCategory s)); [apply tracked_ret|].
    apply tracked_bind; [|intros; apply tracked_ret].
    eapply tracked_weaken; [| |apply tracked_fetchListCached].
    - intros k key ?. right. by left.
    - intros u ?. right. by left. }
  apply tracked_bind; [|intros lists3; apply tracked_ret].
  destruct (isEmptyStr (selectedArea s)); [apply tracked_ret|].
  apply tracked_bind; [|intros; apply tracked_ret].
  eapply tracked_weaken; [| |apply tracked_fetchListCached].
  - intros k key ?. right. by right.
  - intros u ?. right. by right.
Qed.

(** One list for the ingredients together, one for the category, one for
    the area. *)
Lemma gatherLists_length (net : network) (s : AppState) (queryTerm : string)
    (w w' : world) (lists : list (list meal)) :
  gatherLists net s queryTerm w = (Ok lists, w') →
  length lists = activeFilters s queryTerm.
Proof.
  unfold gatherLists, activeFilters, mbind, M_bind, bind, mret, M_ret, ret.
  case_bool_decide as Hing.
  - destruct (isEmptyStr (selectedCategory s)).
    + destruct (isEmptyStr (selectedArea s)).
      * by intros [= <- _].
      * destruct (fetchListCached _ _ _ _ _) as [[l|] w1]; by intros [= <- _].
    + destruct (fetchListCached _ _ _ _ _) as [[l|] w1]; [|done].
      destruct (isEmptyStr (selectedArea s)).
      * by intros [= <- _].
      * destruct (fetchListCached _ _ _ _ _) as [[l'|] w2]; by intros [= <- _].
  - destruct (promiseAll _ _ _) as [[ls|] w0]; [|done].
    destruct (isEmptyStr (selectedCategory s)).
    + destruct (isEmptyStr (selectedArea s)).
      * by intros [= <- _].
      * destruct (fetchListCached _ _ _ _ _) as [[l|] w1]; by intros [= <- _].
    + destruct (fetchListCached _ _ _ _ _) as [[l|] w1]; [|done].
      destruct (isEmptyStr (selectedArea s)).
      * by intros [= <- _].
      * destruct (fetchListCached _ _ _ _ _) as [[l'|] w2]; by intros [= <- _].
Qed.

(** ** The outcome of a search *)

Lemma handleSearch_unfold (net : network) (term : option string)
    (s : AppState) (w : world) :
  let queryTerm := default (ingredientInput s) term in
  handleSearch net term s w =
    match gatherLists net s queryTerm w with
    | (Ok lists, w') =>
        let deduped := dedupeById (mergeLists s lists) in
        let s1 := setResults deduped (searching s) in
        (setLoading false
           (if bool_decide (deduped = []) then reportEmpty queryTerm s1 w'
            else s1), w')
    | (Throw, w') =>
        (setLoading false (setError wentWrongMessage (searching s)), w')
    end.
Proof. reflexivity. Qed.

Lemma reportEmpty_cases (queryTerm : string) (s : AppState) (w : world) :
  (∃ best,
      bestCorrection queryTerm (buildSourceList s w) = Some best
      ∧ jsLt best.2 (Num 0.4) = true
      ∧ toLowerCase best.1 ≠ toLowerCase queryTerm
      ∧ reportEmpty queryTerm s w =
          setTimeoutError (didYouMeanMessage queryTerm best.1) (setError "" s))
  ∨ ((∀ best, bestCorrection queryTerm (buildSourceList s w) = Some best →
        ¬ (jsLt best.2 (Num 0.4) = true
           ∧ toLowerCase best.1 ≠ toLowerCase queryTerm))
     ∧ reportEmpty queryTerm s w = setError noRecipesMessage s).
Proof.
  unfold reportEmpty.
  destruct (bestCorrection queryTerm (buildSourceList s w)) as [best|];
    [|right; split; [by intros ? [=] | done]].
  destruct (jsLt best.2 (Num 0.4)) eqn:Hlt; simpl;
    [|right; split; [intros ? [= <-] [Hx _]; congruence | done]].
  case_bool_decide as Heq; simpl.
  - right. split; [|done]. intros ? [= <-] [_ Hx]. done.
  - left. by exists best.
Qed.

Lemma setAdd_elem_of (names : list string) (x y : string) :
  y ∈ setAdd names x ↔ y ∈ names ∨ y = x.
Proof.
  unfold setAdd. case_bool_decide as Hx.
  - split; [auto | intros [?| ->]; done].
  - by rewrite elem_of_app, list_elem_of_singleton.
Qed.

Lemma foldl_setAdd_elem_of (l names : list string) (y : string) :
  y ∈ foldl setAdd names l ↔ y ∈ names ∨ y ∈ l.
Proof.
  revert names. induction l as [|x l IH]; intros names; simpl.
  - rewrite elem_of_nil. naive_solver.
  - rewrite IH, setAdd_elem_of, elem_of_cons. naive_solver.
Qed.

Lemma foldl_setAdd_NoDup (l names : list string) :
  NoDup names → NoDup (foldl setAdd names l).
Proof.
  revert names. induction l as [|x l IH]; intros names Hnd; simpl; [done|].
  apply IH. unfold setAdd. case_bool_decide as Hx; [done|].
  apply NoDup_app. split; [done|]. split; [|apply NoDup_singleton].
  intros y Hy ->%list_elem_of_singleton. done.
Qed.

(** The source list is a set: the trending names, the categories, the
    areas, the keys of the ingredient cache and the fallbacks, each once. *)
Lemma buildSourceList_spec (s : AppState) (w : world) :
  NoDup (buildSourceList s w)
  ∧ ∀ x, x ∈ buildSourceList s w ↔
      x ∈ strMeal <$> trending s ∨ x ∈ categories s ∨ x ∈ areas s
      ∨ x ∈ mapKeys (ingredient (cache w)) ∨ x ∈ fallbacks.
Proof.
  unfold buildSourceList. split.
  - repeat apply foldl_setAdd_NoDup. constructor.
  - intros x. rewrite !foldl_setAdd_elem_of, elem_of_nil. naive_solver.
Qed.




(** ** Lower-casing commutes with the splitting of the query *)

Lemma rev_fmap {A B} (f : A → B) (l : list A) : rev (f <$> l) = f <$> rev l.
Proof.
  induction l as [|x l IH]; [done|].
  rewrite fmap_cons. simpl. by rewrite IH, fmap_app.
Qed.

Lemma dropSpaces_lower (l : list ascii) :
  dropSpaces (lowerChar <$> l) = lowerChar <$> dropSpaces l.
Proof.
  induction l as [|c l IH]; [done|].
  rewrite fmap_cons. cbn [dropSpaces]. rewrite isSpace_lowerChar.
  destruct (isSpace c); [done | by rewrite fmap_cons].
Qed.

Lemma trimChars_lower (l : list ascii) :
  trimChars (lowerChar <$> l) = lowerChar <$> trimChars l.
Proof.
  unfold trimChars.
  by rewrite dropSpaces_lower, rev_fmap, dropSpaces_lower, rev_fmap.
Qed.

Lemma trim_toLowerCase (s : string) : trim (toLowerCase s) = toLowerCase (trim s).
Proof.
  apply chars_inj. unfold trim.
  by rewrite chars_ofChars, !chars_toLowerCase, chars_ofChars, trimChars_lower.
Qed.

Lemma splitChars_lower (l : list ascii) :
  splitChars comma (lowerChar <$> l)
  = (λ p : list ascii, lowerChar <$> p) <$> splitChars comma l.
Proof.
  induction l as [|c l IH]; [done|].
  rewrite fmap_cons. cbn [splitChars]. rewrite IH.
  destruct (decide (c = comma)) as [->|Hc].
  - by rewrite !bool_decide_eq_true_2.
  - rewrite !bool_decide_eq_false_2; [|done | by rewrite lowerChar_comma].
    by destruct (splitChars comma l).
Qed.

Lemma splitComma_lower (s : string) :
  splitComma (toLowerCase s) = toLowerCase <$> splitComma s.
Proof.
  unfold splitComma. rewrite chars_toLowerCase, splitChars_lower.
  rewrite <- !list_fmap_compose. apply list_fmap_ext. intros _ p _. simpl.
  unfold toLowerCase. by rewrite chars_ofChars.
Qed.

Lemma filter_fmap_nonempty (f : string → string) (l : list string) :
  (∀ x, isEmptyStr (f x) = isEmptyStr x) →
  filter (λ x, isEmptyStr x = false) (f <$> l)
  = f <$> filter (λ x, isEmptyStr x = false) l.
Proof.
  intros Hf. induction l as [|x l IH]; [done|].
  rewrite fmap_cons, !filter_cons, IH, Hf.
  by destruct (decide (isEmptyStr x = false)).
Qed.

Lemma ingredientsOf_lower (queryTerm : string) :
  ingredientsOf (toLowerCase queryTerm) = toLowerCase <$> ingredientsOf queryTerm.
Proof.
  unfold ingredientsOf. rewrite splitComma_lower.
  rewrite <- filter_fmap_nonempty by apply isEmptyStr_toLowerCase.
  f_equal. rewrite <- !list_fmap_compose. apply list_fmap_ext.
  intros _ p _. simpl. apply trim_toLowerCase.
Qed.

(** The keys depend on the query only up to letter case, and are in
    lower case themselves. *)
Lemma ingredientKeys_lower (queryTerm : string) :
  ingredientKeys queryTerm = ingredientsOf (toLowerCase queryTerm).
Proof. unfold ingredientKeys. by rewrite ingredientsOf_lower. Qed.

Lemma ingredientKeys_normal (queryTerm key : string) :
  key ∈ ingredientKeys queryTerm → toLowerCase key = key.
Proof.
  unfold ingredientKeys. intros (ing & -> & _)%list_elem_of_fmap.
  apply toLowerCase_idemp.
Qed.

Lemma ingredientKeys_nil (queryTerm : string) :
  ingredientKeys queryTerm = [] ↔ ingredientsOf queryTerm = [].
Proof.
  unfold ingredientKeys. split; [apply fmap_nil_inv | by intros ->].
Qed.

Lemma gatherLists_case_insensitive (net : network) (s : AppState)
    (term term' : string) :
  toLowerCase term' = toLowerCase term →
  gatherLists net s term' = gatherLists net s term.
Proof.
  intros Hcase. rewrite !gatherLists_calls.
  assert (ingredientKeys term' = ingredientKeys term) as Hkeys
    by (by rewrite !ingredientKeys_lower, Hcase).
  rewrite Hkeys.
  assert (bool_decide (ingredientsOf term' = [])
          = bool_decide (ingredientsOf term = [])) as ->; [|done].
  apply bool_decide_ext. by rewrite <- !ingredientKeys_nil, Hkeys.
Qed.

Lemma newRequests_app (w w' : world) (new : list url) :
  requests w' = requests w ++ new → newRequests w w' = new.
Proof. intros H. unfold newRequests. by rewrite H, drop_app_length. Qed.

Lemma reportEmpty_results (queryTerm : string) (s : AppState) (w : world) :
  results (reportEmpty queryTerm s w) = results s
  ∧ loading (reportEmpty queryTerm s w) = loading s
  ∧ error (reportEmpty queryTerm s w) ≠ wentWrongMessage.
Proof.
  destruct (reportEmpty_cases queryTerm s w) as [(best & _ & _ & _ & ->) | [_ ->]];
    done.
Qed.

(** ** Searching again *)

Lemma mapHas_set {V} (m : list (string * V)) (key key' : string) (v : V) :
  mapHas key' (mapSet key v m) = true ↔ key' = key ∨ mapHas key' m = true.
Proof.
  unfold mapHas. rewrite !bool_decide_eq_true, mapSet_keys.
  case_bool_decide as Hk.
  - split; [auto | intros [->|]; done].
  - rewrite elem_of_app, list_elem_of_singleton. naive_solver.
Qed.

Lemma storeSet_has (k k' : kind) (key key' : string) (meals : list meal)
    (c : cacheT) :
  mapHas key' (storeOf k' (storeSet k key meals c)) = true ↔
    (k' = k ∧ key' = key) ∨ mapHas key' (storeOf k' c) = true.
Proof.
  rewrite storeOf_storeSet. case_bool_decide as Hk.
  - subst k'. rewrite mapHas_set. naive_solver.
  - naive_solver.
Qed.

Lemma memoizes_ret {A} (a : A) : memoizes (λ _ _, False) (mret a).
Proof.
  intros w. split; [done|]. split; [by intros _ ? ? []|]. intros _. by exists a.
Qed.

Lemma memoizes_iff {A} (G G' : kind → string → Prop) (m : M A) :
  (∀ k key, G k key ↔ G' k key) → memoizes G m → memoizes G' m.
Proof.
  intros HG Hm w. destruct (Hm w) as (H1 & H2 & H3).
  split; [done|]. split.
  - intros Hok k key ?%HG. by apply H2.
  - intros Hc. apply H3. intros k key ?%HG. by apply Hc.
Qed.

Lemma memoizes_bind {A B} (G1 G2 : kind → string → Prop) (m : M A)
    (f : A → M B) :
  memoizes G1 m → (∀ a, memoizes G2 (f a)) →
  memoizes (λ k key, G1 k key ∨ G2 k key) (m ≫= f).
Proof.
  intros Hm Hf w. unfold mbind, M_bind, bind.
  destruct (Hm w) as (H1 & H2 & H3).
  destruct (m w) as [[a|] w1] eqn:Hmw; cbn [fst snd] in *.
  - destruct (Hf a w1) as (F1 & F2 & F3).
    split; [intros k key Hk; by apply F1, H1|]. split.
    + intros Hok k key [HG|HG]; [|by apply F2].
      apply F1. by apply H2.
    + intros Hc. destruct H3 as [a' Ha']; [intros k key ?; apply Hc; by left|].
      injection Ha' as -> ->.
      destruct F3 as [b Hb]; [intros k key ?; apply Hc; by right|].
      by exists b.
  - split; [done|]. split; [done|].
    intros Hc. destruct H3 as [a' Ha']; [intros k key ?; apply Hc; by left|].
    done.
Qed.

Lemma memoizes_fetchListCached (net : network) (k : kind) (key : string)
    (u : url) :
  memoizes (λ k' key', k' = k ∧ key' = key) (fetchListCached net k key u).
Proof.
  intros w.
  destruct (mapGet key (storeOf k (cache w))) as [meals|] eqn:Hget.
  - rewrite (fetchListCached_hit net k key u w meals Hget). cbn [fst snd].
    split; [done|]. split; [|intros _; by exists meals].
    intros _ k' key' [-> ->]. apply mapHas_get. by rewrite Hget.
  - rewrite (fetchListCached_miss net k key u w Hget).
    split; [|split].
    + intros k' key' Hk. destruct (net _ u); cbn [fst snd cache]; [done|].
      apply storeSet_has. by right.
    + destruct (net _ u); cbn [fst snd cache]; [done|].
      intros _ k' key' [-> ->]. apply storeSet_has. by left.
    + intros Hc. specialize (Hc k key (conj eq_refl eq_refl)).
      apply mapHas_get in Hc as [? Hc]. congruence.
Qed.

Lemma settleAll_has (net : network) (sts : list stage) (w1 : world) :
  let rs := (settleAll net sts w1).1 in
  let w2 := (settleAll net sts w1).2 in
  (∀ k key, mapHas key (storeOf k (cache w1)) = true →
            mapHas key (storeOf k (cache w2)) = true)
  ∧ (allOk rs ≠ Throw →
     ∀ k key n u, Waiting k key n u ∈ sts →
                  mapHas key (storeOf k (cache w2)) = true).
Proof.
  revert w1. induction sts as [|st sts IH]; intros w1; cbn [settleAll].
  - split; [done|]. intros _ k key n u Hin. by apply elem_of_nil in Hin.
  - destruct st as [meals | k0 key0 n0 u0]; cbn [fetchListCached_resume].
    + unfold mret, M_ret, ret. destruct (IH w1) as [H1 H2]. cbn zeta in *.
      destruct (settleAll net sts w1) as [rs w2]. cbn [fst snd allOk] in *.
      split; [done|]. intros Hok k key n u [[=]|Hin]%elem_of_cons.
      apply (H2 ltac:(by destruct (allOk rs)) k key n u Hin).
    + unfold receive. destruct (net n0 u0) as [|data].
      * destruct (IH w1) as [H1 H2]. cbn zeta in *.
        destruct (settleAll net sts w1) as [rs w2]. cbn [fst snd allOk] in *.
        split; [done|]. by intros Hok.
      * destruct (IH (World (storeSet k0 key0 (default [] data) (cache w1))
                            (requests w1))) as [H1 H2]. cbn zeta in *.
        destruct (settleAll net sts _) as [rs w2]. cbn [fst snd allOk cache] in *.
        split.
        -- intros k key Hk. apply H1, storeSet_has. by right.
        -- intros Hok k key n u [[= -> -> -> ->]|Hin]%elem_of_cons.
           ++ apply H1, storeSet_has. by left.
           ++ apply (H2 ltac:(by destruct (allOk rs)) k key n u Hin).
Qed.

Lemma startAll_stages (keys : list string) (w : world) :
  let sts := (startAll (ingredientCalls keys) w).1 in
  (∀ key, key ∈ keys →
     mapHas key (ingredient (cache w)) = true
     ∨ ∃ n u, Waiting KIngredient key n u ∈ sts)
  ∧ ((∀ key, key ∈ keys → mapHas key (ingredient (cache w)) = true) →
     startAll (ingredientCalls keys) w = (sts, w) ∧ pendingOf sts = []).
Proof.
  revert w. induction keys as [|key keys IH]; intros w.
  - split; [intros key Hin; by apply elem_of_nil in Hin | done].
  - rewrite startAll_cons.
    destruct (mapHas key (ingredient (cache w))) eqn:Hhas.
    + destruct (IH w) as [H1 H2]. cbn zeta in *.
      destruct (startAll (ingredientCalls keys) w) as [sts w1].
      cbn [fst snd] in *. split.
      * intros key' [->|Hin]%elem_of_cons; [by left|].
        destruct (H1 key' Hin) as [|(n & u & Hw)]; [by left|].
        right. exists n, u. by right.
      * intros Hall.
        destruct H2 as [H2 H3]; [intros key' ?; apply Hall; by right|].
        injection H2 as ->. done.
    + destruct (IH (World (cache w) (requests w ++ [filterByIngredient key])))
        as [H1 _]. cbn zeta in *.
      destruct (startAll (ingredientCalls keys) _) as [sts w1].
      cbn [fst snd cache] in *. split.
      * intros key' [->|Hin]%elem_of_cons.
        -- right. eexists _, _. by left.
        -- destruct (H1 key' Hin) as [|(n & u & Hw)]; [by left|].
           right. exists n, u. by right.
      * intros Hall. rewrite Hall in Hhas; [done | by left].
Qed.

Lemma settleAll_idle (net : network) (sts : list stage) (w : world) :
  pendingOf sts = [] →
  ∃ ls, settleAll net sts w = (Ok <$> ls, w) ∧ allOk (Ok <$> ls) = Ok ls.
Proof.
  induction sts as [|[meals|k key n u] sts IH]; intros Hp; [by exists []| |done].
  destruct (IH Hp) as (ls & Hs & Hok). exists (meals :: ls).
  cbn [settleAll fetchListCached_resume]. unfold mret, M_ret, ret.
  rewrite Hs, fmap_cons. cbn [allOk]. by rewrite Hok.
Qed.

Lemma memoizes_promiseAll (net : network) (keys : list string) :
  memoizes (λ k key, k = KIngredient ∧ key ∈ keys)
    (promiseAll net (ingredientCalls keys)).
Proof.
  intros w. unfold promiseAll.
  destruct (startAll_ingredientCalls keys w) as (S1 & _).
  destruct (startAll_stages keys w) as [S2 S3]. cbn zeta in *.
  destruct (startAll (ingredientCalls keys) w) as [sts w1] eqn:Hstart.
  cbn [fst snd] in *.
  destruct (settleAll_has net sts w1) as [T1 T2]. cbn zeta in *.
  destruct (settleAll net sts w1) as [rs w2] eqn:Hsettle. cbn [fst snd] in *.
  split; [|split].
  - intros k key Hk. apply T1. by rewrite S1.
  - intros Hok k key [-> Hkey].
    destruct (S2 key Hkey) as [Hhas|(n & u & Hw)].
    + apply T1. by rewrite S1.
    + by eapply T2.
  - intros Hc.
    destruct S3 as [S3 Hp]; [intros key ?; by apply (Hc KIngredient)|].
    injection S3 as ->.
    destruct (settleAll_idle net sts w Hp) as (ls & Hs & Hok).
    rewrite Hs in Hsettle. injection Hsettle as <- <-.
    exists ls. by rewrite Hok.
Qed.

Lemma memoizes_gatherLists (net : network) (s : AppState) (queryTerm : string) :
  memoizes (activeKeys s queryTerm) (gatherLists net s queryTerm).
Proof.
  rewrite gatherLists_calls.
  eapply (memoizes_iff
    (λ k key, (k = KIngredient ∧ key ∈ ingredientKeys queryTerm)
              ∨ ((k = KCategory ∧ key = selectedCategory s ∧ key ≠ "")
                 ∨ ((k = KArea ∧ key = selectedArea s ∧ key ≠ "") ∨ False))));
    [unfold activeKeys; naive_solver|].
  apply memoizes_bind; [|intros lists1].
  { case_bool_decide as Hing.
    - eapply memoizes_iff; [|apply memoizes_ret]. intros k key.
      apply ingredientKeys_nil in Hing. rewrite Hing. set_solver.
    - eapply memoizes_iff; [|apply memoizes_bind;
        [apply memoizes_promiseAll | intros; apply memoizes_ret]].
      naive_solver. }
  apply memoizes_bind; [|intros lists2].
  { destruct (isEmptyStr (selectedCategory s)) eqn:Hc.
    - eapply memoizes_iff; [|apply memoizes_ret]. intros k key.
      apply isEmptyStr_true in Hc. naive_solver.
    - eapply memoizes_iff; [|apply memoizes_bind;
        [apply memoizes_fetchListCached | intros; apply memoizes_ret]].
      apply isEmptyStr_false in Hc. naive_solver. }
  apply memoizes_bind; [|intros lists3; apply memoizes_ret].
  destruct (isEmptyStr (selectedArea s)) eqn:Ha.
  - eapply memoizes_iff; [|apply memoizes_ret]. intros k key.
    apply isEmptyStr_true in Ha. naive_solver.
  - eapply memoizes_iff; [|apply memoizes_bind;
      [apply memoizes_fetchListCached | intros; apply memoizes_ret]].
    apply isEmptyStr_false in Ha. naive_solver.
Qed.

(** After a search that has not failed, a search for the same text up to
    letter case, with the same category and area, finds every list in the
    cache: it issues no request and changes nothing in the world. *)
Lemma handleSearch_again (net : network) (term term' : option string)
    (s : AppState) (w : world) :
  let first := handleSearch net term s w in
  toLowerCase (default (ingredientInput s) term')
    = toLowerCase (default (ingredientInput s) term) →
  ¬ Failed first.1 →
  (handleSearch net term' first.1 first.2).2 = first.2
  ∧ ¬ Failed (handleSearch net term' first.1 first.2).1.
Proof.
  intros first Hcase Hok.
  set (q := default (ingredientInput s) term) in *.
  set (q' := default (ingredientInput s) term') in *.
  destruct (memoizes_gatherLists net s q w) as (_ & Hfill & _).
  assert (first.2 = (gatherLists net s q w).2
          ∧ (gatherLists net s q w).1 ≠ Throw
          ∧ ingredientInput first.1 = ingredientInput s
          ∧ selectedCategory first.1 = selectedCategory s
          ∧ selectedArea first.1 = selectedArea s) as (Hw & Hno & Hi & Hc & Ha).
  { revert Hok. unfold first. rewrite handleSearch_unfold. fold q.
    destruct (gatherLists net s q w) as [[lists|] w1]; cbn [fst snd].
    - intros _. split; [done|]. split; [done|].
      case_bool_decide; [|done].
      destruct (reportEmpty_cases q
        (setResults (dedupeById (mergeLists s lists)) (searching s)) w1)
        as [(best & _ & _ & _ & ->) | [_ ->]]; done.
    - intros []. done. }
  specialize (Hfill Hno). rewrite <- Hw in Hfill.
  destruct (memoizes_gatherLists net first.1 q' first.2) as (_ & _ & Hidle).
  destruct Hidle as [lists Hlists].
  { intros k key Hk. apply Hfill. unfold activeKeys in *.
    rewrite Hc, Ha in Hk.
    by rewrite !ingredientKeys_lower, Hcase, <- ingredientKeys_lower in Hk. }
  rewrite handleSearch_unfold. rewrite Hi. fold q'. rewrite Hlists.
  cbn [fst snd]. split; [done|]. intros [Herr _]. revert Herr.
  unfold setLoading. cbn [error]. case_bool_decide; [|done].
  by eapply reportEmpty_results.
Qed.

(** ** Claims about the search *)

(** C7: when a request that a search has issued fails, one of several
    concurrent ingredient requests included, the search settles as failed
    with the retry message, and the result list stays as it was. No other
    search settles as failed. *)
Theorem handleSearch_failure (net : network) (term : option string)
    (s : AppState) (w : world) :
  let s' := (handleSearch net term s w).1 in
  let w' := (handleSearch net term s w).2 in
  requests w `prefix_of` requests w'
  ∧ (failsIn net (length (requests w)) (newRequests w w') ↔ Failed s')
  ∧ (Failed s' → results s' = results s ∧ timers s' = timers s).
Proof.
  intros s' w'. unfold s', w'. rewrite handleSearch_unfold.
  destruct (tracked_gatherLists net s (default (ingredientInput s) term) w)
    as (new & Hreq & _ & Hthrow & _).
  destruct (gatherLists net s (default (ingredientInput s) term) w)
    as [[lists|] w1]; cbn [fst snd] in *.
  - rewrite (newRequests_app w w1 new Hreq).
    assert (¬ failsIn net (length (requests w)) new) as Hok
      by (by intros ?%Hthrow).
    assert (¬ Failed (setLoading false
              (if bool_decide (dedupeById (mergeLists s lists) = [])
               then reportEmpty (default (ingredientInput s) term)
                      (setResults (dedupeById (mergeLists s lists)) (searching s)) w1
               else setResults (dedupeById (mergeLists s lists)) (searching s))))
      as Hnot.
    { intros [Herr _]. case_bool_decide; [|done].
      unfold setLoading in Herr. cbn [error] in Herr.
      by eapply reportEmpty_results. }
    split; [by exists new|]. split; [split; [done|]|]; intros HF; by apply Hnot in HF.
  - rewrite (newRequests_app w w1 new Hreq).
    split; [by exists new|]. split; [|done].
    split; [done | intros _; by apply Hthrow].
Qed.

Lemma handleSearch_failure_witness :
  let net : network := λ _ u,
    match u with
    | filterByIngredient "garlic" => NetworkError
    | _ => Json (Some [Meal "1" "Chicken Curry" ""])
    end in
  let run := handleSearch net (Some "chicken, garlic") initialApp initialWorld in
  Failed run.1 ∧ results run.1 = [].
Proof.
  intros net run.
  destruct (handleSearch_failure net (Some "chicken, garlic") initialApp
              initialWorld) as (_ & Hfail & Hsame).
  assert (Failed run.1) as HF.
  { apply Hfail. exists 1, (filterByIngredient "garlic"). by vm_compute. }
  split; [done|]. by apply Hsame.
Defined.

(** C3, as amended: the published result is the deduplicated combination
    of the gathered lists, of which there is one per active filter, the
    ingredients together counting as one: the trending set when there is
    none, the list itself when there is one, their intersection when
    there are more. With no list gathered the trending set, whose ids are
    distinct, is returned as it is, and the search has succeeded exactly
    when the trending set is not empty. *)
Theorem handleSearch_combine (net : network) (term : option string)
    (s : AppState) (w w' : world) (lists : list (list meal)) :
  let queryTerm := default (ingredientInput s) term in
  gatherLists net s queryTerm w = (Ok lists, w') →
  let s' := (handleSearch net term s w).1 in
  length lists = activeFilters s queryTerm
  ∧ results s' = dedupeById (mergeLists s lists)
  ∧ NoDup (idMeal <$> results s')
  ∧ (∀ i, i ∈ idMeal <$> results s' ↔ i ∈ idMeal <$> mergeLists s lists)
  ∧ (Succeeded s' ↔ results s' ≠ [])
  ∧ (lists = [] →
       mergeLists s lists = trending s
       ∧ (NoDup (idMeal <$> trending s) → results s' = trending s)
       ∧ (Succeeded s' ↔ trending s ≠ []))
  ∧ (∀ l, lists = [l] → mergeLists s lists = l)
  ∧ (2 ≤ length lists → mergeLists s lists = intersectById lists)
  ∧ (lists ≠ [] → ∀ m l, m ∈ results s' → l ∈ lists → idMeal m ∈ idMeal <$> l).
Proof.
  intros queryTerm Hgather s'.
  assert (results s' = dedupeById (mergeLists s lists)) as Hres.
  { unfold s'. rewrite handleSearch_unfold. fold queryTerm. rewrite Hgather.
    cbn [fst]. case_bool_decide; [|done].
    simpl. by rewrite (proj1 (reportEmpty_results _ _ _)). }
  assert (Succeeded s' ↔ results s' ≠ []) as Hsucc.
  { unfold Succeeded. split; [by intros []|]. intros Hne. split; [done|].
    revert Hne. rewrite Hres. unfold s'.
    rewrite handleSearch_unfold. fold queryTerm. rewrite Hgather. cbn [fst].
    intros Hne. by rewrite bool_decide_eq_false_2. }
  destruct (dedupeById_spec (mergeLists s lists)) as (Hnd & Hids & Hin).
  split; [by eapply gatherLists_length|]. split; [done|].
  split; [by rewrite Hres|]. split; [intros i; by rewrite Hres|].
  split; [done|]. split; [|split; [|split]].
  - intros ->. split; [done|]. split.
    + intros Htr. rewrite Hres. by apply dedupeById_NoDup.
    + rewrite Hsucc, Hres. simpl. by rewrite dedupeById_nil.
  - by intros l ->.
  - destruct lists as [|l1 [|l2 lists]]; simpl; [lia | lia | done].
  - intros Hne m l Hm Hl. rewrite Hres in Hm. apply Hin in Hm.
    assert (mergeLists s lists = intersectById lists) as Hmerge
      by (by destruct lists as [|l1 [|l2 lists]]).
    rewrite Hmerge in Hm. destruct lists as [|first rest]; [done|].
    rewrite intersectById_cons in Hm.
    apply list_elem_of_filter in Hm as [Hrest Hfirst].
    apply elem_of_cons in Hl as [->|Hl].
    + by apply list_elem_of_fmap_2.
    + by apply (proj1 (Forall_forall _ _) Hrest l).
Qed.

Lemma handleSearch_combine_witness :
  let net : network := λ _ u,
    match u with
    | filterByIngredient "chicken" =>
        Json (Some [Meal "1" "Curry" ""; Meal "2" "Pie" ""; Meal "3" "Stew" ""])
    | filterByIngredient "garlic" =>
        Json (Some [Meal "2" "Pie" ""; Meal "3" "Stew" ""; Meal "4" "Soup" ""])
    | _ => Json None
    end in
  results (handleSearch net (Some "Chicken, Garlic") initialApp initialWorld).1
  = [Meal "2" "Pie" ""; Meal "3" "Stew" ""].
Proof.
  intros net.
  destruct (handleSearch_combine net (Some "Chicken, Garlic") initialApp
              initialWorld
              (handleSearch net (Some "Chicken, Garlic") initialApp initialWorld).2
              [[Meal "2" "Pie" ""; Meal "3" "Stew" ""]])
    as (_ & Hres & _); [by vm_compute|].
  rewrite Hres. by vm_compute.
Defined.

(** C3 fails as stated: with no list gathered and an empty trending set
    the search ends with the no-results message, not as succeeded. *)
Lemma handleSearch_trending_counterexample :
  ¬ (∀ (net : network) (term : option string) (s : AppState) (w w' : world),
       gatherLists net s (default (ingredientInput s) term) w = (Ok [], w') →
       let s' := (handleSearch net term s w).1 in
       results s' = trending s ∧ Succeeded s').
Proof.
  intros H.
  destruct (H (λ _ _, Json None) None initialApp initialWorld initialWorld)
    as [_ (_ & Herr & _)]; [done|].
  by vm_compute in Herr.
Qed.






(** C5, as amended: for the ingredient kind the key of every cache lookup,
    store and request is the lower-cased term, so two searches whose text
    differs only in letter case use the same entries; for the category
    and the area the key is the selected value as it stands. *)
Theorem handleSearch_cache_keys (net : network) (term : option string)
    (s : AppState) (w : world) :
  let queryTerm := default (ingredientInput s) term in
  let w' := (handleSearch net term s w).2 in
  (∀ term', toLowerCase term' = toLowerCase queryTerm →
     gatherLists net s term' w = gatherLists net s queryTerm w)
  ∧ (∀ key, key ∈ mapKeys (ingredient (cache w')) →
       key ∈ mapKeys (ingredient (cache w))
       ∨ (key ∈ ingredientKeys queryTerm ∧ toLowerCase key = key))
  ∧ (∀ i, filterByIngredient i ∈ newRequests w w' →
       i ∈ ingredientKeys queryTerm ∧ toLowerCase i = i)
  ∧ (∀ key, key ∈ mapKeys (category (cache w')) →
       key ∈ mapKeys (category (cache w)) ∨ key = selectedCategory s)
  ∧ (∀ c, filterByCategory c ∈ newRequests w w' → c = selectedCategory s)
  ∧ (∀ key, key ∈ mapKeys (area (cache w')) →
       key ∈ mapKeys (area (cache w)) ∨ key = selectedArea s)
  ∧ (∀ a, filterByArea a ∈ newRequests w w' → a = selectedArea s)
  ∧ (∀ term', toLowerCase (default (ingredientInput s) term')
                = toLowerCase queryTerm →
       ¬ Failed (handleSearch net term s w).1 →
       (handleSearch net term' (handleSearch net term s w).1 w').2 = w').
Proof.
  intros queryTerm w'.
  assert (∀ term', toLowerCase (default (ingredientInput s) term')
                     = toLowerCase queryTerm →
       ¬ Failed (handleSearch net term s w).1 →
       (handleSearch net term' (handleSearch net term s w).1 w').2 = w')
    as Hagain.
  { intros term' Hcase Hok. by apply handleSearch_again. }
  revert Hagain.
  assert (w' = (gatherLists net s queryTerm w).2) as ->.
  { unfold w'. rewrite handleSearch_unfold. fold queryTerm.
    by destruct (gatherLists net s queryTerm w) as [[lists|] w1]. }
  destruct (tracked_gatherLists net s queryTerm w) as (new & Hreq & HR & _ & HK).
  rewrite (newRequests_app w _ new Hreq). rewrite Forall_forall in HR.
  intros Hagain.
  split; [intros term' Hcase;
          by rewrite (gatherLists_case_insensitive net s queryTerm term')|].
  split; [|split; [|split; [|split; [|split; [|split]]]]]; [| | | | | |done].
  - intros key Hkey.
    destruct (HK KIngredient key Hkey) as [|[[_ Hk]|[[? _]|[? _]]]]; try done.
    + by left.
    + right. split; [done|]. by eapply ingredientKeys_normal.
  - intros i Hi. destruct (HR _ Hi) as [(key & Hk & [= ->])|[?|?]]; try done.
    split; [done|]. by eapply ingredientKeys_normal.
  - intros key Hkey.
    destruct (HK KCategory key Hkey) as [|[[? _]|[[_ Hk]|[? _]]]]; try done; auto.
  - intros c Hc. destruct (HR _ Hc) as [(key & Hk & ?)|[[= ->]|?]]; done.
  - intros key Hkey.
    destruct (HK KArea key Hkey) as [|[[? _]|[[? _]|[_ Hk]]]]; try done; auto.
  - intros a Ha. destruct (HR _ Ha) as [(key & Hk & ?)|[?|[= ->]]]; done.
Qed.

Lemma handleSearch_cache_keys_witness :
  let net : network := λ _ _, Json (Some [Meal "1" "Chicken Curry" ""]) in
  gatherLists net initialApp "Chicken" initialWorld
  = gatherLists net initialApp "chicken" initialWorld.
Proof.
  intros net.
  apply (handleSearch_cache_keys net (Some "chicken") initialApp initialWorld).
  reflexivity.
Defined.

(** C5 fails as stated: a category is stored under the selected value,
    which is not in lower case. *)
Lemma handleSearch_category_key_counterexample :
  ¬ (∀ (net : network) (term : option string) (s : AppState) (w : world)
       (k : kind) (key : string),
       let w' := (handleSearch net term s w).2 in
       key ∈ mapKeys (storeOf k (cache w')) →
       key ∈ mapKeys (storeOf k (cache w)) ∨ toLowerCase key = key).
Proof.
  intros H.
  destruct (H (λ _ _, Json None) None
              (App "" "Beef" "" [] [] [] [] false "" 1 false false [])
              initialWorld KCategory "Beef") as [Hin | Hlow].
  - vm_compute. by left.
  - by apply elem_of_nil in Hin.
  - by vm_compute in Hlow.
Qed.

(** Two searches for one ingredient make one request between them. *)
Example handleSearch_twice_one_request :
  let net : network := λ _ _, Json (Some [Meal "1" "Chicken Curry" ""]) in
  let first := handleSearch net (Some "chicken") initialApp initialWorld in
  let second := handleSearch net (Some "Chicken") first.1 first.2 in
  requests first.2 = [filterByIngredient "chicken"]
  ∧ requests second.2 = [filterByIngredient "chicken"]
  ∧ results second.1 = [Meal "1" "Chicken Curry" ""].
Proof. by vm_compute. Qed.

(** The correction of a mistyped single ingredient: the term itself has
    become a key of the ingredient cache and so a candidate of score 0. *)
Example handleSearch_typo_own_key :
  let net : network := λ _ _, Json None in
  let s := App "" "" "" [] [] [Meal "7" "chicken" ""] [] false "" 1 false false [] in
  let run := handleSearch net (Some "chiken") s initialWorld in
  buildSourceList s run.2
    = ["chicken"; "chiken"; "biryani"; "pasta"; "pizza"; "curry"; "salad";
       "fried rice"]
  ∧ bestCorrection "chiken" (buildSourceList s run.2) = Some ("chiken", Num 0)
  ∧ EmptyNoSuggestion (runTimers run.1).
Proof. by vm_compute. Qed.

(** * Further properties *)

(** ** The edit distance as a metric *)

Lemma editDistance_zero (xs ys : list ascii) :
  editDistance xs ys = 0 → xs = ys.
Proof.
  revert ys. induction xs as [|x xs IH]; intros ys.
  - simpl. by intros ->%length_zero_iff_nil.
  - destruct ys as [|y ys]; [done|].
    rewrite editDistance_cons. unfold min3. intros H.
    assert (editDistance xs ys = 0 ∧ (if bool_decide (x = y) then 0 else 1) = 0)
      as [Hd Hc] by lia.
    case_bool_decide; [|done]. subst. f_equal. by apply IH.
Qed.

Lemma editDistance_step_l (x : ascii) (xs ys : list ascii) :
  editDistance (x :: xs) ys ≤ editDistance xs ys + 1.
Proof.
  destruct ys as [|y ys].
  - rewrite !editDistance_nil_r. simpl. lia.
  - rewrite editDistance_cons. unfold min3. lia.
Qed.

Lemma editDistance_step_r (y : ascii) (xs ys : list ascii) :
  editDistance xs (y :: ys) ≤ editDistance xs ys + 1.
Proof.
  rewrite (editDistance_sym xs (y :: ys)), (editDistance_sym xs ys).
  apply editDistance_step_l.
Qed.

Lemma editDistance_le_max (xs ys : list ascii) :
  editDistance xs ys ≤ length xs `max` length ys.
Proof.
  revert ys. induction xs as [|x xs IH]; intros ys; [simpl; lia|].
  destruct ys as [|y ys]; [simpl; lia|].
  rewrite editDistance_cons. specialize (IH ys). unfold min3. simpl.
  case_bool_decide; lia.
Qed.

Lemma editDistance_ge_diff (xs ys : list ascii) :
  length xs - length ys ≤ editDistance xs ys
  ∧ length ys - length xs ≤ editDistance xs ys.
Proof.
  revert ys. induction xs as [|x xs IHx]; intros ys; [simpl; lia|].
  induction ys as [|y ys IHy]; [simpl; lia|].
  rewrite editDistance_cons.
  pose proof (IHx (y :: ys)) as H1. pose proof (IHx ys) as H2.
  unfold min3. simpl in *. lia.
Qed.

Lemma editDistance_triangle_bounded (n : nat) :
  ∀ xs ys zs : list ascii,
    length xs + length ys + length zs ≤ n →
    editDistance xs zs ≤ editDistance xs ys + editDistance ys zs.
Proof.
  induction n as [|n IH]; intros xs ys zs Hn.
  - destruct xs, ys, zs; simpl in *; lia.
  - destruct ys as [|y ys].
    { rewrite editDistance_nil_r. simpl.
      pose proof (editDistance_le_max xs zs). lia. }
    destruct xs as [|x xs].
    { pose proof (editDistance_ge_diff (y :: ys) zs). simpl in *. lia. }
    destruct zs as [|z zs].
    { rewrite !editDistance_nil_r.
      pose proof (editDistance_ge_diff (x :: xs) (y :: ys)). simpl in *. lia. }
    simpl in Hn.
    assert (editDistance xs (z :: zs)
            ≤ editDistance xs (y :: ys) + editDistance (y :: ys) (z :: zs)) as I1
      by (apply IH; simpl; lia).
    assert (editDistance (x :: xs) zs
            ≤ editDistance (x :: xs) (y :: ys) + editDistance (y :: ys) zs) as I2
      by (apply IH; simpl; lia).
    assert (editDistance (x :: xs) (z :: zs)
            ≤ editDistance (x :: xs) ys + editDistance ys (z :: zs)) as I3
      by (apply IH; simpl; lia).
    assert (editDistance (x :: xs) zs
            ≤ editDistance (x :: xs) ys + editDistance ys zs) as I4
      by (apply IH; simpl; lia).
    assert (editDistance xs (z :: zs)
            ≤ editDistance xs ys + editDistance ys (z :: zs)) as I5
      by (apply IH; simpl; lia).
    assert (editDistance xs zs ≤ editDistance xs ys + editDistance ys zs) as I6
      by (apply IH; simpl; lia).
    pose proof (editDistance_step_l x xs (z :: zs)) as D1.
    pose proof (editDistance_step_r z (x :: xs) zs) as D2.
    assert (editDistance (x :: xs) (z :: zs)
            ≤ editDistance xs zs + (if bool_decide (x = z) then 0 else 1)) as D3.
    { rewrite editDistance_cons. unfold min3. lia. }
    assert ((if bool_decide (x = z) then 0 else 1)
            ≤ (if bool_decide (x = y) then 0 else 1)
              + (if bool_decide (y = z) then 0 else 1)) as Hc.
    { repeat case_bool_decide; subst; try done; lia. }
    clear IH Hn.
    rewrite (editDistance_cons x y xs ys), (editDistance_cons y z ys zs) in *.
    revert Hc D3 I1 I2 D1 D2 I3 I4 I5 I6.
    generalize (if bool_decide (x = z) then 0 else 1).
    generalize (if bool_decide (x = y) then 0 else 1).
    generalize (if bool_decide (y = z) then 0 else 1).
    generalize (editDistance (x :: xs) (z :: zs)).
    generalize (editDistance xs (z :: zs)) (editDistance (x :: xs) zs)
      (editDistance xs zs) (editDistance xs (y :: ys))
      (editDistance (x :: xs) ys) (editDistance xs ys)
      (editDistance ys (z :: zs)) (editDistance (y :: ys) zs)
      (editDistance ys zs).
    clear. unfold min3. intros. lia.
Qed.

Lemma editDistance_triangle (xs ys zs : list ascii) :
  editDistance xs zs ≤ editDistance xs ys + editDistance ys zs.
Proof. by eapply editDistance_triangle_bounded. Qed.

(** X1: the distance of two strings is 0 exactly when they are equal up
    to letter case. For two strings that are not empty it lies between
    the difference and the greater of the lengths that the strings have in
    lower case, which are the dimensions of the matrix. *)
Theorem levenshtein_zero_and_bounds (a b : string) :
  (levenshtein a b = 0 ↔ toLowerCase a = toLowerCase b)
  ∧ (a ≠ "" → b ≠ "" →
       strlen (toLowerCase a) - strlen (toLowerCase b) ≤ levenshtein a b
       ∧ strlen (toLowerCase b) - strlen (toLowerCase a) ≤ levenshtein a b
       ∧ levenshtein a b
         ≤ strlen (toLowerCase a) `max` strlen (toLowerCase b)).
Proof.
  rewrite levenshtein_correct. unfold strlen. split.
  - split; [intros H%editDistance_zero; by apply chars_inj|].
    intros ->. apply editDistance_diag.
  - intros _ _. split; [apply editDistance_ge_diff|].
    split; [apply editDistance_ge_diff | apply editDistance_le_max].
Qed.

Lemma levenshtein_zero_and_bounds_witness :
  4 ≤ levenshtein "Kitchen" "Kit" ∧ levenshtein "Kitchen" "Kit" ≤ 7.
Proof.
  destruct (levenshtein_zero_and_bounds "Kitchen" "Kit") as [_ Hb].
  destruct Hb as (Hlow & _ & Hup); [done | done |].
  split; [exact Hlow | exact Hup].
Defined.

(** X2: the distances between three strings that are not empty satisfy
    the triangle inequality. *)
Theorem levenshtein_triangle (a b c : string) :
  a ≠ "" → b ≠ "" → c ≠ "" →
  levenshtein a c ≤ levenshtein a b + levenshtein b c.
Proof. intros _ _ _. rewrite !levenshtein_correct. apply editDistance_triangle. Qed.

Lemma levenshtein_triangle_witness :
  levenshtein "Kitten" "SETTING"
  ≤ levenshtein "Kitten" "sitting" + levenshtein "sitting" "SETTING".
Proof. by apply (levenshtein_triangle "Kitten" "sitting" "SETTING"). Defined.

(** ** What the score does not see, and when it is 0 *)

Lemma dropSpaces_snoc (l : list ascii) (c : ascii) :
  isSpace c = false → dropSpaces (l ++ [c]) = dropSpaces l ++ [c].
Proof.
  intros Hc. induction l as [|d l IH]; simpl; [by rewrite Hc|].
  by destruct (isSpace d).
Qed.

Lemma dropSpaces_head (l : list ascii) :
  match dropSpaces l with [] => True | c :: _ => isSpace c = false end.
Proof.
  induction l as [|d l IH]; simpl; [done|].
  by destruct (isSpace d) eqn:Hd.
Qed.

Lemma dropSpaces_clean (l : list ascii) :
  match l with [] => True | c :: _ => isSpace c = false end →
  dropSpaces l = l.
Proof. destruct l as [|c l]; simpl; [done|]. by intros ->. Qed.

Lemma trimChars_idemp (l : list ascii) : trimChars (trimChars l) = trimChars l.
Proof.
  unfold trimChars.
  pose proof (dropSpaces_head l) as Hx. revert Hx.
  generalize (dropSpaces l). intros X HX.
  assert (match rev (dropSpaces (rev X)) with
          | [] => True | c :: _ => isSpace c = false end) as HT.
  { destruct X as [|c X]; [done|]. simpl.
    by rewrite dropSpaces_snoc, rev_app_distr. }
  rewrite (dropSpaces_clean _ HT), rev_involutive.
  rewrite (dropSpaces_clean (dropSpaces (rev X))); [done|].
  apply dropSpaces_head.
Qed.

Lemma trim_idemp (s : string) : trim (trim s) = trim s.
Proof.
  unfold trim. by rewrite chars_ofChars, trimChars_idemp.
Qed.

(** X3: the score does not depend on the letter case of its arguments nor
    on white space around them. *)
Theorem scoreMatch_normalizes (query target : string) :
  scoreMatch (trim query) target = scoreMatch query target
  ∧ scoreMatch query (trim target) = scoreMatch query target
  ∧ scoreMatch (toLowerCase query) target = scoreMatch query target
  ∧ scoreMatch query (toLowerCase target) = scoreMatch query target.
Proof.
  unfold scoreMatch.
  by rewrite !trim_idemp, !trim_toLowerCase, !toLowerCase_idemp.
Qed.

Lemma jsDivNat_positive (d n : nat) :
  0 < d → 0 < n → jsLe (jsDivNat d n) (Num 0) = false.
Proof.
  intros Hd Hn. unfold jsDivNat, jsLe.
  assert (0 < inject_Z (Z.of_nat d) / inject_Z (Z.of_nat n))%Q as Hpos.
  { apply Qlt_shift_div_l.
    - change 0%Q with (inject_Z 0). rewrite <- Zlt_Qlt. lia.
    - rewrite Qmult_0_l. change 0%Q with (inject_Z 0). rewrite <- Zlt_Qlt. lia. }
  destruct (Qcompare_spec (inject_Z (Z.of_nat d) / inject_Z (Z.of_nat n)) 0);
    [lra | lra | done].
Qed.

Lemma jsDivNat_nonneg (d n : nat) :
  0 < n → jsLe (Num 0) (jsDivNat d n) = true.
Proof.
  intros Hn. unfold jsDivNat, jsLe.
  assert (0 <= inject_Z (Z.of_nat d) / inject_Z (Z.of_nat n))%Q as Hpos.
  { apply Qle_shift_div_l.
    - change 0%Q with (inject_Z 0). rewrite <- Zlt_Qlt. lia.
    - rewrite Qmult_0_l. change 0%Q with (inject_Z 0). rewrite <- Zle_Qle. lia. }
  destruct (Qcompare_spec 0 (inject_Z (Z.of_nat d) / inject_Z (Z.of_nat n)));
    [done | done | lra].
Qed.

Lemma includes_refl (s : string) : includes s s = true.
Proof.
  apply includes_spec. exists "", "". apply chars_inj.
  by rewrite !chars_append, app_nil_r.
Qed.

(** X4: a score is never negative; it is finite exactly when neither
    argument is blank; and it is 0 exactly when, trimmed and in lower
    case, both are non-empty and the candidate contains the query. *)
Theorem scoreMatch_zero_iff (query target : string) :
  let q := toLowerCase (trim query) in
  let t := toLowerCase (trim target) in
  jsLe (Num 0) (scoreMatch query target) = true
  ∧ (isFinite (scoreMatch query target) = true ↔
       ¬ isBlank query ∧ ¬ isBlank target)
  ∧ (jsEq (scoreMatch query target) (Num 0) = true ↔
       q ≠ "" ∧ t ≠ "" ∧ ∃ pre post, t = pre +:+ q +:+ post).
Proof.
  intros q t.
  assert (isEmptyStr q = true ↔ isBlank query) as Hq.
  { unfold q. by rewrite isEmptyStr_toLowerCase, isEmptyStr_true, trim_blank. }
  assert (isEmptyStr t = true ↔ isBlank target) as Ht.
  { unfold t. by rewrite isEmptyStr_toLowerCase, isEmptyStr_true, trim_blank. }
  rewrite <- includes_spec, <- !isEmptyStr_false.
  unfold scoreMatch. fold q t.
  destruct (isEmptyStr q) eqn:Eq; simpl.
  { split; [done|]. split; [split; [done | intros [H _]; destruct H; by apply Hq]|].
    split; [done | by intros [? _]]. }
  destruct (isEmptyStr t) eqn:Et; simpl.
  { split; [done|]. split; [split; [done | intros [_ H]; destruct H; by apply Ht]|].
    split; [done | by intros (_ & ? & _)]. }
  assert (¬ isBlank query ∧ ¬ isBlank target) as Hnb.
  { split; intros H; [apply Hq in H | apply Ht in H]; done. }
  destruct (includes t q) eqn:Hin.
  { split; [done|]. split; [done|]. done. }
  assert (0 < strlen t `max` 1) as Hlen by lia.
  assert (0 < levenshtein q t) as Hdist.
  { destruct (levenshtein q t) eqn:Hd; [|lia].
    rewrite levenshtein_correct in Hd.
    apply editDistance_zero, chars_inj in Hd.
    unfold q, t in Hd. rewrite !toLowerCase_idemp in Hd. fold q t in Hd.
    rewrite Hd, includes_refl in Hin. done. }
  split; [by apply jsDivNat_nonneg|]. split; [done|].
  split; [|by intros (_ & _ & ?)].
  intros [Hle _]%jsEq_le. by rewrite jsDivNat_positive in Hle.
Qed.

Lemma scoreMatch_zero_iff_witness :
  jsEq (scoreMatch " Chick " "Roast CHICKEN") (Num 0) = true.
Proof.
  apply (scoreMatch_zero_iff " Chick " "Roast CHICKEN").
  split; [done|]. split; [done|]. by exists "roast ", "en".
Defined.

(** ** More on suggestions *)

Lemma scoreMatch_nonneg (query target : string) :
  jsLe (Num 0) (scoreMatch query target) = true.
Proof.
  unfold scoreMatch.
  destruct (isEmptyStr _ || isEmptyStr _); [done|].
  destruct (includes _ _); [done|]. apply jsDivNat_nonneg. lia.
Qed.

(** A sorted list begins with the elements of a property that passes
    from an element to every smaller one. *)
Lemma StronglySorted_filter_split {A} (R : relation A) (P : A → Prop)
    `{∀ x, Decision (P x)} (l : list A) :
  (∀ x y, R x y → P y → P x) →
  StronglySorted R l →
  l = filter P l ++ filter (λ x, ¬ P x) l.
Proof.
  intros Hdown. induction 1 as [|x l Hs IH Hx]; [done|].
  rewrite !filter_cons. destruct (decide (P x)) as [HP|HP].
  - rewrite decide_False by tauto. simpl. by rewrite <- IH.
  - rewrite decide_True by done.
    rewrite (filter_none P l); [simpl; f_equal|].
    + rewrite IH at 1. by rewrite (filter_none P l), app_nil_l
        by (intros y Hy ?; apply HP, (Hdown x y);
            [by apply (proj1 (Forall_forall _ _) Hx)|done]).
    + intros y Hy ?. apply HP, (Hdown x y); [|done].
      by apply (proj1 (Forall_forall _ _) Hx).
Qed.

(** X5: the suggestions are pairwise distinct when the candidates are, as
    those of the source list are; none of them is blank. *)
Theorem getSuggestions_distinct (s : AppState) (w : world) (query : string)
    (pool : list string) :
  (NoDup pool → NoDup (suggest query pool))
  ∧ NoDup (getSuggestions s w query)
  ∧ (∀ x, x ∈ suggest query pool → ¬ isBlank x)
  ∧ (∀ x, x ∈ getSuggestions s w query → ¬ isBlank x).
Proof.
  assert (∀ l, NoDup l → NoDup (suggest query l)) as Hnd.
  { intros l Hl. rewrite suggest_unfold.
    eapply sublist_NoDup; [|apply sublist_take].
    rewrite sortBy_perm. by apply NoDup_filter. }
  assert (∀ l x, x ∈ suggest query l → ¬ isBlank x) as Hnb.
  { intros l x Hx Hblank. rewrite suggest_unfold in Hx.
    apply subseteq_take in Hx.
    rewrite sortBy_perm in Hx. apply list_elem_of_filter in Hx as [Hfin _].
    by rewrite (scoreMatch_blank_r query x Hblank) in Hfin. }
  split; [apply Hnd|]. split; [|split; [apply Hnb|]].
  - unfold getSuggestions. destruct (_ || _); [constructor|].
    apply Hnd, buildSourceList_spec.
  - unfold getSuggestions. destruct (_ || _); [by intros x ?%elem_of_nil|].
    apply Hnb.
Qed.

Lemma getSuggestions_distinct_witness :
  NoDup (suggest "pi" ["pizza"; "pie"; "pilaf"; "rice"]).
Proof.
  apply (getSuggestions_distinct initialApp initialWorld "pi"
           ["pizza"; "pie"; "pilaf"; "rice"]).
  repeat constructor; set_solver.
Defined.

(** X6: the candidates that contain the query, which are those of score
    0, come first among the suggestions, in the order of the pool: the
    suggestions begin with the first six of them. *)
Theorem suggest_matches_first (query : string) (pool : list string) :
  let matches := filter (λ c, jsEq (scoreMatch query c) (Num 0) = true) pool in
  take 6 matches `prefix_of` suggest query pool
  ∧ (length matches ≤ 6 → ∀ c, c ∈ matches → c ∈ suggest query pool)
  ∧ (6 ≤ length matches → suggest query pool = take 6 matches).
Proof.
  intros matches. rewrite suggest_unfold.
  set (score := scoreMatch query).
  set (cands := filter (λ s, isFinite (score s) = true) pool).
  set (sorted := sortBy (byKey score) cands).
  assert (filter (λ c, jsEq (score c) (Num 0) = true) sorted = matches) as Hz.
  { unfold sorted. rewrite (sortBy_stable score (scoreMatch_isScore query)).
    unfold cands, matches. rewrite list_filter_filter. apply list_filter_iff.
    intros c. split; [naive_solver|]. intros Hc. split; [done|].
    fold score in Hc. by destruct (score c). }
  assert (sorted = matches ++ filter (λ c, ¬ jsEq (score c) (Num 0) = true) sorted)
    as Hsplit.
  { rewrite <- Hz.
    apply (StronglySorted_filter_split
             (λ x y, jsLe (score x) (score y) = true)).
    - intros x y Hxy [Hy _]%jsEq_le.
      apply jsLe_antisym; [apply scoreMatch_isScore | |apply scoreMatch_nonneg].
      by eapply jsLe_trans.
    - apply (sortBy_sorted score (scoreMatch_isScore query)). }
  assert (take 6 matches `prefix_of` take 6 sorted) as Hpre.
  { rewrite Hsplit, take_app. by eexists. }
  split; [done|]. split.
  - intros Hlen c Hc. destruct Hpre as [k ->].
    rewrite take_ge by done. apply elem_of_app. by left.
  - intros Hlen. rewrite Hsplit. by rewrite take_app_le.
Qed.

Lemma suggest_matches_first_witness :
  "Chicken Pie" ∈ suggest "pi" ["Chicken Pie"; "rice"; "pizza"].
Proof.
  destruct (suggest_matches_first "pi" ["Chicken Pie"; "rice"; "pizza"])
    as (_ & H & _).
  apply H; vm_compute; [lia | by left].
Defined.

(** ** More on deduplication and intersection *)

Lemma filter_ext_in {A} (P Q : A → Prop) `{∀ x, Decision (P x)}
    `{∀ x, Decision (Q x)} (l : list A) :
  (∀ x, x ∈ l → P x ↔ Q x) → filter P l = filter Q l.
Proof.
  induction l as [|x l IH]; intros Hl; [done|].
  rewrite !filter_cons, IH by (intros y Hy; apply Hl; by right).
  pose proof (Hl x (list_elem_of_here _ _)) as Hx.
  destruct (decide (P x)) as [HP|HP], (decide (Q x)) as [HQ|HQ];
    try done; tauto.
Qed.

Lemma dedupeStep_keys (merged : list meal) (acc : list (string * meal)) :
  (foldl dedupeStep acc merged).*1 = foldl setAdd acc.*1 (idMeal <$> merged).
Proof.
  revert acc. induction merged as [|m merged IH]; intros acc; [done|].
  rewrite fmap_cons. cbn [foldl]. rewrite IH. unfold dedupeStep.
  by rewrite mapSet_keys.
Qed.

Lemma dedupeStep_get (merged : list meal) (acc : list (string * meal))
    (k : string) :
  mapGet k (foldl dedupeStep acc merged) =
    match last (filter (λ x, idMeal x = k) merged) with
    | Some m => Some m
    | None => mapGet k acc
    end.
Proof.
  revert acc. induction merged as [|m merged IH]; intros acc; [done|].
  cbn [foldl]. rewrite IH, filter_cons. unfold dedupeStep. rewrite mapGet_set.
  destruct (decide (idMeal m = k)) as [Hk|Hk].
  - rewrite bool_decide_eq_true_2 by done.
    destruct (filter (λ x, idMeal x = k) merged) as [|x l] eqn:Hf; [done|].
    change (last (m :: x :: l)) with (last (x :: l)).
    destruct (last (x :: l)) eqn:Hl; [done|]. by apply last_None in Hl.
  - by rewrite bool_decide_eq_false_2 by done.
Qed.

Lemma mapGet_elem_of {V} (m : list (string * V)) (k : string) (v : V) :
  NoDup m.*1 → (k, v) ∈ m → mapGet k m = Some v.
Proof.
  induction m as [|[k' v'] m IH]; intros Hnd Hin; [by apply elem_of_nil in Hin|].
  rewrite fmap_cons in Hnd. apply NoDup_cons in Hnd as [Hk' Hnd]. simpl.
  apply elem_of_cons in Hin as [[= -> ->]|Hin].
  - by rewrite bool_decide_eq_true_2.
  - rewrite bool_decide_eq_false_2; [by apply IH|].
    intros ->. apply Hk'. apply list_elem_of_fmap. by exists (k', v).
Qed.

(** X7: deduplication by id keeps the ids in the order in which they are
    first seen, with the last record of each id; a second deduplication
    changes nothing. *)
Theorem dedupeById_first_seen_last_wins (merged : list meal) :
  idMeal <$> dedupeById merged = foldl setAdd [] (idMeal <$> merged)
  ∧ (∀ m, m ∈ dedupeById merged →
       last (filter (λ x, idMeal x = idMeal m) merged) = Some m)
  ∧ dedupeById (dedupeById merged) = dedupeById merged.
Proof.
  destruct (dedupeStep_inv merged []) as (Hnd & Hid & _ & _);
    [constructor | constructor |]. cbn zeta in *.
  split; [|split].
  - unfold dedupeById, mapValues.
    by rewrite (fmap_id_of_values _ Hid), dedupeStep_keys.
  - intros m Hm. unfold dedupeById, mapValues in Hm.
    apply list_elem_of_fmap in Hm as ([k v] & -> & Hkv). simpl.
    pose proof (proj1 (Forall_forall _ _) Hid _ Hkv) as Hk. simpl in Hk.
    pose proof (mapGet_elem_of _ _ _ Hnd Hkv) as Hget.
    rewrite dedupeStep_get in Hget. rewrite Hk.
    by destruct (last (filter (λ x, idMeal x = k) merged)).
  - apply dedupeById_NoDup, dedupeById_spec.
Qed.

Lemma dedupeById_first_seen_last_wins_witness :
  let old := Meal "1" "Curry (old)" "" in
  let new := Meal "1" "Curry (new)" "" in
  let pie := Meal "2" "Pie" "" in
  last (filter (λ x, idMeal x = idMeal new) [old; pie; new]) = Some new.
Proof.
  intros old new pie.
  apply (dedupeById_first_seen_last_wins [old; pie; new]).
  vm_compute. by left.
Defined.

(** X8: the intersection of a first list with any number of further
    lists consists of the meals of the first list whose id occurs in every
    further list, in their order; the order of the further lists does not
    matter, a further list can only remove meals, and a list intersected
    with itself is unchanged. *)
Theorem intersectById_all (first : list meal) (rest : list (list meal)) :
  (∀ m, m ∈ intersectById (first :: rest) ↔
        m ∈ first ∧ ∀ l, l ∈ rest → idMeal m ∈ idMeal <$> l)
  ∧ intersectById (first :: rest) `sublist_of` first
  ∧ (∀ rest', rest ≡ₚ rest' →
       intersectById (first :: rest') = intersectById (first :: rest))
  ∧ (∀ l, intersectById (first :: rest ++ [l])
          `sublist_of` intersectById (first :: rest))
  ∧ intersectById (first :: first :: rest) = intersectById (first :: rest).
Proof.
  split; [|split; [|split; [|split]]].
  - intros m. rewrite intersectById_cons, list_elem_of_filter, Forall_forall.
    naive_solver.
  - rewrite intersectById_cons. apply sublist_filter.
  - intros rest' Hperm. rewrite !intersectById_cons. apply list_filter_iff.
    intros m. by rewrite Hperm.
  - intros l. rewrite !intersectById_cons.
    assert (filter (λ m, Forall (λ l0, idMeal m ∈ idMeal <$> l0) (rest ++ [l]))
              first
            = filter (λ m, Forall (λ l0, idMeal m ∈ idMeal <$> l0) (rest ++ [l]))
                (filter (λ m, Forall (λ l0, idMeal m ∈ idMeal <$> l0) rest)
                   first)) as ->; [|apply sublist_filter].
    rewrite list_filter_filter. apply list_filter_iff.
    intros m. rewrite Forall_app. tauto.
  - rewrite !intersectById_cons. apply filter_ext_in.
    intros m Hm. rewrite Forall_cons. split; [tauto|]. intros Hrest.
    split; [|done]. by apply list_elem_of_fmap_2.
Qed.

Lemma intersectById_all_witness :
  let a := [Meal "1" "Curry" ""; Meal "2" "Pie" ""; Meal "3" "Stew" ""] in
  let b := [Meal "2" "Pie" ""; Meal "3" "Stew" ""] in
  let c := [Meal "3" "Stew" ""; Meal "1" "Curry" ""] in
  intersectById [a; c; b] = intersectById [a; b; c].
Proof.
  intros a b c.
  destruct (intersectById_all a [b; c]) as (_ & _ & H & _).
  apply (H [c; b]). apply Permutation_swap.
Defined.

(** ** Favorites *)

Lemma toggleFav_in (id : string) (favorites : list string) :
  id ∈ favorites → toggleFav id favorites = filter (λ x, x ≠ id) favorites.
Proof. intros Hid. unfold toggleFav. by rewrite bool_decide_eq_true_2. Qed.

Lemma toggleFav_notin (id : string) (favorites : list string) :
  id ∉ favorites → toggleFav id favorites = favorites ++ [id].
Proof. intros Hid. unfold toggleFav. by rewrite bool_decide_eq_false_2. Qed.

(** X9: toggling an id turns it from favorite to not and back, and does
    not touch whether any other id is a favorite. *)
Theorem toggleFav_membership (id : string) (favorites : list string) :
  isFav (toggleFav id favorites) id = negb (isFav favorites id)
  ∧ ∀ id', id' ≠ id → isFav (toggleFav id favorites) id' = isFav favorites id'.
Proof.
  unfold isFav. destruct (decide (id ∈ favorites)) as [Hid|Hid].
  - rewrite toggleFav_in, (bool_decide_eq_true_2 (id ∈ favorites)) by done.
    split.
    + apply bool_decide_eq_false_2. rewrite list_elem_of_filter. tauto.
    + intros id' Hne. apply bool_decide_ext. rewrite list_elem_of_filter. tauto.
  - rewrite toggleFav_notin, (bool_decide_eq_false_2 (id ∈ favorites)) by done.
    split.
    + apply bool_decide_eq_true_2. set_solver.
    + intros id' Hne. apply bool_decide_ext. set_solver.
Qed.

Lemma toggleFav_membership_witness :
  isFav (toggleFav "52772" ["52772"; "52804"]) "52804" = true.
Proof. by apply (toggleFav_membership "52772" ["52772"; "52804"]). Defined.

(** X10: toggling keeps a list of favorites free of duplicates; removing
    a favorite removes every occurrence and keeps the order of the rest;
    adding an id and removing it again gives back the list. *)
Theorem toggleFav_list (id : string) (favorites : list string) :
  (NoDup favorites → NoDup (toggleFav id favorites))
  ∧ (id ∈ favorites →
       (toggleFav id favorites `sublist_of` favorites)
       ∧ (id ∉ toggleFav id favorites)
       ∧ toggleFav id (toggleFav id favorites) = toggleFav id favorites ++ [id])
  ∧ (id ∉ favorites →
       toggleFav id favorites = favorites ++ [id]
       ∧ toggleFav id (toggleFav id favorites) = favorites).
Proof.
  destruct (decide (id ∈ favorites)) as [Hid|Hid].
  - rewrite (toggleFav_in id favorites Hid).
    split; [intros ?; by apply NoDup_filter|]. split; [|done]. intros _.
    assert (id ∉ filter (λ x, x ≠ id) favorites) as Hno
      by (rewrite list_elem_of_filter; tauto).
    split; [apply sublist_filter|]. split; [done|].
    by apply toggleFav_notin.
  - rewrite (toggleFav_notin id favorites Hid). split.
    { intros Hnd. apply NoDup_app. split; [done|].
      split; [|apply NoDup_singleton].
      by intros x Hx ->%list_elem_of_singleton. }
    split; [done|]. intros _. split; [done|].
    rewrite toggleFav_in by set_solver.
    rewrite filter_app, filter_cons_False, filter_nil, app_nil_r by tauto.
    clear -Hid. induction favorites as [|x l IH]; [done|].
    apply not_elem_of_cons in Hid as [Hne Hid].
    rewrite filter_cons_True by done. by rewrite IH.
Qed.

Lemma toggleFav_list_witness :
  toggleFav "52772" (toggleFav "52772" ["52804"; "52940"]) = ["52804"; "52940"].
Proof.
  apply (toggleFav_list "52772" ["52804"; "52940"]). set_solver.
Defined.

(** ** Pages *)

(** [Math.ceil(n / d)] is the least number of pages of [d] items that
    hold [n] items. *)
Lemma ceilDiv_spec (n d : nat) :
  0 < d →
  n ≤ ceilDiv n d * d ∧ ∀ k, n ≤ k * d → ceilDiv n d ≤ k.
Proof.
  intros Hd. unfold ceilDiv.
  set (x := (inject_Z (Z.of_nat n) / inject_Z (Z.of_nat d))%Q).
  assert (0 < inject_Z (Z.of_nat d))%Q as HdQ.
  { change 0%Q with (inject_Z 0). rewrite <- Zlt_Qlt. lia. }
  assert (x * inject_Z (Z.of_nat d) == inject_Z (Z.of_nat n))%Q as Hx.
  { unfold x. field. lra. }
  pose proof (Qle_ceiling x) as Hup.
  pose proof (Qceiling_lt x) as Hlow.
  assert (0 <= Qceiling x)%Z as Hc0.
  { assert (0 <= x)%Q as H3.
    { unfold x. apply Qle_shift_div_l; [done|]. rewrite Qmult_0_l.
      change 0%Q with (inject_Z 0). rewrite <- Zle_Qle. lia. }
    assert (inject_Z 0 <= inject_Z (Qceiling x))%Q as H4
      by (change (inject_Z 0) with 0%Q; lra).
    by rewrite <- Zle_Qle in H4. }
  split.
  - apply Nat2Z.inj_le. rewrite Nat2Z.inj_mul, Z2Nat.id by done.
    rewrite Zle_Qle, inject_Z_mult, <- Hx.
    apply Qmult_le_compat_r; [done | lra].
  - intros k Hk. apply Nat2Z.inj_le. rewrite Z2Nat.id by done.
    apply Nat2Z.inj_le in Hk. rewrite Nat2Z.inj_mul in Hk.
    rewrite Zle_Qle, inject_Z_mult, <- Hx in Hk.
    apply Qmult_le_r in Hk; [|done].
    assert (inject_Z (Qceiling x - 1) < inject_Z (Z.of_nat k))%Q as Hlt by lra.
    rewrite <- Zlt_Qlt in Hlt. lia.
Qed.

Lemma totalPages_spec (results : list meal) :
  1 ≤ totalPages results
  ∧ length results ≤ totalPages results * PAGE_SIZE
  ∧ (totalPages results - 1) * PAGE_SIZE < length results `max` 1.
Proof.
  unfold totalPages.
  destruct (ceilDiv_spec (length results) PAGE_SIZE) as [Hup Hleast];
    [unfold PAGE_SIZE; lia|].
  split; [lia|]. split; [unfold PAGE_SIZE in *; lia|].
  destruct (decide (ceilDiv (length results) PAGE_SIZE ≤ 1)) as [|Hbig];
    [unfold PAGE_SIZE in *; lia|].
  destruct (decide ((ceilDiv (length results) PAGE_SIZE - 1) * PAGE_SIZE
                    < length results)) as [|Hge]; [unfold PAGE_SIZE in *; lia|].
  specialize (Hleast (ceilDiv (length results) PAGE_SIZE - 1)).
  unfold PAGE_SIZE in *. lia.
Qed.

Lemma sortedResults_perm (localeCompare : string → string → jsnum)
    (sort : string) (results : list meal) :
  sortedResults localeCompare sort results ≡ₚ results.
Proof.
  unfold sortedResults. repeat case_bool_decide; by rewrite ?sortBy_perm.
Qed.

Lemma pageItems_shift (p : nat) (sorted : list meal) :
  1 ≤ p → pageItems (S p) sorted = pageItems p (drop PAGE_SIZE sorted).
Proof.
  intros Hp. unfold pageItems, slice. rewrite drop_drop.
  f_equal; [lia|]. f_equal. destruct p; [lia|]. simpl. lia.
Qed.

Lemma pages_concat (k : nat) (sorted : list meal) :
  length sorted ≤ k * PAGE_SIZE →
  mjoin ((λ p, pageItems p sorted) <$> seq 1 k) = sorted.
Proof.
  revert sorted. induction k as [|k IH]; intros sorted Hlen.
  - simpl in *. by destruct sorted; [|simpl in Hlen; lia].
  - cbn [seq]. rewrite fmap_cons, <- fmap_S_seq, <- list_fmap_compose.
    cbn [mjoin list_join].
    assert ((λ p, pageItems p sorted) ∘ S <$> seq 1 k
            = (λ p, pageItems p (drop PAGE_SIZE sorted)) <$> seq 1 k) as ->.
    { apply list_fmap_ext. intros i p [-> _]%lookup_seq. simpl.
      apply pageItems_shift. lia. }
    rewrite IH by (rewrite length_drop; lia).
    unfold pageItems, slice. simpl.
    replace (PAGE_SIZE - 0) with PAGE_SIZE by lia.
    apply take_drop.
Qed.

(** X11: whatever the sort order, the sorted list is a rearrangement of
    the results, and the pages 1 to [totalPages] hold it in order, each
    item on one page, at most 12 items on a page. *)
Theorem pages_partition (localeCompare : string → string → jsnum)
    (sort : string) (results : list meal) :
  let sorted := sortedResults localeCompare sort results in
  sorted ≡ₚ results
  ∧ mjoin ((λ p, pageItems p sorted) <$> seq 1 (totalPages results)) = sorted
  ∧ ∀ p, length (pageItems p sorted) ≤ PAGE_SIZE.
Proof.
  intros sorted.
  pose proof (sortedResults_perm localeCompare sort results) as Hperm.
  split; [done|]. split.
  - apply pages_concat. fold sorted in Hperm. rewrite Hperm.
    apply totalPages_spec.
  - intros p. unfold pageItems, slice. rewrite length_take. lia.
Qed.

(** X12: with results at hand every page from 1 to [totalPages] shows
    something, and a page beyond shows nothing; Previous and Next move by
    at most one page and stay within 1 and [totalPages]. *)
Theorem pages_in_range (localeCompare : string → string → jsnum)
    (sort : string) (results : list meal) (p : nat) :
  let sorted := sortedResults localeCompare sort results in
  let total := totalPages results in
  (1 ≤ p ≤ total → results ≠ [] → pageItems p sorted ≠ [])
  ∧ (total < p → pageItems p sorted = [])
  ∧ (1 ≤ p ≤ total →
       1 ≤ previousPage p ≤ total ∧ 1 ≤ nextPage total p ≤ total
       ∧ previousPage p ≤ p ≤ nextPage total p
       ∧ p - previousPage p ≤ 1 ∧ nextPage total p - p ≤ 1).
Proof.
  intros sorted total.
  assert (length sorted = length results) as Hlen
    by (unfold sorted; by rewrite sortedResults_perm).
  destruct (totalPages_spec results) as (H1 & Hup & Hlow). fold total in H1, Hup, Hlow.
  split; [|split].
  - intros Hp Hne Hpage.
    apply (f_equal length) in Hpage. unfold pageItems, slice in Hpage.
    rewrite length_take, length_drop, Hlen in Hpage. simpl in Hpage.
    assert (0 < length results) by (destruct results; [done | simpl; lia]).
    assert ((p - 1) * PAGE_SIZE ≤ (total - 1) * PAGE_SIZE)
      by (apply Nat.mul_le_mono_r; lia).
    unfold PAGE_SIZE in *. lia.
  - intros Hp. unfold pageItems, slice. rewrite drop_ge; [by rewrite take_nil|].
    rewrite Hlen.
    assert (total * PAGE_SIZE ≤ (p - 1) * PAGE_SIZE)
      by (apply Nat.mul_le_mono_r; lia).
    lia.
  - unfold previousPage, nextPage. lia.
Qed.

Lemma pages_in_range_witness :
  let results := (λ i, Meal (pretty i) "Meal" "") <$> seq 0 13 in
  pageItems 2 (sortedResults (λ _ _, Num 0) "name-asc" results) ≠ [].
Proof.
  intros results.
  apply (pages_in_range (λ _ _, Num 0) "name-asc" results 2).
  - vm_compute. lia.
  - done.
Defined.

(** ** Handlers on the search state *)

Lemma pageItems_first (sorted : list meal) :
  sorted ≠ [] → pageItems 1 sorted ≠ [].
Proof. by destruct sorted. Qed.

Lemma sortedResults_nil (localeCompare : string → string → jsnum)
    (sort : string) (results : list meal) :
  sortedResults localeCompare sort results = [] ↔ results = [].
Proof.
  pose proof (sortedResults_perm localeCompare sort results) as Hp.
  split; intros H.
  - rewrite H in Hp. by apply Permutation_nil in Hp.
  - subst results. by apply Permutation_nil_r in Hp.
Qed.

(** X13: the button "Surprise me" replaces the results by the meals of
    the response, or on a failure keeps them and reports the failure; it
    marks the state as searched and ends not loading. It does not go back
    to the first page: pressed on a later page, with a response of at most
    one page of meals, it leaves a page that shows none of them. *)
Theorem surpriseMe_outcome (r : response) (s : AppState) :
  let s' := surpriseMe r s in
  page s' = page s ∧ hasSearched s' = true ∧ loading s' = false
  ∧ timers s' = timers s
  ∧ (r = NetworkError →
       results s' = results s ∧ error s' = randomFailedMessage)
  ∧ (∀ d, r = Json d → results s' = default [] d ∧ error s' = "")
  ∧ (∀ d localeCompare sort,
       r = Json d → length (default [] d) ≤ PAGE_SIZE → 2 ≤ page s →
       pageItems (page s') (sortedResults localeCompare sort (results s')) = []).
Proof.
  intros s'. unfold s', surpriseMe.
  destruct r as [|d]; cbn.
  - split_and!; done.
  - split_and!; try done; try (by intros ? [= ->]).
    intros d' lc sort [= <-] Hlen Hp.
    unfold pageItems, slice. rewrite drop_ge; [by rewrite take_nil|].
    rewrite sortedResults_perm.
    assert (1 * PAGE_SIZE ≤ (page s - 1) * PAGE_SIZE)
      by (apply Nat.mul_le_mono_r; lia).
    lia.
Qed.

Lemma surpriseMe_outcome_witness :
  let s := setPage 2 initialApp in
  let s' := surpriseMe (Json (Some [Meal "1" "Soup" ""])) s in
  results s' = [Meal "1" "Soup" ""]
  ∧ pageItems (page s') (sortedResults (λ _ _, Num 0) "" (results s')) = [].
Proof.
  intros s s'.
  destruct (surpriseMe_outcome (Json (Some [Meal "1" "Soup" ""])) s)
    as (_ & _ & _ & _ & _ & Hres & Hpage).
  split.
  - by apply (Hres (Some [Meal "1" "Soup" ""])).
  - apply (Hpage (Some [Meal "1" "Soup" ""])); [done | vm_compute; lia | simpl; lia].
Defined.

(** X14: however a search ends, it ends on page 1, not loading, marked as
    searched and with the suggestion list closed; the input, the selected
    filters, the option lists and the trending list are as before. So
    when the state holds results, the page shown is not empty. *)
Theorem handleSearch_resets (net : network) (term : option string)
    (s : AppState) (w : world) :
  let s' := (handleSearch net term s w).1 in
  page s' = 1 ∧ loading s' = false ∧ hasSearched s' = true
  ∧ showSuggestions s' = false
  ∧ ingredientInput s' = ingredientInput s
  ∧ selectedCategory s' = selectedCategory s
  ∧ selectedArea s' = selectedArea s
  ∧ categories s' = categories s ∧ areas s' = areas s
  ∧ trending s' = trending s
  ∧ ∀ localeCompare sort,
      results s' ≠ [] →
      pageItems (page s') (sortedResults localeCompare sort (results s')) ≠ [].
Proof.
  intros s'.
  assert (page s' = 1 ∧ loading s' = false ∧ hasSearched s' = true
          ∧ showSuggestions s' = false
          ∧ ingredientInput s' = ingredientInput s
          ∧ selectedCategory s' = selectedCategory s
          ∧ selectedArea s' = selectedArea s
          ∧ categories s' = categories s ∧ areas s' = areas s
          ∧ trending s' = trending s) as H.
  { unfold s'. rewrite handleSearch_unfold. cbn zeta.
    destruct (gatherLists net s _ w) as [[lists|] w1]; cbn [fst]; [|done].
    case_bool_decide; [|done].
    destruct (reportEmpty_cases (default (ingredientInput s) term)
      (setResults (dedupeById (mergeLists s lists)) (searching s)) w1)
      as [(best & _ & _ & _ & ->) | [_ ->]]; done. }
  destruct H as (Hp & H). repeat split; try apply H; [done|].
  intros lc sort Hne. rewrite Hp. apply pageItems_first.
  by rewrite sortedResults_nil.
Qed.

Lemma handleSearch_resets_witness :
  let s := setPage 3 initialApp in
  let net : network := λ _ _, Json (Some [Meal "1" "Soup" ""]) in
  let s' := (handleSearch net (Some "leek") s initialWorld).1 in
  pageItems (page s') (sortedResults (λ _ _, Num 0) "" (results s')) ≠ [].
Proof.
  intros s net s'.
  destruct (handleSearch_resets net (Some "leek") s initialWorld)
    as (_ & _ & _ & _ & _ & _ & _ & _ & _ & _ & H).
  apply H. by vm_compute.
Defined.

Lemma gatherLists_filters (net : network) (s1 s2 : AppState) (queryTerm : string) :
  selectedCategory s1 = selectedCategory s2 →
  selectedArea s1 = selectedArea s2 →
  gatherLists net s1 queryTerm = gatherLists net s2 queryTerm.
Proof. intros Hc Ha. unfold gatherLists. by rewrite Hc, Ha. Qed.

Lemma reportEmpty_input (queryTerm x : string) (s : AppState) (w : world) :
  reportEmpty queryTerm (setIngredientInput x s) w
  = setIngredientInput x (reportEmpty queryTerm s w).
Proof.
  unfold reportEmpty.
  change (buildSourceList (setIngredientInput x s) w) with (buildSourceList s w).
  destruct (bestCorrection queryTerm (buildSourceList s w)) as [best|]; [|done].
  by destruct (_ && _).
Qed.

Lemma handleSearch_input (net : network) (x y : string) (s : AppState)
    (w : world) :
  handleSearch net (Some x) (setIngredientInput y s) w
  = (setIngredientInput y (handleSearch net (Some x) s w).1,
     (handleSearch net (Some x) s w).2).
Proof.
  rewrite !handleSearch_unfold. cbn [default id].
  rewrite (gatherLists_filters net (setIngredientInput y s) s) by done.
  destruct (gatherLists net s x w) as [[lists|] w1]; cbn [fst snd]; [|done].
  change (mergeLists (setIngredientInput y s) lists) with (mergeLists s lists).
  case_bool_decide; [|done].
  change (setResults (dedupeById (mergeLists s lists))
            (searching (setIngredientInput y s)))
    with (setIngredientInput y
            (setResults (dedupeById (mergeLists s lists)) (searching s))).
  rewrite reportEmpty_input. by destruct (reportEmpty _ _ _).
Qed.

(** X15: a search for an explicit term does not read the input box, and
    a search without one is the search for the text of the box. Clicking a
    suggestion therefore ends as the search for that suggestion does, with
    the suggestion in the box. *)
Theorem handleSuggestionClick_searches (net : network) (x : string)
    (s : AppState) (w : world) :
  handleSearch net None s w = handleSearch net (Some (ingredientInput s)) s w
  ∧ (∀ y, handleSearch net (Some x) (setIngredientInput y s) w
          = (setIngredientInput y (handleSearch net (Some x) s w).1,
             (handleSearch net (Some x) s w).2))
  ∧ handleSuggestionClick net x s w
    = (setIngredientInput x (handleSearch net (Some x) s w).1,
       (handleSearch net (Some x) s w).2)
  ∧ handleSuggestionClick net x s w
    = handleSearch net None (setIngredientInput x s) w.
Proof.
  split; [done|]. split; [intros y; apply handleSearch_input|].
  assert (∀ term s0, handleSearch net term (setShowSuggestions false s0) w
                     = handleSearch net term s0 w) as Hshow.
  { intros term s0. rewrite !handleSearch_unfold. cbn zeta.
    change (ingredientInput (setShowSuggestions false s0))
      with (ingredientInput s0).
    by rewrite (gatherLists_filters net (setShowSuggestions false s0) s0). }
  unfold handleSuggestionClick. cbn zeta. rewrite Hshow.
  split; [apply handleSearch_input|done].
Qed.

Lemma didYouMeanMessage_nonempty (queryTerm best : string) :
  isEmptyStr (didYouMeanMessage queryTerm best) = false.
Proof. done. Qed.

(** X16: once a search and its timer have settled, from a state without a
    pending timer, the page shows either the error box or the result grid,
    never both and never neither: the skeleton, the landing section, the
    quick picks and the note for an empty result are all hidden. The note
    for an empty result is on screen only in the interval in which a
    did-you-mean message waits for its timer. *)
Theorem handleSearch_panels (net : network) (term : option string)
    (s : AppState) (w : world) :
  timers s = [] →
  let s1 := (handleSearch net term s w).1 in
  let s' := runTimers s1 in
  showsSkeleton s' = false ∧ showsLanding s' = false
  ∧ showsQuickPicks s' = false ∧ showsEmptyNotice s' = false
  ∧ showsError s' = negb (showsResults s')
  ∧ (showsResults s' = true ↔ Succeeded s')
  ∧ (showsEmptyNotice s1 = true ↔ timers s1 ≠ []).
Proof.
  intros Ht s1 s'. unfold s', s1. clear s' s1.
  rewrite handleSearch_unfold. cbn zeta.
  destruct (gatherLists net s _ w) as [[lists|] w1]; cbn [fst].
  - case_bool_decide as Hd.
    + destruct (reportEmpty_cases (default (ingredientInput s) term)
        (setResults (dedupeById (mergeLists s lists)) (searching s)) w1)
        as [(best & _ & _ & _ & ->) | [_ ->]].
      * unfold showsSkeleton, showsLanding, showsQuickPicks, showsEmptyNotice,
          showsError, showsResults, Succeeded.
        cbn. rewrite Ht, Hd, ?didYouMeanMessage_nonempty. cbn.
        split_and!; try done; naive_solver.
      * unfold showsSkeleton, showsLanding, showsQuickPicks, showsEmptyNotice,
          showsError, showsResults, Succeeded.
        cbn. rewrite Ht, Hd. cbn.
        split_and!; try done; naive_solver.
    + unfold showsSkeleton, showsLanding, showsQuickPicks, showsEmptyNotice,
        showsError, showsResults, Succeeded.
      cbn. rewrite Ht. cbn.
      destruct (dedupeById (mergeLists s lists)) as [|m l]; [done|]. cbn.
      split_and!; try done; naive_solver.
  - unfold showsSkeleton, showsLanding, showsQuickPicks, showsEmptyNotice,
      showsError, showsResults, Succeeded.
    cbn. rewrite Ht. cbn.
    split_and!; try done; naive_solver.
Qed.

Lemma handleSearch_panels_witness :
  let net : network := λ _ _, Json None in
  let s' := runTimers (handleSearch net (Some "leek") initialApp initialWorld).1 in
  showsError s' = true ∧ showsResults s' = false.
Proof.
  intros net s'.
  destruct (handleSearch_panels net (Some "leek") initialApp initialWorld)
    as (_ & _ & _ & _ & He & _); [done|].
  fold s' in He. rewrite He. clear He.
  vm_compute. split; reflexivity.
Defined.

(** X17: after "reset to trending" the results are the trending list on
    page 1 with empty filters, and a search started then issues no request
    and publishes the trending list again, its ids being distinct; it
    succeeds when the list is not empty. The reset does not cancel a
    pending did-you-mean message, which appears afterwards. *)
Theorem resetToTrending_search (net : network) (s : AppState) (w : world) :
  let r := resetToTrending s in
  let s' := (handleSearch net None r w).1 in
  results r = trending s
  ∧ (handleSearch net None r w).2 = w
  ∧ results s' = dedupeById (trending s)
  ∧ (NoDup (idMeal <$> trending s) → results s' = results r)
  ∧ (trending s ≠ [] → Succeeded s')
  ∧ (∀ msg, timers s = [msg] → error (runTimers r) = msg).
Proof.
  intros r s'.
  assert (handleSearch net None r w
          = (let deduped := dedupeById (trending s) in
             let s1 := setResults deduped (searching r) in
             (setLoading false
                (if bool_decide (deduped = []) then reportEmpty "" s1 w
                 else s1), w))) as Hs.
  { by rewrite handleSearch_unfold. }
  assert (results s' = dedupeById (trending s)) as Hres.
  { unfold s'. rewrite Hs. cbn zeta. cbn [fst]. case_bool_decide as Hd; [|done].
    unfold setLoading. cbn [results].
    by rewrite (proj1 (reportEmpty_results _ _ _)). }
  split; [done|]. split; [by rewrite Hs|]. split; [done|].
  split; [intros Hnd; by rewrite Hres, dedupeById_NoDup|]. split.
  - intros Hne. unfold s'. rewrite Hs. cbn zeta. cbn [fst].
    case_bool_decide as Hd; [by apply (proj1 (dedupeById_nil _)) in Hd|]. by split.
  - intros msg Hmsg. unfold r, runTimers, resetToTrending. cbn [timers error].
    by rewrite Hmsg.
Qed.

Lemma resetToTrending_search_witness :
  let s := App "leek" "Beef" "" [] [] [Meal "1" "Soup" ""] [] false
               noRecipesMessage 4 false true [] in
  Succeeded (handleSearch (λ _ _, NetworkError) None (resetToTrending s)
               initialWorld).1.
Proof.
  intros s.
  destruct (resetToTrending_search (λ _ _, NetworkError) s initialWorld)
    as (_ & _ & _ & _ & H & _).
  by apply H.
Defined.

(** ** The cache only grows *)

Lemma keeps_ret {A} (a : A) : keeps (mret a : M A).
Proof. by intros w k key v H. Qed.

Lemma keeps_bind {A B} (m : M A) (f : A → M B) :
  keeps m → (∀ a, keeps (f a)) → keeps (m ≫= f).
Proof.
  intros Hm Hf w k key v Hget. unfold mbind, M_bind, bind.
  specialize (Hm w k key v Hget).
  destruct (m w) as [[a|] w1]; cbn [snd] in *; [by apply Hf | done].
Qed.

Lemma storeSet_get (k k' : kind) (key key' : string) (meals : list meal)
    (c : cacheT) :
  ¬ (k' = k ∧ key' = key) →
  mapGet key' (storeOf k' (storeSet k key meals c)) = mapGet key' (storeOf k' c).
Proof.
  intros Hne. rewrite storeOf_storeSet. case_bool_decide as Hk; [|done].
  subst k'. rewrite mapGet_set. case_bool_decide; [|done]. naive_solver.
Qed.

Lemma keeps_fetchListCached (net : network) (k : kind) (key : string) (u : url) :
  keeps (fetchListCached net k key u).
Proof.
  intros w k' key' v Hget.
  destruct (mapGet key (storeOf k (cache w))) as [meals|] eqn:Hown.
  - by rewrite (fetchListCached_hit net k key u w meals Hown).
  - rewrite (fetchListCached_miss net k key u w Hown).
    destruct (net _ u); cbn [fst snd cache]; [done|].
    rewrite storeSet_get; [done|]. intros [-> ->]. congruence.
Qed.

Lemma startAll_fresh (keys : list string) (w : world) (k : kind) (key : string)
    (n : nat) (u : url) :
  Waiting k key n u ∈ (startAll (ingredientCalls keys) w).1 →
  k = KIngredient ∧ mapGet key (ingredient (cache w)) = None.
Proof.
  revert w. induction keys as [|key0 keys IH]; intros w.
  - intros Hin. by apply elem_of_nil in Hin.
  - rewrite startAll_cons.
    destruct (mapHas key0 (ingredient (cache w))) eqn:Hhas; cbn [fst].
    + intros [[=]|Hin]%elem_of_cons. by apply IH.
    + intros [[= -> -> -> ->]|Hin]%elem_of_cons.
      * split; [done|]. by apply mapHas_false.
      * by apply IH in Hin.
Qed.

Lemma settleAll_get (net : network) (sts : list stage) (w1 : world) (k : kind)
    (key : string) (v : list meal) :
  (∀ n u, Waiting k key n u ∉ sts) →
  mapGet key (storeOf k (cache w1)) = Some v →
  mapGet key (storeOf k (cache (settleAll net sts w1).2)) = Some v.
Proof.
  revert w1. induction sts as [|st sts IH]; intros w1 Hno Hget; [done|].
  cbn [settleAll].
  assert (∀ n u, Waiting k key n u ∉ sts) as Hno'
    by (intros n u Hin; apply (Hno n u); by right).
  destruct st as [meals | k0 key0 n0 u0]; cbn [fetchListCached_resume].
  - unfold mret, M_ret, ret. specialize (IH w1 Hno' Hget).
    by destruct (settleAll net sts w1).
  - unfold receive. destruct (net n0 u0) as [|data].
    + specialize (IH w1 Hno' Hget). by destruct (settleAll net sts w1).
    + specialize (IH (World (storeSet k0 key0 (default [] data) (cache w1))
                            (requests w1)) Hno').
      destruct (settleAll net sts _). apply IH. cbn [cache].
      rewrite storeSet_get; [done|]. intros [-> ->]. apply (Hno n0 u0). by left.
Qed.

Lemma keeps_promiseAll (net : network) (keys : list string) :
  keeps (promiseAll net (ingredientCalls keys)).
Proof.
  intros w k key v Hget. unfold promiseAll.
  destruct (startAll_ingredientCalls keys w) as (Hcache & _).
  pose proof (startAll_fresh keys w k key) as Hfresh. cbn zeta in *.
  destruct (startAll (ingredientCalls keys) w) as [sts w1]. cbn [fst snd] in *.
  pose proof (settleAll_get net sts w1 k key v) as Hsettle.
  destruct (settleAll net sts w1) as [rs w2]. cbn [fst snd] in *.
  apply Hsettle; [|by rewrite Hcache].
  intros n u Hin. destruct (Hfresh n u Hin) as [-> Hnone].
  cbn [storeOf] in Hget. congruence.
Qed.

Lemma keeps_gatherLists (net : network) (s : AppState) (queryTerm : string) :
  keeps (gatherLists net s queryTerm).
Proof.
  rewrite gatherLists_calls.
  apply keeps_bind; [|intros lists1].
  { case_bool_decide; [apply keeps_ret|].
    apply keeps_bind; [apply keeps_promiseAll | intros; apply keeps_ret]. }
  apply keeps_bind; [|intros lists2].
  { destruct (isEmptyStr (selectedCategory s)); [apply keeps_ret|].
    apply keeps_bind; [apply keeps_fetchListCached | intros; apply keeps_ret]. }
  apply keeps_bind; [|intros lists3; apply keeps_ret].
  destruct (isEmptyStr (selectedArea s)); [apply keeps_ret|].
  apply keeps_bind; [apply keeps_fetchListCached | intros; apply keeps_ret].
Qed.

(** X18: a search never drops or changes an entry of the cache: a list
    stored under a key before the search is stored under it afterwards,
    also when the search fails, and the request log only grows. *)
Theorem handleSearch_keeps_cache (net : network) (term : option string)
    (s : AppState) (w : world) (k : kind) (key : string) (v : list meal) :
  mapGet key (storeOf k (cache w)) = Some v →
  mapGet key (storeOf k (cache (handleSearch net term s w).2)) = Some v
  ∧ requests w `prefix_of` requests (handleSearch net term s w).2.
Proof.
  intros Hget. rewrite handleSearch_unfold. cbn zeta.
  pose proof (keeps_gatherLists net s
                (default (ingredientInput s) term) w k key v Hget) as Hk.
  destruct (tracked_gatherLists net s
              (default (ingredientInput s) term) w) as (new & Hreq & _).
  destruct (gatherLists net s _ w) as [[lists|] w1]; cbn [fst snd] in *.
  - split; [done|]. rewrite Hreq. by apply prefix_app_r.
  - split; [done|]. rewrite Hreq. by apply prefix_app_r.
Qed.

Lemma handleSearch_keeps_cache_witness :
  let soup := [Meal "1" "Soup" ""] in
  let w := World (Cache [("leek", soup)] [] []) [filterByIngredient "leek"] in
  let net : network := λ _ _, NetworkError in
  mapGet "leek"
    (ingredient (cache (handleSearch net (Some "Leek, rice") initialApp w).2))
  = Some soup.
Proof.
  intros soup w net.
  by apply (handleSearch_keeps_cache net (Some "Leek, rice") initialApp w
              KIngredient "leek" soup).
Defined.

(** ** Results match every filter *)

Lemma bind_Ok {A B} (m : M A) (f : A → M B) (w w' : world) (b : B) :
  (m ≫= f) w = (Ok b, w') → ∃ a w1, m w = (Ok a, w1) ∧ f a w1 = (Ok b, w').
Proof.
  unfold mbind, M_bind, bind. destruct (m w) as [[a|] w1]; [|done].
  intros H. by exists a, w1.
Qed.

Lemma intersectById_ids (lists : list (list meal)) (l : list meal) (i : string) :
  l ∈ lists → i ∈ idMeal <$> intersectById lists → i ∈ idMeal <$> l.
Proof.
  destruct lists as [|first rest]; [by intros ?%elem_of_nil|].
  rewrite intersectById_cons. intros Hl (m & -> & Hm)%list_elem_of_fmap.
  apply list_elem_of_filter in Hm as [Hrest Hfirst].
  apply elem_of_cons in Hl as [->|Hl].
  - by apply list_elem_of_fmap_2.
  - by apply (proj1 (Forall_forall _ _) Hrest l).
Qed.

Lemma settleAll_lists (net : network) (sts : list stage) (w1 : world)
    (ls : list (list meal)) :
  allOk (settleAll net sts w1).1 = Ok ls →
  (∀ meals, Done meals ∈ sts → meals ∈ ls)
  ∧ (∀ k key n u, Waiting k key n u ∈ sts →
       ∃ l, mapGet key (storeOf k (cache (settleAll net sts w1).2)) = Some l
            ∧ l ∈ ls).
Proof.
  revert w1 ls. induction sts as [|st sts IH]; intros w1 ls; cbn [settleAll].
  - intros _. split; [intros ? Hin | intros ? ? ? ? Hin];
      by apply elem_of_nil in Hin.
  - destruct st as [meals|k0 key0 n0 u0]; cbn [fetchListCached_resume].
    + unfold mret, M_ret, ret. specialize (IH w1).
      destruct (settleAll net sts w1) as [rs w2]. cbn [fst snd allOk] in *.
      destruct (allOk rs) as [ls'|]; [|done]. intros [= <-].
      destruct (IH ls' eq_refl) as [HD HW]. split.
      * intros meals' [[= ->]|Hin]%elem_of_cons; [by left|right; by apply HD].
      * intros k key n u [[=]|Hin]%elem_of_cons.
        destruct (HW k key n u Hin) as (l & Hl & Hin'). exists l.
        split; [done|by right].
    + unfold receive. destruct (net n0 u0) as [|data].
      * destruct (settleAll net sts w1). by cbn.
      * specialize (IH (World (storeSet k0 key0 (default [] data) (cache w1))
                              (requests w1))).
        pose proof (settleAll_get net sts
                      (World (storeSet k0 key0 (default [] data) (cache w1))
                             (requests w1))) as Hkeep.
        destruct (settleAll net sts _) as [rs w2]. cbn [fst snd allOk] in *.
        destruct (allOk rs) as [ls'|]; [|done]. intros [= <-].
        destruct (IH ls' eq_refl) as [HD HW]. split.
        -- intros meals' [[=]|Hin]%elem_of_cons. right. by apply HD.
        -- intros k key n u Hin.
           destruct (decide (Exists (isWaiting k key) sts)) as [Hex|Hno].
           ++ apply Exists_exists in Hex as (st & Hst & Hw).
              destruct st as [|k' key' n' u']; [done|]. destruct Hw as [-> ->].
              destruct (HW _ _ _ _ Hst) as (l & ? & ?). exists l.
              split; [done|by right].
           ++ apply elem_of_cons in Hin as [[= -> -> -> ->]|Hin].
              ** exists (default [] data). split; [|by left]. apply Hkeep.
                 { intros n u Hin. apply Hno, Exists_exists.
                   eexists. split; [done|]. by split. }
                 cbn [cache]. rewrite storeOf_storeSet, bool_decide_eq_true_2 by done.
                 rewrite mapGet_set. by rewrite bool_decide_eq_true_2.
              ** destruct Hno. apply Exists_exists. eexists. split; [done|].
                 by split.
Qed.

Lemma startAll_done (keys : list string) (w : world) (key : string) :
  key ∈ keys → mapHas key (ingredient (cache w)) = true →
  Done (default [] (mapGet key (ingredient (cache w))))
    ∈ (startAll (ingredientCalls keys) w).1.
Proof.
  revert w. induction keys as [|key0 keys IH]; intros w.
  - by intros ?%elem_of_nil.
  - rewrite startAll_cons. intros Hin Hhas.
    destruct (mapHas key0 (ingredient (cache w))) eqn:H0; cbn [fst].
    + apply elem_of_cons in Hin as [->|Hin]; [by left|right; by apply IH].
    + apply elem_of_cons in Hin as [->|Hin]; [congruence|]. right.
      by apply (IH (World (cache w) (requests w ++ [filterByIngredient key0]))).
Qed.

Lemma promiseAll_lists (net : network) (keys : list string) (w w2 : world)
    (ls : list (list meal)) :
  promiseAll net (ingredientCalls keys) w = (Ok ls, w2) →
  ∀ key, key ∈ keys →
    ∃ l, mapGet key (ingredient (cache w2)) = Some l ∧ l ∈ ls.
Proof.
  unfold promiseAll. intros H key Hkey.
  destruct (startAll_ingredientCalls keys w) as (Hcache & _).
  destruct (startAll_stages keys w) as [Hst _].
  pose proof (startAll_done keys w key Hkey) as Hdone.
  pose proof (startAll_fresh keys w KIngredient key) as Hfresh.
  cbn zeta in *.
  destruct (startAll (ingredientCalls keys) w) as [sts w1]. cbn [fst snd] in *.
  pose proof (settleAll_lists net sts w1 ls) as Hl.
  pose proof (settleAll_get net sts w1 KIngredient key) as Hkeep.
  destruct (settleAll net sts w1) as [rs w2']. cbn [fst snd] in *.
  injection H as Hok <-. destruct (Hl Hok) as [HD HW].
  destruct (Hst key Hkey) as [Hhas|(n & u & Hw)].
  - destruct (proj1 (mapHas_get _ _) Hhas) as [meals Hget]. exists meals. split.
    + apply Hkeep; [|cbn [storeOf]; by rewrite Hcache].
      intros n u Hin. destruct (Hfresh n u Hin) as [_ Hnone]. congruence.
    + specialize (Hdone Hhas). rewrite Hget in Hdone. by apply HD.
  - by apply (HW KIngredient key n u).
Qed.

Lemma fetchListCached_stored (net : network) (k : kind) (key : string)
    (u : url) (w w' : world) (l : list meal) :
  fetchListCached net k key u w = (Ok l, w') →
  mapGet key (storeOf k (cache w')) = Some l.
Proof.
  destruct (mapGet key (storeOf k (cache w))) as [meals|] eqn:Hget.
  - rewrite (fetchListCached_hit net k key u w meals Hget). by intros [= <- <-].
  - rewrite (fetchListCached_miss net k key u w Hget).
    destruct (net _ u); [done|]. intros [= <- <-]. cbn [cache].
    rewrite storeOf_storeSet, bool_decide_eq_true_2 by done.
    rewrite mapGet_set. by rewrite bool_decide_eq_true_2.
Qed.

Lemma gathered_extend (G : kind → string → Prop) (net : network) (k : kind)
    (key : string) (u : url) (lists lists' : list (list meal)) (w w' : world) :
  gathered G lists (cache w) →
  (if isEmptyStr key then mret lists
   else l ← fetchListCached net k key u; mret (lists ++ [l])) w
    = (Ok lists', w') →
  gathered (λ k0 key0, G k0 key0 ∨ (k0 = k ∧ key0 = key ∧ key ≠ ""))
    lists' (cache w').
Proof.
  intros HG. destruct (isEmptyStr key) eqn:He.
  - intros [= <- <-]. intros k0 key0 [H|(_ & _ & Hne)]; [by apply HG|].
    by apply isEmptyStr_true in He.
  - intros (l & w1 & Hf & [= <- <-])%bind_Ok.
    pose proof (keeps_fetchListCached net k key u w) as Hkeep.
    rewrite Hf in Hkeep. cbn [snd] in Hkeep.
    intros k0 key0 [H|(-> & -> & _)].
    + destruct (HG k0 key0 H) as (l0 & l' & Hget & Hin & Hsub). exists l0, l'.
      split; [by apply Hkeep|]. split; [|done]. apply elem_of_app. by left.
    + exists l, l. split; [by eapply fetchListCached_stored|].
      split; [|done]. apply elem_of_app. right. by apply list_elem_of_singleton.
Qed.

Lemma gatherLists_gathered (net : network) (s : AppState) (queryTerm : string)
    (w w' : world) (lists : list (list meal)) :
  gatherLists net s queryTerm w = (Ok lists, w') →
  gathered (activeKeys s queryTerm) lists (cache w').
Proof.
  rewrite gatherLists_calls.
  intros (lists1 & w1 & H1 & H)%bind_Ok.
  apply bind_Ok in H as (lists2 & w2 & H2 & H).
  apply bind_Ok in H as (lists3 & w3 & H3 & [= <- <-]).
  assert (gathered (λ k key, k = KIngredient ∧ key ∈ ingredientKeys queryTerm)
            lists1 (cache w1)) as G1.
  { revert H1. case_bool_decide as Hing.
    - intros _ k key [_ Hkey]. apply ingredientKeys_nil in Hing.
      rewrite Hing in Hkey. by apply elem_of_nil in Hkey.
    - intros (ls & w0 & Hp & [= <- <-])%bind_Ok k key [-> Hkey].
      destruct (promiseAll_lists net _ w w0 ls Hp key Hkey) as (l & Hget & Hin).
      exists l, (intersectById ls). split; [done|].
      split; [by apply list_elem_of_singleton|].
      intros i. by apply intersectById_ids. }
  pose proof (gathered_extend _ net _ _ _ _ _ _ _ G1 H2) as G2.
  pose proof (gathered_extend _ net _ _ _ _ _ _ _ G2 H3) as G3.
  intros k key Hk. apply G3. unfold activeKeys in Hk. naive_solver.
Qed.

(** X19: every meal of the results of a search that has not failed
    matches every filter of the search: for each ingredient asked for
    (in lower case), and for the selected category and area, the cache
    holds after the search the list of that key, and the id of the meal
    is on it. So several ingredients, and ingredients with a category or
    an area, narrow the results down; none of them widens them. *)
Theorem handleSearch_matches_filters (net : network) (term : option string)
    (s : AppState) (w : world) (k : kind) (key : string) :
  let queryTerm := default (ingredientInput s) term in
  let run := handleSearch net term s w in
  ¬ Failed run.1 → activeKeys s queryTerm k key →
  ∃ l, mapGet key (storeOf k (cache run.2)) = Some l
       ∧ ∀ m, m ∈ results run.1 → idMeal m ∈ idMeal <$> l.
Proof.
  intros queryTerm run Hok Hk. revert Hok. unfold run.
  rewrite handleSearch_unfold. fold queryTerm.
  destruct (gatherLists net s queryTerm w) as [[lists|] w1] eqn:Hg; cbn [fst snd].
  - intros _.
    destruct (gatherLists_gathered net s queryTerm w w1 lists Hg k key Hk)
      as (l & l' & Hget & Hin & Hsub).
    exists l. split; [done|]. intros m Hm.
    assert (m ∈ dedupeById (mergeLists s lists)) as Hm'.
    { revert Hm. case_bool_decide; [|done]. unfold setLoading. cbn [results].
      by rewrite (proj1 (reportEmpty_results _ _ _)). }
    apply dedupeById_spec in Hm'.
    assert (mergeLists s lists = intersectById lists) as Hmerge.
    { destruct lists as [|l1 [|l2 lists]]; [by apply elem_of_nil in Hin|done..]. }
    rewrite Hmerge in Hm'. apply Hsub, (intersectById_ids lists l' _ Hin).
    by apply list_elem_of_fmap_2.
  - intros []. by split.
Qed.

Lemma handleSearch_matches_filters_witness :
  let net : network := λ _ u,
    match u with
    | filterByIngredient "chicken" =>
        Json (Some [Meal "1" "Curry" ""; Meal "2" "Pie" ""; Meal "3" "Stew" ""])
    | _ => Json (Some [Meal "3" "Stew" ""; Meal "4" "Bread" ""])
    end in
  let run := handleSearch net (Some "Chicken, Garlic") initialApp initialWorld in
  ∃ l, mapGet "garlic" (ingredient (cache run.2)) = Some l
       ∧ ∀ m, m ∈ results run.1 → idMeal m ∈ idMeal <$> l.
Proof.
  intros net run.
  apply (handleSearch_matches_filters net (Some "Chicken, Garlic") initialApp
           initialWorld KIngredient "garlic").
  - intros [He _]. by vm_compute in He.
  - left. split; [done|]. apply (bool_decide_unpack _). by vm_compute.
Defined.

(** ** Trending *)

Lemma allOk_Ok {A} (rs : list (result A)) (l : list A) :
  allOk rs = Ok l ↔ rs = Ok <$> l.
Proof.
  revert l. induction rs as [|[a|] rs IH]; intros l; cbn [allOk].
  - split; [intros [= <-]; done | by intros ->%eq_sym%fmap_nil_inv].
  - destruct (allOk rs) as [l'|] eqn:Hrs.
    + split.
      * intros [= <-]. rewrite fmap_cons. f_equal. by apply IH.
      * destruct l as [|b l]; [done|]. rewrite fmap_cons. intros [= -> Hl].
        apply IH in Hl. by injection Hl as ->.
    + split; [done|]. destruct l as [|b l]; [done|]. rewrite fmap_cons.
      intros [= -> Hl]. by apply IH in Hl.
  - split; [done|]. by destruct l.
Qed.

Lemma allOk_Throw {A} (rs : list (result A)) :
  allOk rs = Throw ↔ Throw ∈ rs.
Proof.
  induction rs as [|[a|] rs IH]; cbn [allOk].
  - split; [done|]. by intros ?%elem_of_nil.
  - rewrite elem_of_cons, <- IH. destruct (allOk rs); naive_solver.
  - split; [|done]. intros _. by left.
Qed.

Lemma randomPacks_spec (net : nat → response) (n : nat) :
  (randomPacks net n = Throw ↔ ∃ i, i < n ∧ net i = NetworkError)
  ∧ ∀ packs, randomPacks net n = Ok packs →
      ∀ i, i < n → net i = Json (packs !!! i).
Proof.
  unfold randomPacks. split.
  - rewrite allOk_Throw, list_elem_of_fmap. split.
    + intros (i & Hi & [_ Hlt]%elem_of_seq). exists i. split; [lia|].
      by destruct (net i).
    + intros (i & Hlt & Hi). exists i. rewrite Hi. split; [done|].
      apply elem_of_seq. lia.
  - intros packs Hok%allOk_Ok i Hi.
    apply (f_equal (λ l, l !! i)) in Hok.
    rewrite !list_lookup_fmap, lookup_seq_lt in Hok by done. simpl in Hok.
    destruct (packs !! i) as [d|] eqn:Hd; [|done].
    rewrite (list_lookup_total_correct _ _ _ Hd).
    destruct (net i); by simplify_eq/=.
Qed.

Lemma randomPacks_length (net : nat → response) (n : nat)
    (packs : list (option (list meal))) :
  randomPacks net n = Ok packs → length packs = n.
Proof.
  unfold randomPacks. intros Hok%allOk_Ok.
  apply (f_equal length) in Hok. by rewrite !length_fmap, length_seq in Hok.
Qed.

Lemma dedupeById_length (merged : list meal) :
  length (dedupeById merged) ≤ length merged.
Proof.
  destruct (dedupeById_spec merged) as (Hnd & Hids & _).
  rewrite <- (length_fmap idMeal (dedupeById merged)),
    <- (length_fmap idMeal merged).
  apply submseteq_length, NoDup_submseteq; [done|]. intros i. apply Hids.
Qed.

Lemma mergeTrending_spec (net : nat → response) (n : nat)
    (packs : list (option (list meal))) :
  randomPacks net n = Ok packs →
  (∀ m, m ∈ mergeTrending packs →
        ∃ i d, i < n ∧ net i = Json (Some d) ∧ m ∈ d)
  ∧ (∀ i d m, i < n → net i = Json (Some d) → m ∈ d →
        idMeal m ∈ idMeal <$> mergeTrending packs)
  ∧ ((∀ i, i < n → ∀ d, net i = Json (Some d) → length d ≤ 1) →
        length (mergeTrending packs) ≤ n).
Proof.
  intros Hok. pose proof (randomPacks_length net n packs Hok) as Hlen.
  destruct (randomPacks_spec net n) as [_ Hnet]. specialize (Hnet packs Hok).
  unfold mergeTrending.
  destruct (dedupeById_spec (packs ≫= default [])) as (_ & Hids & Hsub).
  split; [|split].
  - intros m Hm%Hsub. apply list_elem_of_bind in Hm as (p & Hm & Hp).
    apply list_elem_of_lookup in Hp as [i Hi].
    pose proof (lookup_lt_Some _ _ _ Hi) as Hlt. rewrite Hlen in Hlt.
    specialize (Hnet i Hlt). rewrite (list_lookup_total_correct _ _ _ Hi) in Hnet.
    destruct p as [d|]; [|by apply elem_of_nil in Hm].
    by exists i, d.
  - intros i d m Hlt Hi Hm. apply Hids, list_elem_of_fmap. exists m.
    split; [done|]. apply list_elem_of_bind. exists (Some d). split; [done|].
    specialize (Hnet i Hlt). rewrite Hi in Hnet. injection Hnet as Hnet.
    rewrite Hnet. apply list_elem_of_lookup_total_2. by rewrite Hlen.
  - intros Hone. etrans; [apply dedupeById_length|].
    assert (Forall (λ p, length (default [] p) ≤ 1) packs) as Hall.
    { apply Forall_lookup. intros i p Hi.
      pose proof (lookup_lt_Some _ _ _ Hi) as Hlt. rewrite Hlen in Hlt.
      specialize (Hnet i Hlt). rewrite (list_lookup_total_correct _ _ _ Hi) in Hnet.
      destruct p as [d|]; [|simpl; lia]. by apply (Hone i Hlt). }
    rewrite <- Hlen. clear -Hall.
    induction Hall as [|p ps Hp _ IH]; [done|].
    cbn [mbind list_bind]. rewrite length_app. simpl. lia.
Qed.

(** X20: the trending list that the loader on mount publishes has distinct
    ids; when all eight requests are answered it holds exactly the ids of
    the meals in the answers, each of its records taken from an answer, and
    at most eight meals when every answer carries at most one; when a
    request fails it is empty. Either way the loading flag ends false. *)
Theorem loadTrending_outcome (net : nat → response) :
  let t := (loadTrending net).1 in
  (loadTrending net).2 = false
  ∧ NoDup (idMeal <$> t)
  ∧ ((∃ i, i < 8 ∧ net i = NetworkError) → t = [])
  ∧ ((∀ i, i < 8 → net i ≠ NetworkError) →
       (∀ m, m ∈ t → ∃ i d, i < 8 ∧ net i = Json (Some d) ∧ m ∈ d)
       ∧ (∀ i d m, i < 8 → net i = Json (Some d) → m ∈ d →
            idMeal m ∈ idMeal <$> t)
       ∧ ((∀ i, i < 8 → ∀ d, net i = Json (Some d) → length d ≤ 1) →
            length t ≤ 8)).
Proof.
  intros t. unfold t, loadTrending.
  destruct (randomPacks_spec net 8) as [Hthrow _].
  destruct (randomPacks net 8) as [packs|] eqn:Hp; cbn [fst snd].
  - split; [done|]. split; [apply mergeTrending_NoDup|]. split.
    + intros Hex. by apply Hthrow in Hex.
    + intros _. by apply mergeTrending_spec.
  - split; [done|]. split; [apply NoDup_nil_2|]. split; [done|].
    intros Hall. destruct Hthrow as [Hthrow _].
    destruct (Hthrow eq_refl) as (i & Hlt & Hi). by destruct (Hall i Hlt).
Qed.

Lemma loadTrending_outcome_witness :
  (loadTrending (λ i, if i =? 5 then NetworkError
                      else Json (Some [Meal "1" "Soup" ""]))).1 = [].
Proof.
  destruct (loadTrending_outcome
              (λ i, if i =? 5 then NetworkError
                    else Json (Some [Meal "1" "Soup" ""])))
    as (_ & _ & H & _).
  apply H. exists 5. split; [lia | reflexivity].
Defined.

(** X21: the button "Refresh" asks for six random meals. When all six
    requests are answered the trending list is replaced by the meals of the
    answers, with distinct ids; when one fails the list on screen stays as
    it is (the loader on mount empties it instead). The loading flag ends
    false in both cases. *)
Theorem refreshTrending_outcome (net : nat → response) (trending : list meal) :
  let t := (refreshTrending net trending).1 in
  (refreshTrending net trending).2 = false
  ∧ ((∃ i, i < 6 ∧ net i = NetworkError) → t = trending)
  ∧ ((∀ i, i < 6 → net i ≠ NetworkError) →
       NoDup (idMeal <$> t)
       ∧ (∀ m, m ∈ t → ∃ i d, i < 6 ∧ net i = Json (Some d) ∧ m ∈ d)
       ∧ (∀ i d m, i < 6 → net i = Json (Some d) → m ∈ d →
            idMeal m ∈ idMeal <$> t)
       ∧ ((∀ i, i < 6 → ∀ d, net i = Json (Some d) → length d ≤ 1) →
            length t ≤ 6)).
Proof.
  intros t. unfold t, refreshTrending.
  destruct (randomPacks_spec net 6) as [Hthrow _].
  destruct (randomPacks net 6) as [packs|] eqn:Hp; cbn [fst snd].
  - split; [done|]. split.
    + intros Hex. by apply Hthrow in Hex.
    + intros _. split; [apply mergeTrending_NoDup|]. by apply mergeTrending_spec.
  - split; [done|]. split; [done|].
    intros Hall. destruct Hthrow as [Hthrow _].
    destruct (Hthrow eq_refl) as (i & Hlt & Hi). by destruct (Hall i Hlt).
Qed.

Lemma refreshTrending_outcome_witness :
  (refreshTrending (λ i, if i =? 5 then NetworkError
                         else Json (Some [Meal "1" "Soup" ""]))
     [Meal "2" "Stew" ""]).1 = [Meal "2" "Stew" ""].
Proof.
  destruct (refreshTrending_outcome
              (λ i, if i =? 5 then NetworkError
                    else Json (Some [Meal "1" "Soup" ""]))
              [Meal "2" "Stew" ""])
    as (_ & H & _).
  apply H. exists 5. split; [lia | reflexivity].
Defined.

(** ** Details *)

Lemma nonblank_test (name : string) :
  negb (isEmptyStr name) && negb (isEmptyStr (trim name)) = true ↔ ¬ isBlank name.
Proof.
  rewrite andb_true_iff, !negb_true_iff. split.
  - intros [_ Ht] Hb. apply trim_blank in Hb. by rewrite Hb in Ht.
  - intros Hb. split.
    + destruct name; [|done]. destruct Hb. apply Forall_nil_2.
    + apply isEmptyStr_false. by rewrite trim_blank.
Qed.

Lemma enrichStep_spec (meal : rawMeal) (ing : list string) (i : nat) :
  enrichStep meal ing i
  = ing ++ (if decide (hasName meal i) then [lineOf meal i] else []).
Proof.
  unfold enrichStep, lineOf.
  destruct (decide (hasName meal i)) as [(name & Hn & Hb)|Hno].
  - rewrite Hn. cbn [default]. by rewrite (proj2 (nonblank_test name) Hb).
  - rewrite app_nil_r.
    destruct (member meal (slotKey "strIngredient" i)) as [name|] eqn:Hn; [|done].
    destruct (negb (isEmptyStr name) && negb (isEmptyStr (trim name))) eqn:Ht;
      [|done].
    destruct Hno. exists name. split; [done|]. by apply nonblank_test.
Qed.

Lemma enrich_foldl (meal : rawMeal) (l : list nat) (acc : list string) :
  foldl (enrichStep meal) acc l
  = acc ++ (lineOf meal <$> filter (hasName meal) l).
Proof.
  revert acc. induction l as [|i l IH]; intros acc; cbn [foldl].
  - by rewrite app_nil_r.
  - rewrite IH, enrichStep_spec, filter_cons.
    destruct (decide (hasName meal i)).
    + by rewrite fmap_cons, <- (assoc_L (++)).
    + by rewrite app_nil_r.
Qed.

Lemma enrichMeal_ingredients (meal : rawMeal) :
  _ingredients (enrichMeal meal)
  = lineOf meal <$> filter (hasName meal) (seq 1 20).
Proof. unfold enrichMeal. cbn [_ingredients]. by rewrite enrich_foldl. Qed.

Lemma enrichMeal_length (meal : rawMeal) :
  length (_ingredients (enrichMeal meal)) ≤ 20.
Proof.
  rewrite enrichMeal_ingredients, length_fmap.
  etrans; [apply length_filter|]. by rewrite length_seq.
Qed.

Lemma enrichMeal_slots (meal meal' : rawMeal) :
  (∀ i field, 1 ≤ i ≤ 20 → field ∈ ["strIngredient"; "strMeasure"] →
     member meal' (slotKey field i) = member meal (slotKey field i)) →
  _ingredients (enrichMeal meal') = _ingredients (enrichMeal meal).
Proof.
  intros Hsame. rewrite !enrichMeal_ingredients.
  assert (∀ i, i ∈ seq 1 20 →
            member meal' (slotKey "strIngredient" i)
              = member meal (slotKey "strIngredient" i)
            ∧ member meal' (slotKey "strMeasure" i)
              = member meal (slotKey "strMeasure" i)) as Hslots.
  { intros i [? ?]%elem_of_seq.
    split; apply Hsame; try lia; set_solver. }
  rewrite (filter_ext_in (hasName meal') (hasName meal)).
  - apply Forall_fmap_ext_1, Forall_forall.
    intros i [_ Hi]%list_elem_of_filter. unfold lineOf.
    by destruct (Hslots i Hi) as [-> ->].
  - intros i Hi. unfold hasName. by destruct (Hslots i Hi) as [-> _].
Qed.

(** X22: the ingredient lines of a detail view are the lines of the slots
    1 to 20 that have a name which is not blank, in the order of the
    slots, each the name followed by the measure when there is one. So
    there are at most 20 lines, a measure without a name gives no line,
    and the lines depend on nothing but these forty members: slots from 21
    on are never shown. The other members of the meal are passed on as
    they are. *)
Theorem enrichMeal_lines (meal : rawMeal) :
  _ingredients (enrichMeal meal)
    = lineOf meal <$> filter (hasName meal) (seq 1 20)
  ∧ length (_ingredients (enrichMeal meal)) ≤ 20
  ∧ (∀ key, key ≠ "_ingredients" → members (enrichMeal meal) !! key = meal !! key)
  ∧ (∀ meal' : rawMeal,
       (∀ i field, 1 ≤ i ≤ 20 → field ∈ ["strIngredient"; "strMeasure"] →
          member meal' (slotKey field i) = member meal (slotKey field i)) →
       _ingredients (enrichMeal meal') = _ingredients (enrichMeal meal)).
Proof.
  split; [apply enrichMeal_ingredients|].
  split; [apply enrichMeal_length|]. split.
  - intros key Hkey. unfold enrichMeal. cbn [members].
    by apply lookup_delete_ne.
  - intros meal'. apply enrichMeal_slots.
Qed.

Lemma enrichMeal_lines_witness :
  let meal : rawMeal :=
    {[ "strMeal" := Some "Soup";
       "strIngredient1" := Some "Leek"; "strMeasure1" := Some "2";
       "strIngredient2" := Some " "; "strMeasure2" := Some "1 tsp";
       "strIngredient3" := Some "Salt"; "strMeasure3" := None ]} in
  let more : rawMeal := <[ "strIngredient21" := Some "Pepper" ]> meal in
  _ingredients (enrichMeal more) = _ingredients (enrichMeal meal)
  ∧ _ingredients (enrichMeal meal) = ["Leek " +:+ enDash +:+ " 2"; "Salt"].
Proof.
  intros meal more.
  destruct (enrichMeal_lines meal) as (_ & _ & _ & H).
  split; [|by vm_compute].
  apply H. intros i field Hi Hfield. unfold more, member.
  rewrite lookup_insert_ne; [done|].
  assert (Forall (λ f, Forall (λ j, "strIngredient21" ≠ slotKey f j) (seq 1 20))
            ["strIngredient"; "strMeasure"]) as Hall
    by (repeat constructor; by vm_compute).
  rewrite Forall_forall in Hall. specialize (Hall field Hfield).
  rewrite Forall_forall in Hall. apply Hall, elem_of_seq. lia.
Defined.

Lemma mapGet_set_ne {V} (m : list (string * V)) (k k' : string) (v : V) :
  k' ≠ k → mapGet k' (mapSet k v m) = mapGet k' m.
Proof. intros Hne. rewrite mapGet_set. by case_bool_decide. Qed.

(** X23: opening the details of a meal always ends with the dialog open,
    not loading, and showing either the meal or the error view. A cached
    id is shown without a request. Otherwise one lookup is made: the first
    meal of the answer is shown and stored under the id, so that opening
    it again makes no request and shows the same; a failure, or an answer
    without a meal, shows the error view and stores nothing, so that the
    next opening asks again. No other entry of the lookup cache changes. *)
Theorem openDetails_caches (net : nat → string → lookupResponse) (id : string)
    (d : DetailState) (w : lookupWorld) :
  let d' := (openDetails net id d w).1 in
  let w' := (openDetails net id d w).2 in
  detailOpen d' = true ∧ detailLoading d' = false ∧ is_Some (detail d')
  ∧ (∀ meal, mapGet id (lookupCache w) = Some meal →
       detail d' = Some (DetailMeal (enrichMeal meal)) ∧ w' = w)
  ∧ (mapGet id (lookupCache w) = None →
       lookups w' = lookups w ++ [id]
       ∧ (∀ meal rest,
            net (length (lookups w)) id = LookupJson (Some (meal :: rest)) →
            detail d' = Some (DetailMeal (enrichMeal meal))
            ∧ mapGet id (lookupCache w') = Some meal
            ∧ openDetails net id d' w' = (d', w'))
       ∧ (net (length (lookups w)) id = LookupError
          ∨ net (length (lookups w)) id = LookupJson None
          ∨ net (length (lookups w)) id = LookupJson (Some []) →
            detail d' = Some DetailError ∧ lookupCache w' = lookupCache w))
  ∧ (∀ id', id' ≠ id →
       mapGet id' (lookupCache w') = mapGet id' (lookupCache w)).
Proof.
  intros d' w'. unfold d', w', openDetails. clear d' w'.
  destruct (mapGet id (lookupCache w)) as [cachedMeal|] eqn:Hget.
  - rewrite (proj2 (mapHas_get _ _)) by (by rewrite Hget). cbn.
    split_and!; try done. by intros meal [= <-].
  - rewrite (proj2 (mapHas_false _ _)) by done.
    destruct (net (length (lookups w)) id) as [|[[|meal rest]|]] eqn:Hnet; cbn.
    + split_and!; try done; intros _; split_and!; try done; naive_solver.
    + split_and!; try done; intros _; split_and!; try done; naive_solver.
    + split_and!; try done.
      * intros _. split_and!; try done; [|naive_solver].
        intros ? ? [= <- <-].
        assert (mapGet id (mapSet id meal (lookupCache w)) = Some meal) as Hnew
          by (rewrite mapGet_set; by case_bool_decide).
        split_and!; try done.
        rewrite (proj2 (mapHas_get _ _)) by (by rewrite Hnew).
        by rewrite Hnew.
      * intros id' Hne. by apply mapGet_set_ne.
    + split_and!; try done; intros _; split_and!; try done; naive_solver.
Qed.

Lemma openDetails_caches_witness :
  let meal : rawMeal := {[ "strIngredient1" := Some "Leek" ]} in
  let net : nat → string → lookupResponse :=
    λ n _, if n =? 0 then LookupJson (Some [meal]) else LookupError in
  let first := openDetails net "7" (Details false false None)
                 (LookupWorld [] []) in
  openDetails net "7" first.1 first.2 = first.
Proof.
  intros meal net first.
  destruct (openDetails_caches net "7" (Details false false None)
              (LookupWorld [] [])) as (_ & _ & _ & _ & H & _).
  destruct H as (_ & H & _); [done|].
  destruct (H meal []) as (_ & _ & Hagain); [done|].
  exact (eq_trans Hagain (eq_sym (surjective_pairing first))).
Defined.

(** ** Class names *)

Lemma splitChars_nosep (sep : ascii) (l : list ascii) :
  sep ∉ l → splitChars sep l = [l].
Proof.
  induction l as [|c l IH]; intros Hno; [done|]. cbn [splitChars].
  apply not_elem_of_cons in Hno as [Hc Hl].
  rewrite bool_decide_eq_false_2 by done. by rewrite IH.
Qed.

Lemma splitChars_app (sep : ascii) (a b : list ascii) :
  sep ∉ a → splitChars sep (a ++ sep :: b) = a :: splitChars sep b.
Proof.
  induction a as [|c a IH]; intros Hno; cbn [app splitChars].
  - by rewrite bool_decide_eq_true_2.
  - apply not_elem_of_cons in Hno as [Hc Ha].
    rewrite bool_decide_eq_false_2 by done. by rewrite IH.
Qed.

Lemma joinWith_split (sep : ascii) (l : list string) :
  l ≠ [] → Forall (λ x, sep ∉ chars x) l →
  splitChars sep (chars (joinWith (String sep EmptyString) l)) = chars <$> l.
Proof.
  induction l as [|x l IH]; [done|]. intros _ [Hx Hl]%Forall_cons.
  destruct l as [|y l].
  - cbn [joinWith]. by rewrite splitChars_nosep.
  - change (joinWith (String sep EmptyString) (x :: y :: l))
      with (x +:+ String sep EmptyString
              +:+ joinWith (String sep EmptyString) (y :: l)).
    rewrite !chars_append. change (chars (String sep EmptyString)) with [sep].
    cbn [app].
    rewrite splitChars_app by done. rewrite IH by done. by rewrite fmap_cons.
Qed.

Lemma joinWith_empty (sep : string) (l : list string) :
  Forall (λ x, isEmptyStr x = false) l → joinWith sep l = "" → l = [].
Proof.
  destruct l as [|x l]; [done|]. intros [Hx _]%Forall_cons.
  destruct x as [|c x]; [done|]. by destruct l.
Qed.

(** X24: [classNames] yields the empty string exactly when no argument is
    a string that is not empty; otherwise it joins these arguments, in
    order, so that splitting the result at the spaces gives them back when
    none of them contains a space. *)
Theorem classNames_split (xs : list (option string)) :
  let kept := filter (λ x, isEmptyStr x = false) (omap id xs) in
  (classNames xs = "" ↔ kept = [])
  ∧ (kept ≠ [] → Forall (λ x, " "%char ∉ chars x) kept →
       splitChars " " (chars (classNames xs)) = chars <$> kept).
Proof.
  intros kept. unfold classNames. fold kept. split.
  - split; [|by intros ->]. apply joinWith_empty, Forall_forall.
    by intros x [? _]%list_elem_of_filter.
  - apply (joinWith_split " "%char).
Qed.

Lemma classNames_split_witness :
  splitChars " " (chars (classNames [Some "btn"; None; Some ""; Some "on"]))
  = [chars "btn"; chars "on"].
Proof.
  destruct (classNames_split [Some "btn"; None; Some ""; Some "on"]) as [_ H].
  apply H; [done|]. apply (bool_decide_unpack _). by vm_compute.
Defined.

(** ** What a did-you-mean message can suggest *)







